(** * vitamin: the query builder and the many-to-many relation

    A shallow embedding of [src/query.js], [src/model.js] (the part that
    builds queries, the write calls, the plugins and the options of a
    subclass), [src/relations/belongs-to-many.js] and
    [src/relations/mixins/many-to-many.js].

    JavaScript objects are mutable and shared, so the embedding keeps an
    explicit heap: a value is a primitive or a reference, every object
    literal and every library call that returns a fresh object allocates,
    and a method is a computation in a small state monad over the heap and
    the log of calls made on the storage driver. *)

From Stdlib Require Import ZArith Ascii String List Bool Lia DecimalString.
From stdpp Require Import base list strings option.
Import ListNotations.
Open Scope string_scope.
Open Scope list_scope.

(** ** Values and objects *)

(** A location is an index into the heap. *)
Abbreviation loc := nat (only parsing).

(** Numbers: the integers and NaN. Fractions and infinities are not
    represented. *)
Inductive number :=
| Int (z : Z)
| NaN.

Inductive value :=
| VUndefined
| VNull
| VBool (b : bool)
| VNum (n : number)
| VStr (s : string)
| VFunc (name : string)   (* a function object carrying no enumerable property *)
| VRef (l : loc).

#[global] Instance number_eq_dec : EqDecision number.
Proof. solve_decision. Defined.

#[global] Instance value_eq_dec : EqDecision value.
Proof. solve_decision. Defined.

(** Enumerable properties in insertion order. *)
Definition props := list (string * value).

(** [function Query(driver)]: the eight accumulators, the read-only
    [driver], and [model], an own property only once [setModel] ran. *)
Record Query := mkQuery {
  _where : value;
  _rels : value;
  _select : value;
  _order : value;
  _distinct : value;
  _offset : value;
  _limit : value;
  _from : value;
  driver : value;
  model : option value
}.

(** A model instance: the primary key name of its class ([options.pk]),
    the contents of its attribute container, the driver of its class
    ([constructor.driver]) and what a [for .. in] over it yields. *)
Record Model := mkModel {
  m_pk : value;
  m_data : props;
  m_driver : value;
  m_enumerable : props
}.

Inductive object :=
| OArr (elems : list value)
| OObj (ps : props)
| OQuery (q : Query)
| OModel (m : Model).

(** A method call on a collaborator that lives outside the builder. *)
Inductive event :=
| Call (receiver : value) (method : string) (args : list value).

Record state := mkState {
  heap : list object;
  calls : list event
}.

(** ** The monad: state, and [None] when the run leaves what is modelled *)

Definition M (A : Type) : Type := state -> option (A * state).

Definition ret {A} (a : A) : M A := fun st => Some (a, st).

Definition bind {A B} (m : M A) (k : A -> M B) : M B :=
  fun st => match m st with
            | Some (a, st') => k a st'
            | None => None
            end.

Definition stuck {A} : M A := fun _ => None.

Declare Scope js_scope.
Delimit Scope js_scope with js.
Notation "'let*' x ':=' m 'in' k" := (bind m (fun x => k))
  (at level 10, x name, m at level 100, k at level 200) : js_scope.
Notation "'run' m 'in' k" := (bind m (fun _ => k))
  (at level 10, m at level 100, k at level 200) : js_scope.
Open Scope js_scope.

Definition of_option {A} (o : option A) : M A :=
  match o with Some a => ret a | None => stuck end.

Definition get_heap : M (list object) := fun st => Some (heap st, st).

Definition alloc (o : object) : M value :=
  fun st => Some (VRef (length (heap st)),
                  mkState (heap st ++ [o]) (calls st)).

Definition load (l : loc) : M object :=
  fun st => match heap st !! l with
            | Some o => Some (o, st)
            | None => None
            end.

Definition store (l : loc) (o : object) : M unit :=
  fun st => match heap st !! l with
            | Some _ => Some (tt, mkState (<[l:=o]> (heap st)) (calls st))
            | None => None
            end.

Definition emit (e : event) : M unit :=
  fun st => Some (tt, mkState (heap st) (calls st ++ [e])).

Fixpoint each {A} (xs : list A) (f : A -> M unit) : M unit :=
  match xs with
  | [] => ret tt
  | x :: xs' => run f x in each xs' f
  end.

(** ** Language primitives *)

Definition decimal (z : Z) : string := NilZero.string_of_int (Z.to_int z).

(** The property key a value is coerced to. Keys made from objects and
    functions are not modelled. *)
Definition property_key (v : value) : option string :=
  match v with
  | VStr s => Some s
  | VNum (Int z) => Some (decimal z)
  | VNum NaN => Some "NaN"
  | VBool true => Some "true"
  | VBool false => Some "false"
  | VUndefined => Some "undefined"
  | VNull => Some "null"
  | VFunc _ | VRef _ => None
  end.

Definition is_digit (c : ascii) : bool :=
  let n := nat_of_ascii c in (48 <=? n)%nat && (n <=? 57)%nat.

Fixpoint digits_value (acc : Z) (s : string) : option Z :=
  match s with
  | EmptyString => Some acc
  | String c s' =>
      if is_digit c
      then digits_value (10 * acc + Z.of_nat (nat_of_ascii c - 48)) s'
      else None
  end.

(** [Number(v)]. Always a primitive number. A string is read when it is
    empty or a run of decimal digits; other strings, and objects, are not
    modelled. *)
Definition Number (v : value) : option number :=
  match v with
  | VNum n => Some n
  | VBool b => Some (Int (if b then 1 else 0))
  | VNull => Some (Int 0)
  | VUndefined => Some NaN
  | VStr s => Int <$> digits_value 0 s
  | VFunc _ | VRef _ => None
  end.

Fixpoint get_prop (ps : props) (k : string) : option value :=
  match ps with
  | [] => None
  | (k', v) :: ps' => if String.eqb k' k then Some v else get_prop ps' k
  end.

(** [o[k] = v] on a plain object: overwrite in place, or append. *)
Fixpoint set_prop (ps : props) (k : string) (v : value) : props :=
  match ps with
  | [] => [(k, v)]
  | (k', v') :: ps' =>
      if String.eqb k' k then (k', v) :: ps' else (k', v') :: set_prop ps' k v
  end.

Definition assign (target : value) (k : string) (v : value) : M unit :=
  match target with
  | VRef l =>
      let* o := load l in
      match o with
      | OObj ps => store l (OObj (set_prop ps k v))
      | _ => stuck
      end
  | _ => stuck
  end.

Definition array_elems (h : list object) (v : value) : option (list value) :=
  match v with
  | VRef l => match h !! l with Some (OArr es) => Some es | _ => None end
  | _ => None
  end.

(** [val instanceof Query], [val instanceof Model] *)
Definition instanceof_Query (h : list object) (v : value) : bool :=
  match v with
  | VRef l => match h !! l with Some (OQuery _) => true | _ => false end
  | _ => false
  end.

Definition instanceof_Model (h : list object) (v : value) : bool :=
  match v with
  | VRef l => match h !! l with Some (OModel _) => true | _ => false end
  | _ => false
  end.

(** [arr.slice()] *)
Definition slice (v : value) : M value :=
  let* h := get_heap in
  let* es := of_option (array_elems h v) in
  alloc (OArr es).

(** [arr.concat(other)] with [other] an array: its elements are spread. *)
Definition concat (v other : value) : M value :=
  let* h := get_heap in
  let* es := of_option (array_elems h v) in
  let* es' := of_option (array_elems h other) in
  alloc (OArr (es ++ es')).

(** ** underscore

    The library functions the sources call, on the values above. *)

Definition _isArray (h : list object) (v : value) : bool :=
  match array_elems h v with Some _ => true | None => false end.

(** [typeof v] is ['function'], or ['object'] and [v] is not [null]. *)
Definition _isObject (v : value) : bool :=
  match v with VRef _ | VFunc _ => true | _ => false end.

Definition _isFunction (v : value) : bool :=
  match v with VFunc _ => true | _ => false end.

Definition index_props (es : list value) : props :=
  imap (fun i e => (decimal (Z.of_nat i), e)) es.

Definition Query_own (q : Query) : props :=
  [("_where", _where q); ("_rels", _rels q); ("_select", _select q);
   ("_order", _order q); ("_distinct", _distinct q); ("_offset", _offset q);
   ("_limit", _limit q); ("_from", _from q)]
  ++ match model q with Some m => [("model", m)] | None => [] end.

Definition Query_prototype : props :=
  map (fun n => (n, VFunc n))
    ["with"; "loadRelated"; "setModel"; "where"; "whereIn"; "orWhere";
     "from"; "select"; "distinct"; "take"; "skip"; "order"; "fetch";
     "fetchAll"; "insert"; "update"; "destroy"; "assemble";
     "_getRelation"; "_initRelation"].

(** Own enumerable properties ([_.keys]); a primitive or a function has
    none. *)
Definition own_props (h : list object) (v : value) : props :=
  match v with
  | VRef l =>
      match h !! l with
      | Some (OArr es) => index_props es
      | Some (OObj ps) => ps
      | Some (OQuery q) => Query_own q
      | Some (OModel _) | None => []
      end
  | _ => []
  end.

(** Own and inherited enumerable properties ([_.allKeys], a [for .. in]). *)
Definition all_props (h : list object) (v : value) : props :=
  match v with
  | VRef l =>
      match h !! l with
      | Some (OArr es) => index_props es
      | Some (OObj ps) => ps
      | Some (OQuery q) => Query_own q ++ Query_prototype
      | Some (OModel m) => m_enumerable m
      | None => []
      end
  | _ => []
  end.

(** [_.isEmpty]: [null] and [undefined] are empty; an array or a string is
    empty when its length is 0; anything else is empty when it has no own
    enumerable key, which makes every number, boolean and function empty. *)
Definition _isEmpty (h : list object) (v : value) : bool :=
  match v with
  | VUndefined | VNull => true
  | VStr s => match s with EmptyString => true | _ => false end
  | _ =>
      match array_elems h v with
      | Some es => match es with [] => true | _ => false end
      | None => match own_props h v with [] => true | _ => false end
      end
  end.

(** [_.keys(obj)]: a fresh array of the own enumerable keys. *)
Definition _keys (obj : value) : M value :=
  let* h := get_heap in
  alloc (OArr (map (fun kv => VStr kv.1) (own_props h obj))).

(** [_.extend(obj, source)]: copy every enumerable property of [source]
    onto [obj], overwriting. *)
Definition _extend (obj source : value) : M value :=
  match obj with
  | VUndefined | VNull => ret obj
  | _ =>
      let* h := get_heap in
      run each (all_props h source) (fun kv => assign obj kv.1 kv.2) in
      ret obj
  end.

(** [_.clone(obj)]: a shallow copy of an array or an object. *)
Definition _clone (obj : value) : M value :=
  if negb (_isObject obj) then ret obj
  else
    let* h := get_heap in
    if _isArray h obj then slice obj
    else
      let* o := alloc (OObj []) in
      _extend o obj.

Definition uniq_step (result : list value) (v : value) : list value :=
  if bool_decide (v ∈ result) then result else result ++ [v].

Definition uniq_elems (es : list value) : list value :=
  fold_left uniq_step es [].

(** [_.uniq(array)]: a fresh array keeping the first occurrence of each
    element. *)
Definition _uniq (array : value) : M value :=
  let* h := get_heap in
  let* es := of_option (array_elems h array) in
  alloc (OArr (uniq_elems es)).

(** [_.toArray(arguments)] *)
Definition _toArray (arguments : list value) : M value :=
  alloc (OArr arguments).

(** ** query.js *)

Definition arg (i : nat) (arguments : list value) : value :=
  nth i arguments VUndefined.

Definition this_query (this : value) : M Query :=
  match this with
  | VRef l =>
      let* o := load l in
      match o with OQuery q => ret q | _ => stuck end
  | _ => stuck
  end.

Definition update_query (this : value) (f : Query -> Query) : M unit :=
  match this with
  | VRef l =>
      let* o := load l in
      match o with OQuery q => store l (OQuery (f q)) | _ => stuck end
  | _ => stuck
  end.

Definition set_select (v : value) (q : Query) : Query :=
  mkQuery (_where q) (_rels q) v (_order q) (_distinct q) (_offset q)
          (_limit q) (_from q) (driver q) (model q).
Definition set_order (v : value) (q : Query) : Query :=
  mkQuery (_where q) (_rels q) (_select q) v (_distinct q) (_offset q)
          (_limit q) (_from q) (driver q) (model q).
Definition set_distinct (v : value) (q : Query) : Query :=
  mkQuery (_where q) (_rels q) (_select q) (_order q) v (_offset q)
          (_limit q) (_from q) (driver q) (model q).
Definition set_offset (v : value) (q : Query) : Query :=
  mkQuery (_where q) (_rels q) (_select q) (_order q) (_distinct q) v
          (_limit q) (_from q) (driver q) (model q).
Definition set_limit (v : value) (q : Query) : Query :=
  mkQuery (_where q) (_rels q) (_select q) (_order q) (_distinct q)
          (_offset q) v (_from q) (driver q) (model q).
Definition set_from (v : value) (q : Query) : Query :=
  mkQuery (_where q) (_rels q) (_select q) (_order q) (_distinct q)
          (_offset q) (_limit q) v (driver q) (model q).
Definition set_model (v : value) (q : Query) : Query :=
  mkQuery (_where q) (_rels q) (_select q) (_order q) (_distinct q)
          (_offset q) (_limit q) (_from q) (driver q) (Some v).

(** [new Query(driver)]: only the first argument is looked at. The four
    containers are allocated before the instance that holds them. *)
Definition Query_new (arguments : list value) : M value :=
  let driver := arg 0 arguments in
  let* w := alloc (OObj []) in
  let* r := alloc (OObj []) in
  let* s := alloc (OArr []) in
  let* o := alloc (OArr []) in
  alloc (OQuery (mkQuery w r s o (VBool false) VUndefined VUndefined
                         VUndefined driver None)).

Definition setModel (this : value) (arguments : list value) : M value :=
  run update_query this (set_model (arg 0 arguments)) in
  ret this.

(** [this[p]] on a builder, for the names [assemble] reads. *)
Definition Query_get (q : Query) (p : string) : value :=
  match get_prop (Query_own q ++ Query_prototype) p with
  | Some v => v
  | None => VUndefined
  end.

Definition assemble_props : list string :=
  ["select"; "distinct"; "from"; "where"; "order"; "offset"; "limit"].

Definition _assemblePieces (this q : value) (name : string) : M unit :=
  let* r := this_query this in
  let prop := Query_get r ("_" +:+ name) in
  let* h := get_heap in
  (* skip empty arrays and objects *)
  if _isEmpty h prop then ret tt
  else
    let* prop := (if _isArray h prop then slice prop else ret prop) in
    let* prop := (if _isObject prop then _clone prop else ret prop) in
    assign q name prop.

Definition assemble (this : value) : M value :=
  let* q := alloc (OObj []) in
  run each assemble_props (_assemblePieces this q) in
  ret q.

(** The helper [_object(key, val)]. *)
Definition _object (key val : value) : M value :=
  if _isObject val then ret val
  else
    let* k := of_option (property_key key) in
    alloc (OObj [(k, val)]).

(** The body under [case 3:] of [where]. *)
Definition where_case3 (key op val : value) : M value :=
  let* h := get_heap in
  let* val := (if instanceof_Query h val then assemble val else ret val) in
  let* inner := _object op val in
  _object key inner.

(** The body under [case 1:] of [where]. *)
Definition where_case1 (key : value) : M value :=
  if _isObject key then ret key else alloc (OObj []).

(** [where(key, op, val)]. The [switch] on [arguments.length] has no
    [break]: [case 2] runs into [case 3], which runs into [case 1]. *)
Definition where_ (this : value) (arguments : list value) : M value :=
  let key := arg 0 arguments in
  let op := arg 1 arguments in
  let val := arg 2 arguments in
  let* cond := alloc (OObj []) in
  let* cond :=
    match length arguments with
    | 2 =>
        let val := op in
        let* h := get_heap in
        let op := if _isArray h val then VStr "$in" else VStr "$eq" in
        let* cond := where_case3 key op val in
        where_case1 key
    | 3 =>
        let* cond := where_case3 key op val in
        where_case1 key
    | 1 => where_case1 key
    | _ => ret cond
    end in
  let* r := this_query this in
  run _extend (_where r) cond in
  ret this.

Definition whereIn (this : value) (arguments : list value) : M value :=
  where_ this [arg 0 arguments; VStr "$in"; arg 1 arguments].

Definition orWhere (this : value) (arguments : list value) : M value :=
  let* clauses := _toArray arguments in
  let* o := alloc (OObj [("$or", clauses)]) in
  where_ this [o].

Definition from (this : value) (arguments : list value) : M value :=
  run update_query this (set_from (arg 0 arguments)) in
  ret this.

Definition select (this : value) (arguments : list value) : M value :=
  let field := arg 0 arguments in
  let* h := get_heap in
  let* args := (if _isArray h field then ret field else _toArray arguments) in
  let* r := this_query this in
  let* all := concat (_select r) args in
  let* u := _uniq all in
  run update_query this (set_select u) in
  ret this.

Definition distinct (this : value) : M value :=
  run update_query this (set_distinct (VBool true)) in
  ret this.

Definition take (this : value) (arguments : list value) : M value :=
  let* n := of_option (Number (arg 0 arguments)) in
  run update_query this (set_limit (VNum n)) in
  ret this.

Definition skip (this : value) (arguments : list value) : M value :=
  let* n := of_option (Number (arg 0 arguments)) in
  run update_query this (set_offset (VNum n)) in
  ret this.

Definition order (this : value) (arguments : list value) : M value :=
  let field := arg 0 arguments in
  let* h := get_heap in
  let* args := (if _isArray h field then ret field else _toArray arguments) in
  let* r := this_query this in
  let* all := concat (_order r) args in
  let* u := _uniq all in
  run update_query this (set_order u) in
  ret this.

(** [destroy()]: hand the assembled descriptor to [this.driver.destroy].
    The call is logged; what the receiver does with it is not modelled. *)
Definition destroy (this : value) : M unit :=
  let* r := this_query this in
  let* d := assemble this in
  emit (Call (driver r) "destroy" [d]).

(** ** model.js *)

Definition this_model (this : value) : M Model :=
  match this with
  | VRef l =>
      let* o := load l in
      match o with OModel m => ret m | _ => stuck end
  | _ => stuck
  end.

(** [getKeyName()] is [_.result(this.constructor.options, 'pk')]; an option
    that is itself a function would be called, which is not modelled. *)
Definition getKeyName (this : value) : M value :=
  let* m := this_model this in
  if _isFunction (m_pk m) then stuck else ret (m_pk m).

(** Modelled from the spec: the attribute container ([src/data.js]) is not
    among the sources; the spec describes it as a plain key-value store read
    through [get], so a missing attribute reads as [undefined]. *)
Definition Data_get (data : props) (attr : value) : option value :=
  k ← property_key attr;
  Some (default VUndefined (get_prop data k)).

(** [get(attr)] is [this.data.get(attr)]. *)
Definition get (this attr : value) : M value :=
  let* m := this_model this in
  of_option (Data_get (m_data m) attr).

Definition getId (this : value) : M value :=
  let* k := getKeyName this in
  get this k.

(** [newQuery()] is [new Query(this, this.constructor.driver)]. *)
Definition newQuery (this : value) : M value :=
  let* m := this_model this in
  Query_new [this; m_driver m].

(** ** relations/belongs-to-many.js *)

Fixpoint map_M {A B} (f : A -> M B) (xs : list A) : M (list B) :=
  match xs with
  | [] => ret []
  | x :: xs' =>
      let* y := f x in
      let* ys := map_M f xs' in
      ret (y :: ys)
  end.

Module BelongsToMany.

(** The fields of a relation after [through(model, rk, pk)]. *)
Record t := mk {
  parent : value;
  related : value;
  query : value;
  pivot : value;
  localKey : value;
  otherKey : value
}.

Definition _newPivotQuery (this : t) : M value :=
  let* query := newQuery (pivot this) in
  let* id := getId (parent this) in
  where_ query [localKey this; id].

(** [detach(ids, cb)]. Completion through [nodeify(cb)] is not part of
    the model; what is kept is the call made on the driver. *)
Definition detach (this : t) (arguments : list value) : M unit :=
  let ids := arg 0 arguments in
  let* query := _newPivotQuery this in
  (* detach all related models *)
  let* ids := (if _isFunction ids then alloc (OArr []) else ret ids) in
  (* in case it is a model instance *)
  let* h := get_heap in
  let* ids := (if instanceof_Model h ids then getId ids else ret ids) in
  let* h := get_heap in
  let* ids := (if negb (_isArray h ids) then alloc (OArr [ids])
               else ret ids) in
  let* h := get_heap in
  let* es := of_option (array_elems h ids) in
  run (if (0 <? length es)%nat
       then whereIn query [otherKey this; ids]
       else ret query) in
  destroy query.

(** Modelled from the spec: [_getKeys] belongs to the relation base
    ([src/relations/base.js]), which is not among the sources; the spec
    has it yield the key value of every given parent. *)
Definition _getKeys (models key : value) : M value :=
  let* h := get_heap in
  let* ms := of_option (array_elems h models) in
  let* ks := map_M (fun m => get m key) ms in
  alloc (OArr ks).

Definition _applyConstraints (this : t) : M unit :=
  let* other := getKeyName (related this) in
  let* subQuery := _newPivotQuery this in
  let* s := select subQuery [otherKey this] in
  let* d := distinct s in
  run whereIn (query this) [other; d] in
  ret tt.

Definition _applyEagerConstraints (this : t) (models : value) : M unit :=
  let* subQuery := _newPivotQuery this in
  let* local := getKeyName (parent this) in
  let* other := getKeyName (related this) in
  let* keys := _getKeys models local in
  run whereIn subQuery [localKey this; keys] in
  let* s := select subQuery [otherKey this] in
  let* d := distinct s in
  run whereIn (query this) [other; d] in
  ret tt.

End BelongsToMany.

(** ** relations/mixins/many-to-many.js *)

Module ManyToMany.

(** Modelled from the spec: neither the collection type with its
    [groupBy] nor [model.related] is among the sources. An entity carries
    its attributes and, when it came through a pivot, the embedded pivot
    sub-record; [related('pivot').get(key)] reads that record and fails
    when there is none. *)
Record entity := mkEntity {
  attributes : props;
  pivot_record : option props
}.

Definition pivot_get (model : entity) (key : value) : option value :=
  data ← pivot_record model;
  Data_get data key.

(** Modelled from the spec: [groupBy] collects, under the property key
    each entity is mapped to, the entities in their original order. *)
Fixpoint add_to_group (groups : list (string * list entity))
         (k : string) (e : entity) : list (string * list entity) :=
  match groups with
  | [] => [(k, [e])]
  | (k', es) :: groups' =>
      if String.eqb k' k then (k', es ++ [e]) :: groups'
      else (k', es) :: add_to_group groups' k e
  end.

Fixpoint groupBy_from (groups : list (string * list entity))
         (f : entity -> option string) (models : list entity)
  : option (list (string * list entity)) :=
  match models with
  | [] => Some groups
  | e :: models' => k ← f e; groupBy_from (add_to_group groups k e) f models'
  end.

Definition groupBy := groupBy_from [].

Definition cleanPivotAttributes (models : list entity) : list entity :=
  models.

Definition buildDictionary (models : list entity) (key : value)
  : option (list (string * list entity)) :=
  let _ := cleanPivotAttributes models in
  groupBy (fun model => v ← pivot_get model key; property_key v) models.

End ManyToMany.

(** ** Fetching *)

Inductive error :=
| ModelNotFoundError
| TypeError (msg : string)
| Failure (reason : value).

Inductive outcome :=
| Resolved (v : value)
| Rejected (e : error).

(** bluebird: [p.map(mapper, options)] maps over the array [p] resolved to.
    The promise it returns is rejected with a [TypeError] when [mapper] is
    not a function, and when [p] did not resolve to an array. Running a
    mapper is not modelled. *)
Definition Promise_map (resolved mapper options : value) : M outcome :=
  if negb (_isFunction mapper)
  then ret (Rejected (TypeError "expecting a function"))
  else
    let* h := get_heap in
    if negb (_isArray h resolved)
    then ret (Rejected (TypeError "expecting an array"))
    else stuck.

(** [loadRelated(models)] is
    [Promise.bind(this).map(_.keys(this._rels), function iterateRelations ..)]:
    the receiver resolves to [undefined], the key array sits in the place of
    the mapper and the function in the place of the options. *)
Definition loadRelated (this models : value) : M outcome :=
  let* r := this_query this in
  let* ks := _keys (_rels r) in
  Promise_map VUndefined ks (VFunc "iterateRelations").

Fixpoint map_outcomes (f : value -> M outcome) (xs : list value)
  : M (list value + error) :=
  match xs with
  | [] => ret (inl [])
  | x :: xs' =>
      let* y := f x in
      match y with
      | Rejected e => ret (inr e)
      | Resolved v =>
          let* ys := map_outcomes f xs' in
          match ys with
          | inl vs => ret (inl (v :: vs))
          | inr e => ret (inr e)
          end
      end
  end.

Section Fetch.

(** What the entity type does with a record is outside the sources:
    [setData model resp] stands for [model.setData(resp, true)] and
    [newInstance model data] for [model.newInstance(data)]. *)
Variable setData : value -> value -> M outcome.
Variable newInstance : value -> value -> M outcome.

(** [fetch()], with [response] the way [this.driver.fetch(descriptor)]
    ends: the settlement of the promise it returns, or the rejection the
    chain makes of what the call throws. *)
Definition fetch (response : outcome) (this : value) : M outcome :=
  let* r := this_query this in
  let* d := assemble this in
  run emit (Call (driver r) "fetch" [d]) in
  match response with
  | Rejected e => ret (Rejected e)
  | Resolved resp =>
      let* h := get_heap in
      if _isEmpty h resp then ret (Rejected ModelNotFoundError)
      else
        let* hydrated :=
          match model r with
          | Some m => setData m resp
          | None => ret (Rejected (TypeError "model is undefined"))
          end in
        match hydrated with
        | Rejected e => ret (Rejected e)
        | Resolved m =>
            let* ms := alloc (OArr [m]) in
            let* l := loadRelated this ms in
            match l with
            | Rejected e => ret (Rejected e)
            | Resolved _ => ret (Resolved m)
            end
        end
  end.

(** [_.map(resp, function (data) { return this.newInstance(data) },
    this.model)] over an array, or over nothing for a value without
    elements. *)
Definition hydrate_all (r : Query) (resp : value) : M (outcome) :=
  let* h := get_heap in
  let* items :=
    match array_elems h resp with
    | Some es => ret es
    | None =>
        match resp with
        | VStr (String _ _) => stuck
        | _ => ret (map snd (own_props h resp))
        end
    end in
  let* rs :=
    map_outcomes
      (fun data =>
         match model r with
         | Some m => newInstance m data
         | None => ret (Rejected (TypeError "newInstance is not a function"))
         end) items in
  match rs with
  | inr e => ret (Rejected e)
  | inl vs => let* a := alloc (OArr vs) in ret (Resolved a)
  end.

(** [fetchAll()], with [response] the way
    [this.driver.fetchAll(descriptor)] ends. *)
Definition fetchAll (response : outcome) (this : value) : M outcome :=
  let* r := this_query this in
  let* d := assemble this in
  run emit (Call (driver r) "fetchAll" [d]) in
  match response with
  | Rejected e => ret (Rejected e)
  | Resolved resp =>
      let* models := hydrate_all r resp in
      match models with
      | Rejected e => ret (Rejected e)
      | Resolved ms =>
          let* l := loadRelated this ms in
          match l with
          | Rejected e => ret (Rejected e)
          | Resolved _ => ret (Resolved ms)
          end
      end
  end.

End Fetch.

Definition empty_state : state := mkState [] [].

(** ** query.js: eager-loading declarations and the write calls *)

Definition set_rels (v : value) (q : Query) : Query :=
  mkQuery (_where q) v (_select q) (_order q) (_distinct q) (_offset q)
          (_limit q) (_from q) (driver q) (model q).

(** [with(related)]: the declarations are collected in a new object, which
    then takes the place of [_rels]. A name gets the customization
    [function noop(q) {}]; any other value is spread with [_.extend]. *)
Definition with_ (this : value) (arguments : list value) : M value :=
  let related := arg 0 arguments in
  let* rels := alloc (OObj []) in
  let* h := get_heap in
  let* related := (if negb (_isArray h related) then _toArray arguments
                   else ret related) in
  let* h := get_heap in
  let* values := of_option (array_elems h related) in
  run each values (fun value =>
        match value with
        | VStr name => assign rels name (VFunc "noop")
        | _ => run _extend rels value in ret tt
        end) in
  run update_query this (set_rels rels) in
  ret this.

(** [receiver[name]], read among the enumerable properties of the receiver,
    its own and those of its prototypes; what [Object.prototype] and
    [Function.prototype] provide is not represented. *)
Definition member (h : list object) (receiver : value) (name : string) : value :=
  default VUndefined (get_prop (all_props h receiver) name).

(** The function [Model.prototype[name]] of model.js. *)
Definition Model_prototype (name : string) : value :=
  VFunc ("Model.prototype." +:+ name).

(** How a write call ends: the call on the driver was made, or the calls
    nest deeper than the bound that was given. *)
Inductive completion :=
| Returned
| Deeper.

(** The write calls of the builder and of the model. Each of
    [Query.prototype.insert], [update] and [destroy] calls the method of the
    same name on [this.driver]; when that method is the one of
    [Model.prototype], its body runs, and it calls the builder again. Any
    other receiver is a collaborator the sources do not contain: the call
    is logged. [depth] bounds the nesting of calls. *)
Module Write.

Definition call_method (Model_method : value -> list value -> M completion)
           (name : string) (f receiver : value) (args : list value)
  : M completion :=
  if bool_decide (f = Model_prototype name) then Model_method receiver args
  else
    run emit (Call receiver name args) in
    ret Returned.

(** [insert(data)] is [this.driver.insert(data, this.assemble())]. *)
Definition Query_insert (Model_method : value -> list value -> M completion)
           (this : value) (arguments : list value) : M completion :=
  let* r := this_query this in
  let* h := get_heap in
  let f := member h (driver r) "insert" in
  let* d := assemble this in
  call_method Model_method "insert" f (driver r) [arg 0 arguments; d].

(** [update(data)] is [this.driver.update(data, this.assemble())]. *)
Definition Query_update (Model_method : value -> list value -> M completion)
           (this : value) (arguments : list value) : M completion :=
  let* r := this_query this in
  let* h := get_heap in
  let f := member h (driver r) "update" in
  let* d := assemble this in
  call_method Model_method "update" f (driver r) [arg 0 arguments; d].

(** [destroy()] is [this.driver.destroy(this.assemble())]. *)
Definition Query_destroy (Model_method : value -> list value -> M completion)
           (this : value) (arguments : list value) : M completion :=
  let* r := this_query this in
  let* h := get_heap in
  let f := member h (driver r) "destroy" in
  let* d := assemble this in
  call_method Model_method "destroy" f (driver r) [d].

(** [Model.prototype.insert(cb)] is [this.newQuery().insert(cb)]. *)
Fixpoint Model_insert (depth : nat) (this : value) (arguments : list value)
  : M completion :=
  match depth with
  | 0 => ret Deeper
  | S depth' =>
      let* q := newQuery this in
      Query_insert (Model_insert depth') q [arg 0 arguments]
  end.

(** [Model.prototype.update(cb)] is [this.newQuery().update(cb)]. *)
Fixpoint Model_update (depth : nat) (this : value) (arguments : list value)
  : M completion :=
  match depth with
  | 0 => ret Deeper
  | S depth' =>
      let* q := newQuery this in
      Query_update (Model_update depth') q [arg 0 arguments]
  end.

(** [Model.prototype.destroy(cb)] is [this.newQuery().destroy(cb)]. *)
Fixpoint Model_destroy (depth : nat) (this : value) (arguments : list value)
  : M completion :=
  match depth with
  | 0 => ret Deeper
  | S depth' =>
      let* q := newQuery this in
      Query_destroy (Model_destroy depth') q [arg 0 arguments]
  end.

End Write.

(** ** model.js: the options of a subclass *)

(** [!v] is [false]. *)
Definition truthy (v : value) : bool :=
  match v with
  | VUndefined | VNull | VNum NaN => false
  | VBool b => b
  | VNum (Int z) => negb (z =? 0)%Z
  | VStr s => match s with EmptyString => false | _ => true end
  | VFunc _ | VRef _ => true
  end.

(** [_.each(obj, iteratee)]: the iteratee gets each own enumerable property
    as value and key; for an array these are its elements. Any other value
    with a numeric [length] (a non-empty string, a function, an object with
    such a member) is walked by index, which is not modelled. *)
Definition _each (obj : value) (iteratee : value -> string -> M unit)
  : M unit :=
  match obj with
  | VStr (String _ _) | VFunc _ => stuck
  | _ =>
      let* h := get_heap in
      match member h obj "length" with
      | VNum _ => stuck
      | _ => each (own_props h obj) (fun kv => iteratee kv.2 kv.1)
      end
  end.

Definition mergeAttributes (newVal oldVal : value) : M value :=
  let* o := alloc (OObj []) in
  let* attrs := _extend o oldVal in
  run _each newVal (fun options name =>
        (* normalize object format *)
        if _isFunction options
        then
          let* t := alloc (OObj [("type", options)]) in
          assign attrs name t
        else ret tt) in
  ret attrs.

Definition mergeField (key : string) (newVal oldVal : value) : M value :=
  if String.eqb key "attributes" then mergeAttributes newVal oldVal
  else if String.eqb key "methods" || String.eqb key "statics"
       then ret VUndefined
       else ret newVal.

(** [mergeOptions(parent, child)], the options a subclass made by
    [extend(child)] gets from those of its parent class. *)
Definition mergeOptions (parent child : value) : M value :=
  let* o := alloc (OObj []) in
  let* options := _extend o parent in
  if negb (truthy child) then ret options
  else if negb (truthy parent) then ret child
  else
    (* iterate over child options *)
    run _each child (fun val key =>
          let* h := get_heap in
          let* v := mergeField key val (member h options key) in
          assign options key v) in
    ret options.

(** ** model.js: plugins *)

(** [_.rest(arguments)]: a new sequence without the first element. *)
Definition _rest (arguments : list value) : M value :=
  alloc (OArr (tl arguments)).

(** [arr.unshift(v)] *)
Definition unshift (arr v : value) : M unit :=
  match arr with
  | VRef l =>
      let* o := load l in
      match o with
      | OArr es => store l (OArr (v :: es))
      | _ => stuck
      end
  | _ => stuck
  end.

(** [Model.use(plugin, ...)], with [this] the class. The plugin's function
    is a collaborator outside the sources: its call through [apply] is
    logged. A plugin given as a function would carry the flag [installed]
    as a property of the function, which is not modelled. *)
Definition use (this : value) (arguments : list value) : M value :=
  let plugin := arg 0 arguments in
  match plugin with
  | VRef _ =>
      let* h := get_heap in
      if bool_decide (member h plugin "installed" = VBool true) then ret this
      else
        let* args := _rest arguments in
        (* prepend Model as first argument *)
        run unshift args this in
        let* h := get_heap in
        let install := member h plugin "install" in
        run (if _isFunction install
             then emit (Call install "apply" [VNull; args])
             else if _isFunction plugin
                  then emit (Call plugin "apply" [VNull; args])
                  else ret tt) in
        (* prevent reuse the same plugin next time *)
        run assign plugin "installed" (VBool true) in
        ret this
  | _ => stuck
  end.

(** ** Vocabulary of the statements *)

(** The fields a builder has accumulated for [select] and for [order]. *)
Definition select_fields (h : list object) (l : loc) : option (list value) :=
  match h !! l with
  | Some (OQuery r) => array_elems h (_select r)
  | _ => None
  end.

Definition order_fields (h : list object) (l : loc) : option (list value) :=
  match h !! l with
  | Some (OQuery r) => array_elems h (_order r)
  | _ => None
  end.

(** What [select] and [order] store: [_.uniq(current.concat(args))]. *)
Definition accumulated (cur new : list value) : list value :=
  uniq_elems (cur ++ new).

(** What a call adds, in the words of the specification: the given fields
    that are not present yet, each once, in the order they are given. *)
Fixpoint newly_added (present given : list value) : list value :=
  match given with
  | [] => []
  | x :: given' =>
      if bool_decide (x ∈ present) then newly_added present given'
      else x :: newly_added (present ++ [x]) given'
  end.

(** Observers used in closed examples. *)
Definition selected (q : value) : M (option (list value)) :=
  let* h := get_heap in
  ret (match q with VRef l => select_fields h l | _ => None end).

Definition result_of {A} (m : M A) (st : state) : option A :=
  fst <$> m st.

Definition state_after {A} (m : M A) (st : state) : state :=
  match m st with Some (_, st') => st' | None => st end.

(** A builder made by [new Query(undefined)] in the empty heap sits at
    location 4. *)
Definition fresh_builder : state :=
  Eval vm_compute in state_after (Query_new [VUndefined]) empty_state.

(** A driver object at location 0, a builder made for it at location 5 and
    an empty sequence, as a driver may resolve to, at location 6. *)
Definition driven_builder : state :=
  Eval vm_compute in
    state_after
      (let* drv := alloc (OObj []) in
       let* q := Query_new [drv] in
       alloc (OArr [])) empty_state.

(** A value stored in a descriptor: a primitive, or a copy allocated after
    location [n] and before [n']. *)
Definition copied_between (n n' : nat) (v : value) : Prop :=
  match v with
  | VRef x => n < x < n'
  | VFunc _ => False
  | _ => True
  end.

(** A value the heap has an object for, or no reference at all. *)
Definition live (h : list object) (v : value) : Prop :=
  match v with VRef x => x < length h | _ => True end.

(** A constraint call on a builder, and a run of such calls. *)
Inductive constraint :=
| CWhere (arguments : list value)
| CWhereIn (arguments : list value)
| COrWhere (arguments : list value)
| CSelect (arguments : list value)
| COrder (arguments : list value)
| CFrom (arguments : list value)
| CTake (arguments : list value)
| CSkip (arguments : list value)
| CDistinct.

Definition constrain (this : value) (c : constraint) : M value :=
  match c with
  | CWhere a => where_ this a
  | CWhereIn a => whereIn this a
  | COrWhere a => orWhere this a
  | CSelect a => select this a
  | COrder a => order this a
  | CFrom a => from this a
  | CTake a => take this a
  | CSkip a => skip this a
  | CDistinct => distinct this
  end.

Fixpoint constrain_all (this : value) (cs : list constraint) : M unit :=
  match cs with
  | [] => ret tt
  | c :: cs' => run constrain this c in constrain_all this cs'
  end.

(** What a descriptor says: its entries, and for an entry that refers to
    an object, that object. *)
Definition entry_view (h : list object) (v : value) : value * option object :=
  (v, match v with VRef x => h !! x | _ => None end).

Definition descriptor_view (h : list object) (d : value)
  : option (list (string * (value * option object))) :=
  match d with
  | VRef x =>
      match h !! x with
      | Some (OObj ps) => Some (map (fun kv => (kv.1, entry_view h kv.2)) ps)
      | _ => None
      end
  | _ => None
  end.

(** A builder as the constructor leaves it and the methods keep it: the
    instance at [l], with the condition tree at [w]. *)
Definition builder_at (l w : loc) (h : list object) : Prop :=
  exists r ps,
    h !! l = Some (OQuery r) /\ _where r = VRef w /\ h !! w = Some (OObj ps).

(** [st'] has every object of [st], unchanged, and the same log of
    calls. *)
Definition grows (st st' : state) : Prop :=
  length (heap st) <= length (heap st') /\
  (forall x, x < length (heap st) -> heap st' !! x = heap st !! x) /\
  calls st' = calls st.

(** [st'] has every object of [st], unchanged but for those at [l] and
    [w]. *)
Definition touches (l w : loc) (st st' : state) : Prop :=
  length (heap st) <= length (heap st') /\
  forall x, x < length (heap st) -> x <> l -> x <> w ->
            heap st' !! x = heap st !! x.

Definition growing {A} (m : M A) : Prop :=
  forall st a st', m st = Some (a, st') -> grows st st'.

Definition keeps_builder (l w : loc) {A} (m : M A) : Prop :=
  forall st a st',
    builder_at l w (heap st) -> m st = Some (a, st') ->
    touches l w st st' /\ builder_at l w (heap st').

(** The condition tree a builder has accumulated. *)
Definition where_tree (h : list object) (l : loc) : option props :=
  match h !! l with
  | Some (OQuery r) =>
      match _where r with
      | VRef w => match h !! w with Some (OObj ps) => Some ps | _ => None end
      | _ => None
      end
  | _ => None
  end.

(** A parent with identifier 1 and a second one with identifier 2, a pivot
    entity, a related entity, the identifiers [4, 5] and the two parents as
    sequences, and a relation between them whose own builder, made by the
    related entity, sits at location 10. *)
Module Example.

Definition parent_model : Model :=
  mkModel (VStr "id") [("id", VNum (Int 1)); ("name", VStr "ann")]
          (VStr "driver") [].

Definition parent_model2 : Model :=
  mkModel (VStr "id") [("id", VNum (Int 2))] (VStr "driver") [].

Definition pivot_model : Model := mkModel (VStr "id") [] (VStr "driver") [].

Definition related_model : Model := mkModel (VStr "id") [] (VStr "driver") [].

Definition models : state :=
  mkState [OModel parent_model; OModel pivot_model; OModel related_model;
           OArr [VNum (Int 4); VNum (Int 5)]; OModel parent_model2;
           OArr [VRef 0; VRef 4]] [].

Definition start : state :=
  Eval vm_compute in state_after (newQuery (VRef 2)) models.

Definition relation : BelongsToMany.t :=
  BelongsToMany.mk (VRef 0) (VRef 2) (VRef 10) (VRef 1)
                   (VStr "user_id") (VStr "role_id").

End Example.

(** The entities a dictionary lists under a key. *)
Fixpoint members (groups : list (string * list ManyToMany.entity))
         (k : string) : list ManyToMany.entity :=
  match groups with
  | [] => []
  | (k', es) :: groups' => if String.eqb k' k then es else members groups' k
  end.

(** The key an entity is grouped under. *)
Definition pivot_key (key : value) (model : ManyToMany.entity) : option string :=
  v ← ManyToMany.pivot_get model key; property_key v.

(** The three entities of the specification's example. *)
Definition entity1 : ManyToMany.entity :=
  ManyToMany.mkEntity [("id", VNum (Int 10))] (Some [("k", VNum (Int 1))]).
Definition entity2 : ManyToMany.entity :=
  ManyToMany.mkEntity [("id", VNum (Int 11))] (Some [("k", VNum (Int 1))]).
Definition entity3 : ManyToMany.entity :=
  ManyToMany.mkEntity [("id", VNum (Int 12))] (Some [("k", VNum (Int 2))]).

(** A builder with a selected field, a disjunction and a source, and the
    constraint calls made on it after its descriptor was assembled. *)
Module Snapshot.

Definition built : state :=
  Eval vm_compute in
    state_after
      (let* clause := alloc (OObj [("a", VNum (Int 1))]) in
       let* ids := alloc (OArr [VNum (Int 1); VNum (Int 2)]) in
       run select (VRef 4) [VStr "a"] in
       run orWhere (VRef 4) [clause] in
       from (VRef 4) [VStr "users"]) fresh_builder.

Definition assembled : state :=
  Eval vm_compute in state_after (assemble (VRef 4)) built.

Definition calls_after : list constraint :=
  [CWhere [VRef 5]; CWhereIn [VStr "x"; VRef 6]; COrWhere [VRef 5; VRef 5];
   CSelect [VStr "b"]; COrder [VStr "c"]; CFrom [VStr "t"];
   CTake [VNum (Int 10)]; CSkip [VStr "5"]; CDistinct].

Definition constrained : state :=
  Eval vm_compute in
    state_after (constrain_all (VRef 4) calls_after) assembled.

End Snapshot.

(** The instance [new Query(driver)] makes when the heap has [n] objects. *)
Definition fresh_query (n : nat) (drv : value) : Query :=
  mkQuery (VRef n) (VRef (S n)) (VRef (S (S n))) (VRef (S (S (S n))))
          (VBool false) VUndefined VUndefined VUndefined drv None.

(** [_.extend(target, source)] on the properties: every entry of the
    source is written onto the target, in order. *)
Definition merge_props (target source : props) : props :=
  fold_left (fun acc kv => set_prop acc kv.1 kv.2) source target.


(** A builder whose condition tree is [{a: 1, b: 2}], written by
    [where(map)] with the map at location 5, and a second map [{a: 3}] at
    location 7. *)
Module Conditions.

Definition written : state :=
  Eval vm_compute in
    state_after
      (let* m := alloc (OObj [("a", VNum (Int 1)); ("b", VNum (Int 2))]) in
       run where_ (VRef 4) [m] in
       alloc (OObj [("a", VNum (Int 3))])) fresh_builder.

End Conditions.

(** The builder of [Conditions.written], a second builder made after it,
    which sits at location 12, and a run of constraint calls made on the
    one or on the other. *)
Module Pair.

Definition made : state :=
  Eval vm_compute in state_after (Query_new [VStr "d"]) Conditions.written.

Definition calls_made : list constraint :=
  [CWhere [VRef 7]; CSelect [VStr "x"]; COrder [VStr "y"]; CFrom [VStr "t"];
   CTake [VNum (Int 3)]; CSkip [VNum (Int 1)]; CDistinct].

Definition first_constrained : state :=
  Eval vm_compute in state_after (constrain_all (VRef 4) calls_made) made.

Definition second_constrained : state :=
  Eval vm_compute in state_after (constrain_all (VRef 12) calls_made) made.

End Pair.

(** The attribute definitions [mergeAttributes] returns, read in the heap
    [h]: an attribute the subclass declares by its type constructor has the
    normalized definition [{type: constructor}], held by an object
    allocated after location [n]; every other attribute is as in a copy of
    what the parent class has. *)
Definition attrs_merged (n : nat) (h : list object)
           (declared inherited attrs : props) : Prop :=
  forall name,
    match get_prop declared name with
    | Some (VFunc f) =>
        exists t, get_prop attrs name = Some (VRef t) /\ n < t /\
                  h !! t = Some (OObj [("type", VFunc f)])
    | _ => get_prop attrs name = get_prop (merge_props [] inherited) name
    end.

(** An object [_.each] walks by key: it has no numeric [length]. *)
Definition walked_by_key (ps : props) : Prop :=
  forall n, get_prop ps "length" <> Some (VNum n).

(** What [mergeOptions] stores under a key the subclass gives the value
    [val]: for [attributes] the object [mergeAttributes] makes of the
    declared attributes and those of the parent class, allocated after the
    objects of [h]; for [methods] and [statics] the value [undefined]; for
    any other key the value given. *)
Definition option_merged (h h' : list object) (parent : props)
           (key : string) (val : value) (merged : option value) : Prop :=
  if String.eqb key "attributes"
  then
    exists a declared t attrs,
      val = VRef a /\ h !! a = Some (OObj declared) /\
      merged = Some (VRef t) /\ length h < t /\
      h' !! t = Some (OObj attrs) /\
      attrs_merged t h' declared
        (all_props h (default VUndefined (get_prop parent "attributes")))
        attrs
  else if String.eqb key "methods" || String.eqb key "statics"
       then merged = Some VUndefined
       else merged = Some val.

(** The options of a parent class at location 4, with one attribute in
    normalized form, and the options a subclass is made with at location 8:
    an attribute given by its type constructor, one given by a definition
    object, a method and a source. *)
Module Options.

Definition parent_options : props :=
  [("pk", VStr "id"); ("methods", VRef 2); ("statics", VRef 3);
   ("attributes", VRef 1); ("source", VUndefined)].

Definition declared_attributes : props :=
  [("age", VFunc "Number"); ("score", VRef 5)].

Definition child_options : props :=
  [("source", VStr "users"); ("methods", VRef 7); ("attributes", VRef 6)].

Definition classes : state :=
  mkState
    [OObj [("type", VFunc "String")];
     OObj [("name", VRef 0)];
     OObj [];
     OObj [];
     OObj parent_options;
     OObj [("type", VFunc "Number"); ("default", VNum (Int 0))];
     OObj declared_attributes;
     OObj [("greet", VFunc "greet")];
     OObj child_options]
    [].

End Options.

(** The names of the write calls. *)
Definition write_calls : list string := ["insert"; "update"; "destroy"].

(** A model instance whose write methods are those of [Model.prototype],
    as they are for a class that does not redefine them, at location 0. *)
Module Stored.

Definition instance : Model :=
  mkModel (VStr "id") [("id", VNum (Int 7))] (VStr "driver")
          (map (fun name => (name, Model_prototype name)) write_calls).

Definition models : state := mkState [OModel instance] [].

End Stored.

(** A builder at location 5 with the model at location 7 set, a record as
    a driver may resolve [fetch] to at location 8, and a sequence holding
    it, as for [fetchAll], at location 9. *)
Module Fetched.

Definition found : state :=
  Eval vm_compute in
    state_after
      (let* m := alloc (OModel (mkModel (VStr "id") [] (VStr "driver") [])) in
       run setModel (VRef 5) [m] in
       let* record := alloc (OObj [("id", VNum (Int 1))]) in
       alloc (OArr [record])) driven_builder.

(** An entity type that takes every record. *)
Definition setData (model resp : value) : M outcome := ret (Resolved model).

Definition newInstance (model data : value) : M outcome := ret (Resolved data).

End Fetched.

(** A computation that, run on the builder at [l], keeps it a builder,
    changes no other object but its condition tree, and leaves it the
    sequences it has for [select] and for [order]. *)
Definition keeps_fields (l w : loc) {A} (m : M A) : Prop :=
  forall st a st' r,
    builder_at l w (heap st) -> heap st !! l = Some (OQuery r) ->
    m st = Some (a, st') ->
    touches l w st st' /\ builder_at l w (heap st') /\
    exists r', heap st' !! l = Some (OQuery r') /\
               _select r' = _select r /\ _order r' = _order r.

(** A plugin with an [install] function at location 0. *)
Module Plugin.

Definition registry : state :=
  mkState [OObj [("install", VFunc "install"); ("name", VStr "timestamps")]]
          [].

End Plugin.

(** * Properties *)

(** ** Running the monad *)

Lemma bind_Some {A B} (m : M A) (k : A -> M B) st b st' :
  bind m k st = Some (b, st') ->
  exists a st1, m st = Some (a, st1) /\ k a st1 = Some (b, st').
Proof.
  unfold bind. destruct (m st) as [[a st1]|] eqn:E; [|discriminate].
  intros H. exists a, st1. split; [reflexivity | exact H].
Qed.

Lemma bind_run {A B} (m : M A) (k : A -> M B) st a st1 :
  m st = Some (a, st1) -> bind m k st = k a st1.
Proof. unfold bind. intros ->. reflexivity. Qed.

Lemma bind_assoc {A B C} (m : M A) (k : A -> M B) (k' : B -> M C) st :
  bind (bind m k) k' st = bind m (fun a => bind (k a) k') st.
Proof. unfold bind. destruct (m st) as [[a s]|]; reflexivity. Qed.

Lemma ret_Some {A} (a b : A) st st' :
  ret a st = Some (b, st') -> b = a /\ st' = st.
Proof. unfold ret. intros [= -> ->]. split; reflexivity. Qed.

Lemma get_heap_Some h st st' :
  get_heap st = Some (h, st') -> h = heap st /\ st' = st.
Proof. unfold get_heap. intros [= <- <-]. split; reflexivity. Qed.

Lemma of_option_Some {A} (o : option A) a st st' :
  of_option o st = Some (a, st') -> o = Some a /\ st' = st.
Proof.
  destruct o; simpl; [|discriminate].
  intros [-> ->]%ret_Some. split; reflexivity.
Qed.

Lemma alloc_Some o v st st' :
  alloc o st = Some (v, st') ->
  v = VRef (length (heap st)) /\
  st' = mkState (heap st ++ [o]) (calls st).
Proof. unfold alloc. intros [= <- <-]. split; reflexivity. Qed.

Lemma load_Some l o st st' :
  load l st = Some (o, st') -> heap st !! l = Some o /\ st' = st.
Proof.
  unfold load. destruct (heap st !! l); [|discriminate].
  intros [= -> ->]. split; reflexivity.
Qed.


Lemma this_query_Some this r st st' :
  this_query this st = Some (r, st') ->
  exists l, this = VRef l /\ heap st !! l = Some (OQuery r) /\ st' = st.
Proof.
  destruct this; try discriminate. simpl.
  intros (o & s1 & [Hl ->]%load_Some & H)%bind_Some.
  destruct o; try discriminate.
  apply ret_Some in H as [-> ->]. eauto.
Qed.

Lemma this_query_run l r st :
  heap st !! l = Some (OQuery r) -> this_query (VRef l) st = Some (r, st).
Proof. intros H. unfold this_query, bind, load. rewrite H. reflexivity. Qed.


Lemma update_query_run l r f st :
  heap st !! l = Some (OQuery r) ->
  update_query (VRef l) f st =
    Some (tt, mkState (<[l:=OQuery (f r)]> (heap st)) (calls st)).
Proof.
  intros H. unfold update_query, bind, load, store.
  rewrite H. simpl. rewrite H. reflexivity.
Qed.

(** Decompose a successful run one bind at a time. *)
Ltac run_inv H :=
  repeat match type of H with
  | bind _ _ _ = Some _ =>
      let a := fresh "a" in
      let s := fresh "s" in
      let E := fresh "E" in
      apply bind_Some in H as (a & s & E & H)
  end.

(** ** Reading through a grown heap *)

Lemma lookup_grown (h ext : list object) l o :
  h !! l = Some o -> (h ++ ext) !! l = Some o.
Proof.
  intros H. rewrite lookup_app_l; [exact H|].
  eapply lookup_lt_Some; eassumption.
Qed.

Lemma lookup_fresh (h : list object) o : (h ++ [o]) !! length h = Some o.
Proof. rewrite lookup_app_r, Nat.sub_diag; [reflexivity | lia]. Qed.

(** ** [where] called with a field name *)

Lemma extend_with_empty target o st :
  heap st !! o = Some (OObj []) ->
  _extend target (VRef o) st = Some (target, st).
Proof.
  intros H. unfold _extend.
  destruct target; try reflexivity;
    unfold bind, get_heap; simpl; rewrite H; reflexivity.
Qed.

Lemma where_case1_string f st :
  where_case1 (VStr f) st =
    Some (VRef (length (heap st)), mkState (heap st ++ [OObj []]) (calls st)).
Proof. reflexivity. Qed.

Lemma where_tail_string (l : loc) r f (st : state) :
  heap st !! l = Some (OQuery r) ->
  (let* cond := where_case1 (VStr f) in
   let* r := this_query (VRef l) in
   run _extend (_where r) cond in
   ret (VRef l)) st
  = Some (VRef l, mkState (heap st ++ [OObj []]) (calls st)).
Proof.
  intros Hl.
  rewrite (bind_run _ _ _ _ _ (where_case1_string f st)).
  erewrite bind_run; [|apply this_query_run; simpl; apply lookup_grown, Hl].
  erewrite bind_run; [reflexivity|].
  apply extend_with_empty. simpl. apply lookup_fresh.
Qed.

Lemma instanceof_Query_alloc_obj h ps v :
  instanceof_Query (h ++ [OObj ps]) v = instanceof_Query h v.
Proof.
  destruct v as [| | | | | |x]; try reflexivity. simpl.
  destruct (decide (x < length h)) as [Hx|Hx].
  - rewrite lookup_app_l by exact Hx. reflexivity.
  - rewrite lookup_app_r by lia.
    replace (h !! x) with (@None object) by (symmetry; apply lookup_ge_None; lia).
    destruct (x - length h) as [|n]; reflexivity.
Qed.

Lemma where_case3_plain f op v st :
  instanceof_Query (heap st) v = false ->
  exists garbage v',
    where_case3 (VStr f) (VStr op) v st
    = Some (v', mkState (heap st ++ garbage) (calls st)).
Proof.
  intros Hq. unfold where_case3.
  rewrite (bind_run _ _ _ _ _ eq_refl). simpl heap. rewrite Hq.
  rewrite (bind_run _ _ _ _ _ eq_refl).
  unfold _object. destruct (_isObject v) eqn:Hv.
  - rewrite (bind_run _ _ _ _ _ eq_refl), Hv.
    exists [], v. rewrite app_nil_r. destruct st; reflexivity.
  - exists [OObj [(op, v)]], (VRef (length (heap st))). reflexivity.
Qed.

Lemma where_field_2 l r f v st :
  heap st !! l = Some (OQuery r) ->
  instanceof_Query (heap st) v = false ->
  exists garbage,
    where_ (VRef l) [VStr f; v] st
    = Some (VRef l, mkState (heap st ++ garbage) (calls st)).
Proof.
  intros Hl Hq. unfold where_. simpl length. cbv beta iota.
  unfold arg; simpl nth.
  rewrite (bind_run _ _ _ _ _ eq_refl).
  rewrite bind_assoc, (bind_run _ _ _ _ _ eq_refl), bind_assoc.
  simpl heap.
  destruct (where_case3_plain f
              (match _isArray (heap st ++ [OObj []]) v with
               | true => "$in" | false => "$eq" end) v
              (mkState (heap st ++ [OObj []]) (calls st)))
    as (g & v' & E).
  { simpl. rewrite instanceof_Query_alloc_obj. exact Hq. }
  replace (if _isArray (heap st ++ [OObj []]) v then VStr "$in" else VStr "$eq")
    with (VStr (if _isArray (heap st ++ [OObj []]) v then "$in" else "$eq"))
    by (destruct (_isArray _ _); reflexivity).
  rewrite (bind_run _ _ _ _ _ E).
  erewrite where_tail_string.
  - simpl. eexists. rewrite <- !app_assoc. reflexivity.
  - simpl. rewrite <- app_assoc. apply lookup_grown, Hl.
Qed.

Lemma where_field_3 l r f op v st :
  heap st !! l = Some (OQuery r) ->
  instanceof_Query (heap st) v = false ->
  exists garbage,
    where_ (VRef l) [VStr f; VStr op; v] st
    = Some (VRef l, mkState (heap st ++ garbage) (calls st)).
Proof.
  intros Hl Hq. unfold where_. simpl length. cbv beta iota.
  unfold arg; simpl nth.
  rewrite (bind_run _ _ _ _ _ eq_refl), bind_assoc.
  destruct (where_case3_plain f op v
              (mkState (heap st ++ [OObj []]) (calls st)))
    as (g & v' & E).
  { simpl. rewrite instanceof_Query_alloc_obj. exact Hq. }
  rewrite (bind_run _ _ _ _ _ E).
  erewrite where_tail_string.
  - simpl. eexists. rewrite <- !app_assoc. reflexivity.
  - simpl. rewrite <- app_assoc. apply lookup_grown, Hl.
Qed.

Lemma where_sequence_eq this f vs st :
  _isArray (heap st) vs = true ->
  where_ this [VStr f; vs] st = where_ this [VStr f; VStr "$in"; vs] st.
Proof.
  intros Harr. unfold where_. simpl length. cbv beta iota.
  unfold arg; simpl nth.
  rewrite !(bind_run _ _ _ _ _ eq_refl).
  rewrite bind_assoc, (bind_run _ _ _ _ _ eq_refl).
  simpl heap.
  replace (_isArray (heap st ++ [OObj []]) vs) with true; [reflexivity|].
  unfold _isArray, array_elems in *. destruct vs as [| | | | | |x]; try discriminate.
  destruct (heap st !! x) eqn:E; [|discriminate].
  erewrite lookup_grown by eassumption. exact (eq_sym Harr).
Qed.

(** C10. With a sequence as the value, the two-argument call and the call
    with an explicit ["$in"] both return and leave the same state, hence
    the same condition tree. *)
Theorem where_sequence_same_as_in l r f vs st :
  heap st !! l = Some (OQuery r) ->
  _isArray (heap st) vs = true ->
  exists st',
    where_ (VRef l) [VStr f; vs] st = Some (VRef l, st') /\
    where_ (VRef l) [VStr f; VStr "$in"; vs] st = Some (VRef l, st').
Proof.
  intros Hl Harr.
  destruct (where_field_2 l r f vs st Hl) as [garbage E].
  { unfold _isArray, array_elems in Harr.
    destruct vs as [| | | | | |x]; try reflexivity. simpl.
    destruct (heap st !! x) as [[| | |]|]; try reflexivity; discriminate. }
  eexists. split; [exact E|].
  rewrite <- (where_sequence_eq _ _ _ _ Harr). exact E.
Qed.

Lemma where_sequence_same_as_in_witness :
  exists st',
    where_ (VRef 4) [VStr "x"; VRef 6] Snapshot.built = Some (VRef 4, st') /\
    where_ (VRef 4) [VStr "x"; VStr "$in"; VRef 6] Snapshot.built
    = Some (VRef 4, st').
Proof.
  exact (where_sequence_same_as_in 4 _ "x" (VRef 6) Snapshot.built
           eq_refl eq_refl).
Defined.

(** ** The builder a model hands out *)

Lemma this_model_run l m st :
  heap st !! l = Some (OModel m) -> this_model (VRef l) st = Some (m, st).
Proof. intros H. unfold this_model, bind, load. rewrite H. reflexivity. Qed.

Lemma Query_new_run arguments st :
  let h := heap st in
  let q := mkQuery (VRef (length h)) (VRef (S (length h)))
                   (VRef (S (S (length h)))) (VRef (S (S (S (length h)))))
                   (VBool false) VUndefined VUndefined VUndefined
                   (arg 0 arguments) None in
  Query_new arguments st
  = Some (VRef (S (S (S (S (length h))))),
          mkState (h ++ [OObj []; OObj []; OArr []; OArr []; OQuery q])
                  (calls st)).
Proof.
  unfold Query_new, bind, alloc. simpl.
  rewrite !length_app. simpl.
  replace (length (heap st) + 1) with (S (length (heap st))) by lia.
  replace (S (length (heap st)) + 1) with (S (S (length (heap st)))) by lia.
  replace (S (S (length (heap st))) + 1) with (S (S (S (length (heap st))))) by lia.
  replace (S (S (S (length (heap st)))) + 1)
    with (S (S (S (S (length (heap st)))))) by lia.
  rewrite <- !app_assoc. reflexivity.
Qed.


(** C5. [m.newQuery()] yields a builder whose [driver] is [m] itself,
    whatever driver the class of [m] holds, and that has no [model]; a later
    [setModel(x)] gives it the model [x] and leaves [driver] as it was. *)
Theorem newQuery_driver_is_the_model m mo st :
  heap st !! m = Some (OModel mo) ->
  exists q st' r,
    newQuery (VRef m) st = Some (VRef q, st') /\
    heap st' !! q = Some (OQuery r) /\
    driver r = VRef m /\
    model r = None /\
    forall x, exists st'' r',
      setModel (VRef q) [x] st' = Some (VRef q, st'') /\
      heap st'' !! q = Some (OQuery r') /\
      model r' = Some x /\
      driver r' = VRef m.
Proof.
  intros Hm. unfold newQuery.
  rewrite (bind_run _ _ _ _ _ (this_model_run _ _ _ Hm)).
  rewrite Query_new_run. cbv zeta.
  eexists _, _, _. split; [reflexivity|].
  assert (Hq : forall q0,
             (heap st ++ [OObj []; OObj []; OArr []; OArr []; OQuery q0])
               !! S (S (S (S (length (heap st))))) = Some (OQuery q0)).
  { intros q0. rewrite lookup_app_r by lia.
    replace (S (S (S (S (length (heap st))))) - length (heap st)) with 4 by lia.
    reflexivity. }
  split; [apply Hq|]. split; [reflexivity|]. split; [reflexivity|].
  intros x. unfold setModel.
  eexists _, _. split.
  - erewrite bind_run; [reflexivity|].
    apply update_query_run. apply Hq.
  - simpl. split.
    + apply (list_lookup_insert_eq (heap st ++ _)).
      rewrite length_app. simpl. lia.
    + split; reflexivity.
Qed.

Lemma newQuery_driver_is_the_model_witness :
  exists q st' r,
    newQuery (VRef 0) Example.models = Some (VRef q, st') /\
    heap st' !! q = Some (OQuery r) /\
    driver r = VRef 0 /\
    model r = None /\
    forall x, exists st'' r',
      setModel (VRef q) [x] st' = Some (VRef q, st'') /\
      heap st'' !! q = Some (OQuery r') /\
      model r' = Some x /\
      driver r' = VRef 0.
Proof.
  exact (newQuery_driver_is_the_model 0 Example.parent_model Example.models
           eq_refl).
Defined.

(** ** [select] and [order] accumulate *)

Lemma uniq_from_newly_added es : forall acc,
  fold_left uniq_step es acc = acc ++ newly_added acc es.
Proof.
  induction es as [|x es IH]; intros acc; simpl.
  - rewrite app_nil_r. reflexivity.
  - unfold uniq_step at 2. destruct (bool_decide (x ∈ acc)).
    + apply IH.
    + rewrite IH, <- app_assoc. reflexivity.
Qed.

Lemma newly_added_fresh es : forall acc,
  NoDup es -> (forall x, x ∈ es -> x ∉ acc) -> newly_added acc es = es.
Proof.
  induction es as [|x es IH]; intros acc Hnd Hdisj; simpl; [reflexivity|].
  apply list.NoDup_cons in Hnd as [Hx Hnd].
  rewrite bool_decide_eq_false_2 by (apply Hdisj; left).
  f_equal. apply IH; [exact Hnd|].
  intros y Hy [Hin|Hin]%elem_of_app.
  - eapply Hdisj; [right; exact Hy | exact Hin].
  - apply list_elem_of_singleton in Hin. subst y. contradiction.
Qed.

Lemma newly_added_NoDup es : forall acc,
  NoDup acc -> NoDup (acc ++ newly_added acc es).
Proof.
  induction es as [|x es IH]; intros acc Hnd; simpl.
  - rewrite app_nil_r. exact Hnd.
  - destruct (bool_decide (x ∈ acc)) eqn:E.
    + apply IH, Hnd.
    + apply bool_decide_eq_false in E.
      replace (acc ++ x :: newly_added (acc ++ [x]) es)
        with ((acc ++ [x]) ++ newly_added (acc ++ [x]) es)
        by (rewrite <- app_assoc; reflexivity).
      apply IH. apply list.NoDup_app. split; [exact Hnd|]. split.
      * intros y Hy Hy'. apply list_elem_of_singleton in Hy'. subst y.
        contradiction.
      * apply NoDup_singleton.
Qed.

Lemma newly_added_elem es : forall acc x,
  x ∈ acc ++ newly_added acc es <-> x ∈ acc \/ x ∈ es.
Proof.
  induction es as [|y es IH]; intros acc x; simpl.
  - rewrite app_nil_r. split; [auto|]. intros [H|H]; [exact H|].
    inversion H.
  - destruct (bool_decide (y ∈ acc)) eqn:E.
    + apply bool_decide_eq_true in E. rewrite IH. split.
      * intros [H|H]; [left; exact H | right; right; exact H].
      * intros [H|H]; [left; exact H|].
        apply elem_of_cons in H as [->|H]; [left; exact E | right; exact H].
    + replace (acc ++ y :: newly_added (acc ++ [y]) es)
        with ((acc ++ [y]) ++ newly_added (acc ++ [y]) es)
        by (rewrite <- app_assoc; reflexivity).
      rewrite IH, elem_of_app, list_elem_of_singleton, elem_of_cons.
      tauto.
Qed.

Lemma accumulated_NoDup cur new : NoDup (accumulated cur new).
Proof.
  unfold accumulated, uniq_elems.
  rewrite uniq_from_newly_added. apply newly_added_NoDup. constructor.
Qed.

Lemma accumulated_elem cur new x :
  x ∈ accumulated cur new <-> x ∈ cur \/ x ∈ new.
Proof.
  unfold accumulated, uniq_elems.
  rewrite uniq_from_newly_added, newly_added_elem, elem_of_app.
  split; [intros [H|H]; [inversion H | exact H] | auto].
Qed.

Lemma accumulated_adds cur new :
  NoDup cur -> accumulated cur new = cur ++ newly_added cur new.
Proof.
  intros Hnd. unfold accumulated, uniq_elems.
  rewrite fold_left_app, (uniq_from_newly_added cur []).
  rewrite newly_added_fresh; [|exact Hnd|intros x _ H; inversion H].
  simpl. apply uniq_from_newly_added.
Qed.

Lemma array_elems_grown h ext v es :
  array_elems h v = Some es -> array_elems (h ++ ext) v = Some es.
Proof.
  destruct v as [| | | | | |x]; try discriminate. simpl.
  destruct (h !! x) as [o|] eqn:E; [|discriminate].
  rewrite (lookup_grown _ _ _ _ E). trivial.
Qed.

Lemma array_elems_fresh h es : array_elems (h ++ [OArr es]) (VRef (length h)) = Some es.
Proof. simpl. rewrite lookup_fresh. reflexivity. Qed.

Lemma select_fields_Some h l cur :
  select_fields h l = Some cur ->
  exists r, h !! l = Some (OQuery r) /\ array_elems h (_select r) = Some cur.
Proof.
  unfold select_fields. destruct (h !! l) as [[| |r|]|]; try discriminate.
  eauto.
Qed.

Lemma order_fields_Some h l cur :
  order_fields h l = Some cur ->
  exists r, h !! l = Some (OQuery r) /\ array_elems h (_order r) = Some cur.
Proof.
  unfold order_fields. destruct (h !! l) as [[| |r|]|]; try discriminate.
  eauto.
Qed.

Lemma concat_run v other es es' st :
  array_elems (heap st) v = Some es ->
  array_elems (heap st) other = Some es' ->
  concat v other st
  = Some (VRef (length (heap st)),
          mkState (heap st ++ [OArr (es ++ es')]) (calls st)).
Proof.
  intros H H'. unfold concat.
  rewrite (bind_run _ _ _ _ _ eq_refl), H, (bind_run _ _ _ _ _ eq_refl).
  rewrite H', (bind_run _ _ _ _ _ eq_refl). reflexivity.
Qed.

Lemma uniq_run v es st :
  array_elems (heap st) v = Some es ->
  _uniq v st
  = Some (VRef (length (heap st)),
          mkState (heap st ++ [OArr (uniq_elems es)]) (calls st)).
Proof.
  intros H. unfold _uniq.
  rewrite (bind_run _ _ _ _ _ eq_refl), H, (bind_run _ _ _ _ _ eq_refl).
  reflexivity.
Qed.

Lemma slice_run v es st :
  array_elems (heap st) v = Some es ->
  slice v st
  = Some (VRef (length (heap st)), mkState (heap st ++ [OArr es]) (calls st)).
Proof.
  intros H. unfold slice.
  rewrite (bind_run _ _ _ _ _ eq_refl), H, (bind_run _ _ _ _ _ eq_refl).
  reflexivity.
Qed.

(** The common tail of [select] and [order]. *)
Lemma accumulate_tail l r (current given : value)
      (setf : value -> Query -> Query) cur es st :
  heap st !! l = Some (OQuery r) ->
  array_elems (heap st) current = Some cur ->
  array_elems (heap st) given = Some es ->
  (let* all := concat current given in
   let* u := _uniq all in
   run update_query (VRef l) (setf u) in
   ret (VRef l)) st
  = Some (VRef l,
          mkState (<[l:=OQuery (setf (VRef (S (length (heap st)))) r)]>
                     (heap st ++ [OArr (cur ++ es);
                                  OArr (accumulated cur es)]))
                  (calls st)).
Proof.
  intros Hl Hcur Hes.
  rewrite (bind_run _ _ _ _ _ (concat_run _ _ _ _ _ Hcur Hes)).
  erewrite bind_run; [|apply uniq_run; simpl; apply array_elems_fresh].
  simpl. rewrite length_app, Nat.add_1_r, <- app_assoc. simpl.
  erewrite bind_run
    by (apply update_query_run; simpl; apply lookup_grown, Hl).
  reflexivity.
Qed.

Lemma accumulated_lookup (h : list object) l o a b :
  l < length h ->
  (<[l:=o]> (h ++ [a; b])) !! S (length h) = Some b.
Proof.
  intros Hl.
  rewrite list_lookup_insert_ne by lia.
  rewrite lookup_app_r by lia.
  replace (S (length h) - length h) with 1 by lia. reflexivity.
Qed.

Lemma select_run l r cur given es st :
  heap st !! l = Some (OQuery r) ->
  array_elems (heap st) (_select r) = Some cur ->
  array_elems (heap st) given = Some es ->
  exists st',
    (let* all := concat (_select r) given in
     let* u := _uniq all in
     run update_query (VRef l) (set_select u) in
     ret (VRef l)) st = Some (VRef l, st') /\
    select_fields (heap st') l = Some (accumulated cur es).
Proof.
  intros Hl Hcur Hes. eexists. split.
  - apply accumulate_tail; eassumption.
  - pose proof (lookup_lt_Some _ _ _ Hl). unfold select_fields. simpl.
    rewrite list_lookup_insert_eq by (rewrite length_app; simpl; lia).
    simpl. erewrite accumulated_lookup by eassumption. reflexivity.
Qed.

Lemma order_run l r cur given es st :
  heap st !! l = Some (OQuery r) ->
  array_elems (heap st) (_order r) = Some cur ->
  array_elems (heap st) given = Some es ->
  exists st',
    (let* all := concat (_order r) given in
     let* u := _uniq all in
     run update_query (VRef l) (set_order u) in
     ret (VRef l)) st = Some (VRef l, st') /\
    order_fields (heap st') l = Some (accumulated cur es).
Proof.
  intros Hl Hcur Hes. eexists. split.
  - apply accumulate_tail; eassumption.
  - pose proof (lookup_lt_Some _ _ _ Hl). unfold order_fields. simpl.
    rewrite list_lookup_insert_eq by (rewrite length_app; simpl; lia).
    simpl. erewrite accumulated_lookup by eassumption. reflexivity.
Qed.

Lemma first_of_strings_not_array h xs :
  _isArray h (arg 0 (map VStr xs)) = false.
Proof. destruct xs; reflexivity. Qed.

Lemma select_variadic l cur xs st :
  select_fields (heap st) l = Some cur ->
  exists st',
    select (VRef l) (map VStr xs) st = Some (VRef l, st') /\
    select_fields (heap st') l = Some (accumulated cur (map VStr xs)).
Proof.
  intros (r & Hl & Hcur)%select_fields_Some. unfold select.
  rewrite (bind_run _ _ _ _ _ eq_refl), first_of_strings_not_array.
  rewrite (bind_run _ _ _ _ _ eq_refl).
  erewrite bind_run; [|apply this_query_run; simpl; apply lookup_grown, Hl].
  apply (select_run l r cur); simpl.
  - apply lookup_grown, Hl.
  - apply array_elems_grown, Hcur.
  - rewrite lookup_fresh. reflexivity.
Qed.

Lemma select_sequence l cur a es st :
  select_fields (heap st) l = Some cur ->
  heap st !! a = Some (OArr es) ->
  exists st',
    select (VRef l) [VRef a] st = Some (VRef l, st') /\
    select_fields (heap st') l = Some (accumulated cur es).
Proof.
  intros (r & Hl & Hcur)%select_fields_Some Ha. unfold select.
  assert (Hes : array_elems (heap st) (VRef a) = Some es)
    by (simpl; rewrite Ha; reflexivity).
  rewrite (bind_run _ _ _ _ _ eq_refl).
  unfold arg at 1. simpl nth. unfold _isArray. rewrite Hes.
  rewrite (bind_run _ _ _ _ _ eq_refl).
  rewrite (bind_run _ _ _ _ _ (this_query_run _ _ _ Hl)).
  apply (select_run l r cur); assumption.
Qed.

Lemma order_variadic l cur xs st :
  order_fields (heap st) l = Some cur ->
  exists st',
    order (VRef l) (map VStr xs) st = Some (VRef l, st') /\
    order_fields (heap st') l = Some (accumulated cur (map VStr xs)).
Proof.
  intros (r & Hl & Hcur)%order_fields_Some. unfold order.
  rewrite (bind_run _ _ _ _ _ eq_refl), first_of_strings_not_array.
  rewrite (bind_run _ _ _ _ _ eq_refl).
  erewrite bind_run; [|apply this_query_run; simpl; apply lookup_grown, Hl].
  apply (order_run l r cur); simpl.
  - apply lookup_grown, Hl.
  - apply array_elems_grown, Hcur.
  - rewrite lookup_fresh. reflexivity.
Qed.

Lemma order_sequence l cur a es st :
  order_fields (heap st) l = Some cur ->
  heap st !! a = Some (OArr es) ->
  exists st',
    order (VRef l) [VRef a] st = Some (VRef l, st') /\
    order_fields (heap st') l = Some (accumulated cur es).
Proof.
  intros (r & Hl & Hcur)%order_fields_Some Ha. unfold order.
  assert (Hes : array_elems (heap st) (VRef a) = Some es)
    by (simpl; rewrite Ha; reflexivity).
  rewrite (bind_run _ _ _ _ _ eq_refl).
  unfold arg at 1. simpl nth. unfold _isArray. rewrite Hes.
  rewrite (bind_run _ _ _ _ _ eq_refl).
  rewrite (bind_run _ _ _ _ _ (this_query_run _ _ _ Hl)).
  apply (order_run l r cur); assumption.
Qed.

(** C8. [select] and [order] take their fields as variadic strings or as
    one sequence, and store the de-duplicated concatenation of what the
    builder held and what is given: nothing is listed twice, every field
    held or given is listed, and the fields already held stay in front, in
    their order, followed by the new ones in the order given. After
    [select('a')], [select('b', 'a')] leaves ['a', 'b']. *)
Theorem select_order_accumulate l cur ocur xs st :
  select_fields (heap st) l = Some cur ->
  order_fields (heap st) l = Some ocur ->
  (exists st',
      select (VRef l) (map VStr xs) st = Some (VRef l, st') /\
      select_fields (heap st') l = Some (accumulated cur (map VStr xs))) /\
  (forall a, heap st !! a = Some (OArr (map VStr xs)) ->
     exists st',
       select (VRef l) [VRef a] st = Some (VRef l, st') /\
       select_fields (heap st') l = Some (accumulated cur (map VStr xs))) /\
  (exists st',
      order (VRef l) (map VStr xs) st = Some (VRef l, st') /\
      order_fields (heap st') l = Some (accumulated ocur (map VStr xs))) /\
  (forall a, heap st !! a = Some (OArr (map VStr xs)) ->
     exists st',
       order (VRef l) [VRef a] st = Some (VRef l, st') /\
       order_fields (heap st') l = Some (accumulated ocur (map VStr xs))) /\
  (forall held given : list value,
     NoDup (accumulated held given) /\
     (forall x, x ∈ accumulated held given <-> x ∈ held \/ x ∈ given) /\
     (NoDup held ->
      accumulated held given = held ++ newly_added held given)) /\
  result_of (let* q := Query_new [VUndefined] in
             run select q [VStr "a"] in
             run select q [VStr "b"; VStr "a"] in
             selected q) empty_state
  = Some (Some [VStr "a"; VStr "b"]).
Proof.
  intros Hs Ho.
  split; [apply select_variadic, Hs|].
  split; [intros a Ha; eapply select_sequence; eassumption|].
  split; [apply order_variadic, Ho|].
  split; [intros a Ha; eapply order_sequence; eassumption|].
  split; [|vm_compute; reflexivity].
  intros held given.
  split; [apply accumulated_NoDup|].
  split; [apply accumulated_elem | apply accumulated_adds].
Qed.

Lemma select_order_accumulate_witness :
  exists st',
    select (VRef 4) (map VStr ["b"; "a"])
           (state_after (select (VRef 4) [VStr "a"]) fresh_builder)
    = Some (VRef 4, st') /\
    select_fields (heap st') 4
    = Some (accumulated [VStr "a"] (map VStr ["b"; "a"])).
Proof.
  exact (proj1 (select_order_accumulate 4 [VStr "a"] [] ["b"; "a"]
                  (state_after (select (VRef 4) [VStr "a"]) fresh_builder)
                  eq_refl eq_refl)).
Defined.

(** ** Assembling a descriptor *)

Lemma assign_run o ps k v st :
  heap st !! o = Some (OObj ps) ->
  assign (VRef o) k v st
  = Some (tt, mkState (<[o:=OObj (set_prop ps k v)]> (heap st)) (calls st)).
Proof.
  intros H. unfold assign, bind, load, store. rewrite H. simpl. rewrite H.
  reflexivity.
Qed.

Lemma each_assign_run o : forall kvs ps st,
  heap st !! o = Some (OObj ps) ->
  exists ps',
    each kvs (fun kv => assign (VRef o) kv.1 kv.2) st
    = Some (tt, mkState (<[o:=OObj ps']> (heap st)) (calls st)).
Proof.
  induction kvs as [|[k v] kvs IH]; intros ps st H.
  - exists ps. simpl. rewrite list_insert_id by exact H.
    destruct st; reflexivity.
  - cbn [each].
    erewrite bind_run by (exact (assign_run _ _ k v _ H)).
    destruct (IH (set_prop ps k v)
                (mkState (<[o:=OObj (set_prop ps k v)]> (heap st)) (calls st)))
      as [ps' E].
    { simpl. apply list_lookup_insert_eq. eapply lookup_lt_Some, H. }
    exists ps'. rewrite E. simpl. rewrite list_insert_insert_eq. reflexivity.
Qed.

Lemma clone_run v st :
  _isObject v = true ->
  exists o,
    _clone v st
    = Some (VRef (length (heap st)), mkState (heap st ++ [o]) (calls st)).
Proof.
  intros Hv. unfold _clone. rewrite Hv. cbn [negb].
  rewrite (bind_run _ _ _ _ _ eq_refl).
  unfold _isArray. destruct (array_elems (heap st) v) as [es|] eqn:E.
  - exists (OArr es). apply slice_run, E.
  - rewrite (bind_run _ _ _ _ _ eq_refl). unfold _extend.
    rewrite (bind_run _ _ _ _ _ eq_refl).
    destruct (each_assign_run (length (heap st))
                (all_props (heap st ++ [OObj []]) v) []
                (mkState (heap st ++ [OObj []]) (calls st)))
      as [ps' E'].
    { simpl. apply lookup_fresh. }
    exists (OObj ps'). simpl. rewrite (bind_run _ _ _ _ _ E'). simpl.
    replace (length (heap st)) with (length (heap st) + 0) at 2 by lia.
    rewrite insert_app_r. reflexivity.
Qed.

Lemma assemblePieces_run l r dl ps name st :
  heap st !! l = Some (OQuery r) ->
  heap st !! dl = Some (OObj ps) ->
  exists ext ps',
    _assemblePieces (VRef l) (VRef dl) name st
    = Some (tt, mkState (<[dl:=OObj ps']> (heap st ++ ext)) (calls st)) /\
    (ps' = ps \/
     exists v, ps' = set_prop ps name v /\
               copied_between dl (length (heap st ++ ext)) v /\
               _isEmpty (heap st) (Query_get r ("_" +:+ name)) = false).
Proof.
  intros Hl Hd. pose proof (lookup_lt_Some _ _ _ Hd) as Hlt.
  unfold _assemblePieces.
  rewrite (bind_run _ _ _ _ _ (this_query_run _ _ _ Hl)).
  rewrite (bind_run _ _ _ _ _ eq_refl).
  set (prop := Query_get r ("_" +:+ name)).
  destruct (_isEmpty (heap st) prop) eqn:Hempty.
  { exists [], ps. split; [|left; reflexivity].
    rewrite app_nil_r, list_insert_id by exact Hd. destruct st; reflexivity. }
  unfold _isArray. destruct (array_elems (heap st) prop) as [es|] eqn:Harr.
  - (* an array: sliced, then cloned *)
    rewrite (bind_run _ _ _ _ _ (slice_run _ _ _ Harr)). simpl _isObject.
    cbv iota.
    destruct (clone_run (VRef (length (heap st)))
                (mkState (heap st ++ [OArr es]) (calls st)) eq_refl)
      as [o E].
    rewrite (bind_run _ _ _ _ _ E).
    erewrite assign_run
      by (simpl; rewrite <- app_assoc; apply lookup_grown, Hd).
    simpl. eexists [_; _], _. rewrite <- app_assoc. split; [reflexivity|].
    right. eexists. split; [reflexivity|]. split; [|reflexivity].
    simpl. rewrite !length_app. simpl. lia.
  - rewrite (bind_run _ _ _ _ _ eq_refl).
    destruct (_isObject prop) eqn:Hobj.
    + destruct (clone_run prop st Hobj) as [o E].
      rewrite (bind_run _ _ _ _ _ E).
      erewrite assign_run by (simpl; apply lookup_grown, Hd).
      simpl. eexists [_], _. split; [reflexivity|].
      right. eexists. split; [reflexivity|]. split; [|reflexivity].
      simpl. rewrite length_app. simpl. lia.
    + rewrite (bind_run _ _ _ _ _ eq_refl).
      rewrite (assign_run _ _ _ _ _ Hd).
      exists [], (set_prop ps name prop). rewrite app_nil_r.
      split; [reflexivity|].
      right. exists prop. split; [reflexivity|]. split; [|reflexivity].
      destruct prop; try exact I; discriminate.
Qed.

Lemma set_prop_elem ps name v0 k v :
  (k, v) ∈ set_prop ps name v0 -> (k, v) ∈ ps \/ (k = name /\ v = v0).
Proof.
  induction ps as [|[k' v'] ps IH]; simpl.
  - intros H%list_elem_of_singleton. injection H as -> ->. right. auto.
  - destruct (String.eqb k' name) eqn:E.
    + apply String.eqb_eq in E. subst k'.
      intros [H|H]%elem_of_cons.
      * injection H as -> ->. right. auto.
      * left. right. exact H.
    + intros [H|H]%elem_of_cons.
      * left. rewrite H. left.
      * destruct (IH H) as [H'|H']; [left; right; exact H' | right; exact H'].
Qed.

Lemma get_prop_elem ps k v : get_prop ps k = Some v -> (k, v) ∈ ps.
Proof.
  induction ps as [|[k' v'] ps IH]; simpl; [discriminate|].
  destruct (String.eqb k' k) eqn:E.
  - apply String.eqb_eq in E. subst k'. intros [= ->]. left.
  - intros H. right. apply IH, H.
Qed.

Lemma copied_between_mono n n' n'' v :
  n' <= n'' -> copied_between n n' v -> copied_between n n'' v.
Proof. destruct v; simpl; try tauto. lia. Qed.

Lemma each_assemblePieces_run l r dl : forall names ps st,
  heap st !! l = Some (OQuery r) ->
  heap st !! dl = Some (OObj ps) ->
  exists st' ps',
    each names (_assemblePieces (VRef l) (VRef dl)) st = Some (tt, st') /\
    calls st' = calls st /\
    length (heap st) <= length (heap st') /\
    (forall x, x < length (heap st) -> x <> dl ->
               heap st' !! x = heap st !! x) /\
    heap st' !! dl = Some (OObj ps') /\
    (forall k v, (k, v) ∈ ps' ->
       (k, v) ∈ ps \/
       (k ∈ names /\ copied_between dl (length (heap st')) v /\
        exists h, (forall x, x < length (heap st) -> x <> dl ->
                             h !! x = heap st !! x) /\
                  _isEmpty h (Query_get r ("_" +:+ k)) = false)).
Proof.
  induction names as [|name names IH]; intros ps st Hl Hd.
  - exists st, ps. simpl. repeat split; auto.
  - assert (Hne : l <> dl) by (intros ->; congruence).
    pose proof (lookup_lt_Some _ _ _ Hd) as Hlt.
    destruct (assemblePieces_run l r dl ps name st Hl Hd)
      as (ext & ps1 & E1 & Hps1).
    set (s1 := mkState (<[dl:=OObj ps1]> (heap st ++ ext)) (calls st)) in *.
    assert (Hl1 : heap s1 !! l = Some (OQuery r)).
    { simpl. rewrite list_lookup_insert_ne by congruence.
      apply lookup_grown, Hl. }
    assert (Hd1 : heap s1 !! dl = Some (OObj ps1)).
    { simpl. apply list_lookup_insert_eq. rewrite length_app. lia. }
    assert (Hframe1 : forall x, x < length (heap st) -> x <> dl ->
                                heap s1 !! x = heap st !! x).
    { intros x Hx Hxd. simpl. rewrite list_lookup_insert_ne by congruence.
      apply lookup_app_l, Hx. }
    assert (Hlen1 : length (heap st) <= length (heap s1)).
    { simpl. rewrite length_insert, length_app. lia. }
    destruct (IH ps1 s1 Hl1 Hd1)
      as (st' & ps' & E & Hc & Hlen & Hframe & Hd' & Hps').
    exists st', ps'. cbn [each]. rewrite (bind_run _ _ _ _ _ E1).
    split; [exact E|]. split; [exact Hc|]. split; [lia|].
    split.
    { intros x Hx Hxd. rewrite Hframe by (try lia; assumption).
      apply Hframe1; assumption. }
    split; [exact Hd'|].
    intros k v Hkv. destruct (Hps' k v Hkv) as [Hin|(Hk & Hv & h & Hh & He)].
    + destruct Hps1 as [->|(v0 & -> & Hv0 & He0)]; [left; exact Hin|].
      apply set_prop_elem in Hin as [Hin|[-> ->]]; [left; exact Hin|].
      right. split; [left|]. split.
      { eapply copied_between_mono; [|exact Hv0].
        simpl in Hlen. rewrite length_insert in Hlen. exact Hlen. }
      exists (heap st). split; [reflexivity|exact He0].
    + right. split; [right; exact Hk|]. split; [exact Hv|].
      exists h. split; [|exact He].
      intros x Hx Hxd. rewrite Hh by (try lia; assumption).
      apply Hframe1; assumption.
Qed.

Lemma assemble_run l r st :
  heap st !! l = Some (OQuery r) ->
  let n := length (heap st) in
  exists st' ps,
    assemble (VRef l) st = Some (VRef n, st') /\
    calls st' = calls st /\
    n < length (heap st') /\
    (forall x, x < n -> heap st' !! x = heap st !! x) /\
    heap st' !! n = Some (OObj ps) /\
    (forall k v, (k, v) ∈ ps ->
       k ∈ assemble_props /\ copied_between n (length (heap st')) v /\
       exists h, (forall x, x < n -> h !! x = heap st !! x) /\
                 _isEmpty h (Query_get r ("_" +:+ k)) = false).
Proof.
  intros Hl n. subst n. unfold assemble.
  rewrite (bind_run _ _ _ _ _ eq_refl).
  destruct (each_assemblePieces_run l r (length (heap st)) assemble_props []
              (mkState (heap st ++ [OObj []]) (calls st)))
    as (st' & ps & E & Hc & Hlen & Hframe & Hd & Hps).
  { simpl. apply lookup_grown, Hl. }
  { simpl. apply lookup_fresh. }
  exists st', ps. rewrite (bind_run _ _ _ _ _ E).
  simpl in Hlen, Hframe, Hc. rewrite length_app in Hlen, Hframe. simpl in *.
  split; [reflexivity|]. split; [exact Hc|]. split; [lia|].
  split.
  { intros x Hx. rewrite Hframe by lia.
    apply lookup_app_l. exact Hx. }
  split; [exact Hd|].
  intros k v Hkv. destruct (Hps k v Hkv) as [Hin|(Hk & Hv & h & Hh & He)].
  { inversion Hin. }
  split; [exact Hk|]. split; [exact Hv|]. exists h. split; [|exact He].
  intros x Hx. rewrite Hh by (rewrite ?length_app; simpl; lia).
  apply lookup_app_l. exact Hx.
Qed.

Lemma isEmpty_agree h h' v :
  (forall x, v = VRef x -> h' !! x = h !! x) ->
  _isEmpty h' v = _isEmpty h v.
Proof.
  intros H. destruct v as [| | | | | |x]; try reflexivity.
  unfold _isEmpty, array_elems, own_props. rewrite (H x eq_refl).
  reflexivity.
Qed.

(** What [assemble] leaves out, for every builder: a key is present only
    for one of the seven names whose accumulator was not empty. *)
Lemma assemble_omits_empty l r st :
  heap st !! l = Some (OQuery r) ->
  exists st' ps,
    assemble (VRef l) st = Some (VRef (length (heap st)), st') /\
    heap st' !! length (heap st) = Some (OObj ps) /\
    (forall k, get_prop ps k <> None -> k ∈ assemble_props) /\
    (forall k, live (heap st) (Query_get r ("_" +:+ k)) ->
               _isEmpty (heap st) (Query_get r ("_" +:+ k)) = true ->
               get_prop ps k = None).
Proof.
  intros Hl.
  destruct (assemble_run l r st Hl) as (st' & ps & E & _ & _ & _ & Hd & Hps).
  exists st', ps. split; [exact E|]. split; [exact Hd|]. split.
  - intros k Hk. destruct (get_prop ps k) as [v|] eqn:Ek; [|congruence].
    apply get_prop_elem in Ek. apply (Hps k v Ek).
  - intros k Hlive Hempty.
    destruct (get_prop ps k) as [v|] eqn:Ek; [|reflexivity].
    apply get_prop_elem in Ek.
    destruct (Hps k v Ek) as (_ & _ & h & Hh & He).
    rewrite (isEmpty_agree (heap st) h) in He; [congruence|].
    intros x Hx. apply Hh. rewrite Hx in Hlive. exact Hlive.
Qed.

(** C3. On the code, after [take(n)], [skip(m)] and [distinct()] the
    builder holds the two numbers and the flag, and the descriptor that
    [assemble()] returns has none of [limit], [offset] and [distinct]:
    [_.isEmpty] holds of every number and boolean, so the three pieces are
    skipped with the empty ones. What the claim says of omission does hold:
    a key is present only for a name whose accumulator was not empty. *)
Theorem assemble_drops_limit_offset_distinct l r n m a b st :
  heap st !! l = Some (OQuery r) ->
  Number n = Some a ->
  Number m = Some b ->
  exists st' d ps r',
    (run take (VRef l) [n] in
     run skip (VRef l) [m] in
     run distinct (VRef l) in
     assemble (VRef l)) st = Some (VRef d, st') /\
    heap st' !! l = Some (OQuery r') /\
    _limit r' = VNum a /\ _offset r' = VNum b /\ _distinct r' = VBool true /\
    heap st' !! d = Some (OObj ps) /\
    get_prop ps "limit" = None /\
    get_prop ps "offset" = None /\
    get_prop ps "distinct" = None /\
    (forall k, get_prop ps k <> None -> k ∈ assemble_props).
Proof.
  intros Hl Hn Hm. pose proof (lookup_lt_Some _ _ _ Hl) as Hlt.
  unfold take, skip, distinct, arg. simpl nth. rewrite Hn, Hm.
  rewrite !bind_assoc. rewrite (bind_run _ _ _ _ _ eq_refl).
  rewrite !bind_assoc. rewrite (bind_run _ _ _ _ _ (update_query_run _ _ _ _ Hl)).
  rewrite (bind_run _ _ _ _ _ eq_refl).
  rewrite !bind_assoc. rewrite (bind_run _ _ _ _ _ eq_refl).
  rewrite !bind_assoc.
  erewrite bind_run
    by (apply update_query_run; simpl; apply list_lookup_insert_eq, Hlt).
  rewrite (bind_run _ _ _ _ _ eq_refl).
  rewrite !bind_assoc.
  erewrite bind_run
    by (apply update_query_run; simpl;
        apply list_lookup_insert_eq; rewrite length_insert; exact Hlt).
  rewrite (bind_run _ _ _ _ _ eq_refl).
  simpl heap. rewrite !list_insert_insert_eq.
  set (r' := set_distinct (VBool true)
               (set_offset (VNum b) (set_limit (VNum a) r))).
  set (s := mkState (<[l:=OQuery r']> (heap st)) (calls st)).
  assert (Hl' : heap s !! l = Some (OQuery r'))
    by (apply list_lookup_insert_eq, Hlt).
  destruct (assemble_omits_empty l r' s Hl') as (st' & ps & E & Hd & Hk & He).
  destruct (assemble_run l r' s Hl') as (st2 & ps2 & E2 & _ & _ & Hf & _).
  rewrite E in E2. injection E2 as <-.
  exists st', (length (heap s)), ps, r'.
  split; [exact E|].
  split; [rewrite Hf by (eapply lookup_lt_Some, Hl'); exact Hl'|].
  split; [reflexivity|]. split; [reflexivity|]. split; [reflexivity|].
  split; [exact Hd|].
  split; [apply He; [exact I | reflexivity]|].
  split; [apply He; [exact I | reflexivity]|].
  split; [apply He; [exact I | reflexivity]|].
  exact Hk.
Qed.

Lemma assemble_drops_limit_offset_distinct_witness :
  exists st' d ps r',
    (run take (VRef 4) [VNum (Int 10)] in
     run skip (VRef 4) [VStr "5"] in
     run distinct (VRef 4) in
     assemble (VRef 4)) fresh_builder = Some (VRef d, st') /\
    heap st' !! 4 = Some (OQuery r') /\
    _limit r' = VNum (Int 10) /\ _offset r' = VNum (Int 5) /\
    _distinct r' = VBool true /\
    heap st' !! d = Some (OObj ps) /\
    get_prop ps "limit" = None /\
    get_prop ps "offset" = None /\
    get_prop ps "distinct" = None /\
    (forall k, get_prop ps k <> None -> k ∈ assemble_props).
Proof.
  exact (assemble_drops_limit_offset_distinct 4 _ (VNum (Int 10)) (VStr "5")
           (Int 10) (Int 5) fresh_builder eq_refl eq_refl eq_refl).
Defined.

(** [take(10)], [skip(5)] and [distinct()] on a fresh builder: the
    descriptor is the empty object. *)
Example take_skip_distinct_assemble_empty :
  let run_all :=
    (run take (VRef 4) [VNum (Int 10)] in
     run skip (VRef 4) [VNum (Int 5)] in
     run distinct (VRef 4) in
     assemble (VRef 4)) in
  result_of run_all fresh_builder = Some (VRef 5) /\
  heap (state_after run_all fresh_builder) !! 5 = Some (OObj []).
Proof. split; reflexivity. Qed.

(** ** What the constraint calls can change *)

Lemma grows_refl st : grows st st.
Proof. split; [lia|]. split; reflexivity. Qed.

Lemma grows_trans st1 st2 st3 : grows st1 st2 -> grows st2 st3 -> grows st1 st3.
Proof.
  intros (L1 & F1 & C1) (L2 & F2 & C2). split; [lia|]. split; [|congruence].
  intros x Hx. rewrite F2 by lia. apply F1, Hx.
Qed.

Lemma growing_ret {A} (a : A) : growing (ret a).
Proof. intros st b st' [_ ->]%ret_Some. apply grows_refl. Qed.

Lemma growing_stuck {A} : growing (@stuck A).
Proof. intros st a st' H. discriminate. Qed.

Lemma growing_bind {A B} (m : M A) (k : A -> M B) :
  growing m -> (forall a, growing (k a)) -> growing (bind m k).
Proof.
  intros Hm Hk st b st' (a & s1 & E1 & E2)%bind_Some.
  eapply grows_trans; [eapply Hm, E1 | eapply Hk, E2].
Qed.

Lemma growing_get_heap : growing get_heap.
Proof. intros st a st' [_ ->]%get_heap_Some. apply grows_refl. Qed.

Lemma growing_of_option {A} (o : option A) : growing (of_option o).
Proof. intros st a st' [_ ->]%of_option_Some. apply grows_refl. Qed.

Lemma growing_alloc o : growing (alloc o).
Proof.
  intros st a st' [_ ->]%alloc_Some. split; [|split]; simpl.
  - rewrite length_app. lia.
  - intros x Hx. apply lookup_app_l, Hx.
  - reflexivity.
Qed.

Lemma growing_this_query this : growing (this_query this).
Proof.
  intros st a st' (l & _ & _ & ->)%this_query_Some. apply grows_refl.
Qed.

Lemma growing_if {A} (b : bool) (m1 m2 : M A) :
  growing m1 -> growing m2 -> growing (if b then m1 else m2).
Proof. destruct b; auto. Qed.

Create HintDb growing.

#[local] Hint Resolve growing_ret growing_stuck growing_get_heap
  growing_of_option growing_alloc growing_this_query : growing.

Ltac growing_tac :=
  repeat first
    [ solve [auto with growing]
    | apply growing_bind; [|intros ?]
    | apply growing_if ].

Lemma growing_slice v : growing (slice v).
Proof. unfold slice. growing_tac. Qed.

Lemma growing_concat v other : growing (concat v other).
Proof. unfold concat. growing_tac. Qed.

Lemma growing_uniq v : growing (_uniq v).
Proof. unfold _uniq. growing_tac. Qed.

Lemma growing_toArray arguments : growing (_toArray arguments).
Proof. unfold _toArray. growing_tac. Qed.

Lemma growing_object key val : growing (_object key val).
Proof. unfold _object. growing_tac. Qed.

Lemma instanceof_Query_true h v :
  instanceof_Query h v = true -> exists l r, v = VRef l /\ h !! l = Some (OQuery r).
Proof.
  destruct v as [| | | | | |x]; try discriminate. simpl.
  destruct (h !! x) as [[| |r|]|] eqn:E; try discriminate.
  intros _. exists x, r. split; [reflexivity | exact E].
Qed.

Lemma growing_assemble_query h v :
  instanceof_Query h v = true ->
  forall st a st', heap st = h -> assemble v st = Some (a, st') -> grows st st'.
Proof.
  intros (l & r & -> & Hl)%instanceof_Query_true st a st' <- E.
  destruct (assemble_run l r st Hl) as (s & ps & E' & Hc & Hlen & Hf & _).
  rewrite E in E'. injection E' as _ <-.
  split; [lia|]. split; [exact Hf | exact Hc].
Qed.

Lemma growing_where_case3 key op val : growing (where_case3 key op val).
Proof.
  intros st a st' E. unfold where_case3 in E. run_inv E.
  apply get_heap_Some in E0 as [-> ->].
  eapply grows_trans; [|eapply grows_trans].
  - destruct (instanceof_Query (heap st) val) eqn:Hq.
    + eapply growing_assemble_query; [exact Hq | reflexivity | exact E1].
    + apply ret_Some in E1 as [_ ->]. apply grows_refl.
  - eapply growing_object, E2.
  - eapply growing_object, E.
Qed.

Lemma growing_where_case1 key : growing (where_case1 key).
Proof. unfold where_case1. growing_tac. Qed.

#[local] Hint Resolve growing_slice growing_concat growing_uniq
  growing_toArray growing_object growing_where_case3 growing_where_case1
  : growing.

(** The part of [where] that builds the condition. *)
Lemma growing_where_cond (arguments : list value) :
  growing
    (let* cond := alloc (OObj []) in
     match length arguments with
     | 2 =>
         let* h := get_heap in
         let* cond :=
           where_case3 (arg 0 arguments)
             (if _isArray h (arg 1 arguments) then VStr "$in" else VStr "$eq")
             (arg 1 arguments) in
         where_case1 (arg 0 arguments)
     | 3 =>
         let* cond :=
           where_case3 (arg 0 arguments) (arg 1 arguments) (arg 2 arguments) in
         where_case1 (arg 0 arguments)
     | 1 => where_case1 (arg 0 arguments)
     | _ => ret cond
     end).
Proof.
  apply growing_bind; [auto with growing|]. intros cond.
  destruct (length arguments) as [|[|[|[|n]]]]; growing_tac.
Qed.

Lemma touches_trans l w st1 st2 st3 :
  touches l w st1 st2 -> touches l w st2 st3 -> touches l w st1 st3.
Proof.
  intros [L1 F1] [L2 F2]. split; [lia|].
  intros x Hx Hl Hw. rewrite F2 by (try lia; assumption).
  apply F1; assumption.
Qed.

Lemma builder_at_distinct l w h : builder_at l w h -> l <> w.
Proof. intros (r & ps & Hl & _ & Hw) ->. congruence. Qed.

Lemma keeps_builder_growing l w {A} (m : M A) :
  growing m -> keeps_builder l w m.
Proof.
  intros Hm st a st' (r & ps & Hl & Hw & Hwo) E.
  destruct (Hm st a st' E) as (Hlen & Hf & _). split.
  - split; [exact Hlen|]. intros x Hx _ _. apply Hf, Hx.
  - exists r, ps.
    rewrite !Hf by (eapply lookup_lt_Some; eassumption). auto.
Qed.

Lemma keeps_builder_bind l w {A B} (m : M A) (k : A -> M B) :
  keeps_builder l w m -> (forall a, keeps_builder l w (k a)) ->
  keeps_builder l w (bind m k).
Proof.
  intros Hm Hk st b st' Hb (a & s1 & E1 & E2)%bind_Some.
  destruct (Hm _ _ _ Hb E1) as [T1 Hb1].
  destruct (Hk a _ _ _ Hb1 E2) as [T2 Hb2].
  split; [eapply touches_trans; eassumption | exact Hb2].
Qed.

Lemma keeps_builder_ext l w {A} (m m' : M A) :
  (forall st, m st = m' st) -> keeps_builder l w m' -> keeps_builder l w m.
Proof. intros Heq H st a st' Hb E. rewrite Heq in E. eapply H; eassumption. Qed.

Lemma keeps_builder_update l w f :
  (forall r, _where (f r) = _where r) ->
  keeps_builder l w (update_query (VRef l) f).
Proof.
  intros Hf st a st' Hb E. pose proof (builder_at_distinct _ _ _ Hb) as Hne.
  destruct Hb as (r & ps & Hl & Hw & Hwo).
  rewrite (update_query_run _ _ _ _ Hl) in E. injection E as _ <-.
  pose proof (lookup_lt_Some _ _ _ Hl) as Hlt. split.
  - split; simpl; [rewrite length_insert; lia|].
    intros x _ Hx _. apply list_lookup_insert_ne. congruence.
  - exists (f r), ps. simpl. rewrite Hf.
    split; [apply list_lookup_insert_eq, Hlt|]. split; [exact Hw|].
    rewrite list_lookup_insert_ne by exact Hne. exact Hwo.
Qed.

(** The end of [where]: the condition is copied onto the tree. *)
Lemma keeps_builder_extend l w cond :
  keeps_builder l w
    (let* r := this_query (VRef l) in
     run _extend (_where r) cond in
     ret (VRef l)).
Proof.
  intros st a st' Hb E. pose proof (builder_at_distinct _ _ _ Hb) as Hne.
  destruct Hb as (r & ps & Hl & Hw & Hwo).
  rewrite (bind_run _ _ _ _ _ (this_query_run _ _ _ Hl)) in E.
  rewrite Hw in E. unfold _extend in E.
  rewrite bind_assoc, (bind_run _ _ _ _ _ eq_refl) in E.
  destruct (each_assign_run w (all_props (heap st) cond) ps st Hwo) as [ps' E'].
  rewrite bind_assoc, (bind_run _ _ _ _ _ E') in E.
  rewrite !(bind_run _ _ _ _ _ eq_refl) in E. injection E as _ <-.
  pose proof (lookup_lt_Some _ _ _ Hwo) as Hlt. split.
  - split; simpl; [rewrite length_insert; lia|].
    intros x _ _ Hx. apply list_lookup_insert_ne. congruence.
  - exists r, ps'. simpl.
    split; [rewrite list_lookup_insert_ne by congruence; exact Hl|].
    split; [exact Hw|]. apply list_lookup_insert_eq, Hlt.
Qed.

Lemma keeps_builder_where l w arguments :
  keeps_builder l w (where_ (VRef l) arguments).
Proof.
  unfold where_.
  eapply keeps_builder_ext; [intros st; symmetry; apply bind_assoc|].
  apply keeps_builder_bind.
  - apply keeps_builder_growing, growing_where_cond.
  - intros cond. apply keeps_builder_extend.
Qed.

Create HintDb builder.

#[local] Hint Resolve keeps_builder_where : builder.

Ltac keeps_builder_tac :=
  repeat first
    [ solve [auto with builder]
    | solve [apply keeps_builder_growing; growing_tac]
    | solve [apply keeps_builder_update; intros ?; reflexivity]
    | apply keeps_builder_bind; [|intros ?] ].

Lemma keeps_builder_constrain l w c :
  keeps_builder l w (constrain (VRef l) c).
Proof.
  destruct c; simpl;
    unfold whereIn, orWhere, from, select, order, take, skip, distinct;
    keeps_builder_tac.
Qed.

Lemma keeps_builder_constrain_all l w cs :
  keeps_builder l w (constrain_all (VRef l) cs).
Proof.
  induction cs as [|c cs IH]; simpl.
  - apply keeps_builder_growing, growing_ret.
  - apply keeps_builder_bind; [apply keeps_builder_constrain|].
    intros _. exact IH.
Qed.

Lemma entry_view_agree h h' v :
  (forall x, v = VRef x -> h' !! x = h !! x) ->
  entry_view h' v = entry_view h v.
Proof.
  intros H. destruct v as [| | | | | |x]; try reflexivity.
  unfold entry_view. rewrite (H x eq_refl). reflexivity.
Qed.

(** C9. Once [assemble()] has returned a descriptor, no run of constraint
    calls on the same builder changes it: the descriptor keeps its entries,
    and the sequences and the condition map it holds keep their contents.
    Indeed the calls change no object but the builder and its own condition
    map. ([assemble] itself returns for every builder, see
    [assemble_run].) *)
Theorem assembled_descriptor_unchanged l w st d st1 cs st2 :
  builder_at l w (heap st) ->
  assemble (VRef l) st = Some (d, st1) ->
  constrain_all (VRef l) cs st1 = Some (tt, st2) ->
  is_Some (descriptor_view (heap st1) d) /\
  descriptor_view (heap st2) d = descriptor_view (heap st1) d /\
  (forall x, x < length (heap st1) -> x <> l -> x <> w ->
             heap st2 !! x = heap st1 !! x).
Proof.
  intros Hb Ha Hcs.
  pose proof Hb as (r & wps & Hl & Hw & Hwo).
  pose proof (lookup_lt_Some _ _ _ Hl) as Hllt.
  pose proof (lookup_lt_Some _ _ _ Hwo) as Hwlt.
  destruct (assemble_run l r st Hl)
    as (s & ps & E & _ & Hlen & Hf & Hd & Hps).
  rewrite Ha in E. injection E as -> <-.
  assert (Hb1 : builder_at l w (heap st1)).
  { exists r, wps. rewrite !Hf by assumption. auto. }
  destruct (keeps_builder_constrain_all l w cs st1 tt st2 Hb1 Hcs)
    as [[Hlen2 Hf2] _].
  assert (Hd2 : heap st2 !! length (heap st) = Some (OObj ps)).
  { rewrite Hf2 by lia. exact Hd. }
  unfold descriptor_view. rewrite Hd, Hd2. split; [eexists; reflexivity|].
  split; [|exact Hf2].
  f_equal. apply map_ext_in. intros [k v] Hin. simpl. f_equal.
  apply entry_view_agree. intros x ->.
  apply list_elem_of_In in Hin.
  destruct (Hps k (VRef x) Hin) as (_ & Hx & _). simpl in Hx.
  apply Hf2; lia.
Qed.

Lemma assembled_descriptor_unchanged_witness :
  is_Some (descriptor_view (heap Snapshot.assembled) (VRef 13)) /\
  descriptor_view (heap Snapshot.constrained) (VRef 13)
  = descriptor_view (heap Snapshot.assembled) (VRef 13).
Proof.
  destruct (assembled_descriptor_unchanged 4 0 Snapshot.built (VRef 13)
              Snapshot.assembled Snapshot.calls_after Snapshot.constrained)
    as (Hsome & Hsame & _).
  - eexists _, _. split; [reflexivity|]. split; reflexivity.
  - vm_compute. reflexivity.
  - vm_compute. reflexivity.
  - split; [exact Hsome | exact Hsame].
Defined.

(** What the snapshot holds, and what the builder holds after the later
    calls. *)
Example snapshot_contents :
  descriptor_view (heap Snapshot.constrained) (VRef 13)
  = Some [("select", (VRef 15, Some (OArr [VStr "a"])));
          ("from", (VStr "users", None));
          ("where", (VRef 16, Some (OObj [("$or", VRef 10)])))] /\
  select_fields (heap Snapshot.constrained) 4 = Some [VStr "a"; VStr "b"] /\
  where_tree (heap Snapshot.constrained) 4
  = Some [("$or", VRef 20); ("a", VNum (Int 1))].
Proof. vm_compute. repeat split; reflexivity. Qed.

(** ** [where] with a field name, for any arguments *)

Lemma where_case1_string_Some f cond st st' :
  where_case1 (VStr f) st = Some (cond, st') ->
  exists c, cond = VRef c /\ heap st' !! c = Some (OObj []).
Proof.
  rewrite where_case1_string. intros [= <- <-].
  exists (length (heap st)). split; [reflexivity|]. apply lookup_fresh.
Qed.

Lemma where_field_grows this f rest : growing (where_ this (VStr f :: rest)).
Proof.
  intros st a st' E. unfold where_ in E. rewrite <- bind_assoc in E.
  apply bind_Some in E as (cond & s1 & Econd & Etail).
  pose proof (growing_where_cond (VStr f :: rest) _ _ _ Econd) as Hgrows.
  assert (Hcond : exists c, cond = VRef c /\ heap s1 !! c = Some (OObj [])).
  { apply bind_Some in Econd as (cond0 & s0 & [-> ->]%alloc_Some & Econd).
    unfold arg in Econd.
    destruct rest as [|a1 [|a2 [|a3 rest]]]; cbn [length nth] in Econd.
    - eapply where_case1_string_Some, Econd.
    - run_inv Econd. eapply where_case1_string_Some, Econd.
    - run_inv Econd. eapply where_case1_string_Some, Econd.
    - apply ret_Some in Econd as [-> ->].
      exists (length (heap st)). split; [reflexivity|]. apply lookup_fresh. }
  destruct Hcond as (c & -> & Hc).
  apply bind_Some in Etail as (r & s2 & (l & _ & _ & ->)%this_query_Some & Etail).
  rewrite (bind_run _ _ _ _ _ (extend_with_empty _ _ _ Hc)) in Etail.
  apply ret_Some in Etail as [_ ->]. exact Hgrows.
Qed.

Lemma where_tree_agree l ps (h h' : list object) :
  (forall x, x < length h -> h' !! x = h !! x) ->
  where_tree h l = Some ps -> where_tree h' l = Some ps.
Proof.
  intros Hf. unfold where_tree.
  destruct (h !! l) as [[| |r|]|] eqn:El; try discriminate.
  rewrite (Hf l) by (eapply lookup_lt_Some, El). rewrite El.
  destruct (_where r) as [| | | | | |w]; try discriminate.
  destruct (h !! w) as [o|] eqn:Ew; [|discriminate].
  rewrite (Hf w) by (eapply lookup_lt_Some, Ew). rewrite Ew. trivial.
Qed.

(** C1. On the code, [where(f, v)] and [where(f, op, v)] with a field name
    [f] and a value that is not a builder return the builder and change
    nothing it can reach: the heap only gains objects that are dropped at
    once. Whatever follows the field name, the condition tree keeps the
    entries it had, so [f] is mapped to no new constraint. *)
Theorem where_field_name_leaves_tree l r f v st :
  heap st !! l = Some (OQuery r) ->
  instanceof_Query (heap st) v = false ->
  (exists garbage,
      where_ (VRef l) [VStr f; v] st
      = Some (VRef l, mkState (heap st ++ garbage) (calls st))) /\
  (forall op, exists garbage,
      where_ (VRef l) [VStr f; VStr op; v] st
      = Some (VRef l, mkState (heap st ++ garbage) (calls st))) /\
  (forall rest a st' ps,
      where_ (VRef l) (VStr f :: rest) st = Some (a, st') ->
      where_tree (heap st) l = Some ps ->
      where_tree (heap st') l = Some ps).
Proof.
  intros Hl Hq. split; [|split].
  - eapply where_field_2; eassumption.
  - intros op. eapply where_field_3; eassumption.
  - intros rest a st' ps E.
    destruct (where_field_grows _ _ _ _ _ _ E) as (_ & Hf & _).
    apply where_tree_agree, Hf.
Qed.

Lemma where_field_name_leaves_tree_witness :
  (exists garbage,
      where_ (VRef 4) [VStr "name"; VStr "John"] fresh_builder
      = Some (VRef 4, mkState (heap fresh_builder ++ garbage)
                              (calls fresh_builder))) /\
  (forall op : string, exists garbage,
      where_ (VRef 4) [VStr "name"; VStr op; VStr "John"] fresh_builder
      = Some (VRef 4, mkState (heap fresh_builder ++ garbage)
                              (calls fresh_builder))) /\
  (forall rest a st' ps,
      where_ (VRef 4) (VStr "name" :: rest) fresh_builder = Some (a, st') ->
      where_tree (heap fresh_builder) 4 = Some ps ->
      where_tree (heap st') 4 = Some ps).
Proof.
  exact (where_field_name_leaves_tree 4 _ "name" (VStr "John") fresh_builder
           eq_refl eq_refl).
Defined.

(** The calls of the documentation of [where], on a fresh builder: the
    condition tree stays empty. *)
Example where_name_John :
  where_tree
    (heap (state_after (where_ (VRef 4) [VStr "name"; VStr "John"])
                       fresh_builder)) 4 = Some [] /\
  where_tree
    (heap (state_after
             (where_ (VRef 4) [VStr "status"; VStr "$ne"; VStr "draft"])
             fresh_builder)) 4 = Some [].
Proof. split; reflexivity. Qed.

(** ** The pivot query of a relation *)

Lemma growing_this_model this : growing (this_model this).
Proof.
  intros st a st' E. destruct this as [| | | | | |l]; try discriminate.
  simpl in E. run_inv E. apply load_Some in E0 as [_ ->].
  destruct a0; try discriminate. apply ret_Some in E as [_ ->].
  apply grows_refl.
Qed.

#[local] Hint Resolve growing_this_model : growing.

Lemma growing_getKeyName this : growing (getKeyName this).
Proof. unfold getKeyName. growing_tac. Qed.

Lemma growing_get this attr : growing (get this attr).
Proof. unfold get. growing_tac. Qed.

#[local] Hint Resolve growing_getKeyName growing_get : growing.

Lemma growing_getId this : growing (getId this).
Proof. unfold getId. growing_tac. Qed.

Lemma growing_newQuery this : growing (newQuery this).
Proof. unfold newQuery, Query_new. growing_tac. Qed.

Lemma growing_map_M {A B} (f : A -> M B) xs :
  (forall x, growing (f x)) -> growing (map_M f xs).
Proof. intros Hf. induction xs; simpl; growing_tac. Qed.

Lemma growing_getKeys models key : growing (BelongsToMany._getKeys models key).
Proof.
  unfold BelongsToMany._getKeys. growing_tac.
  apply growing_map_M. intros x. auto with growing.
Qed.

#[local] Hint Resolve growing_getId growing_newQuery growing_getKeys : growing.

Lemma where_returns_this this arguments st a st' :
  where_ this arguments st = Some (a, st') -> a = this.
Proof.
  unfold where_. intros E. run_inv E. apply ret_Some in E as [-> _].
  reflexivity.
Qed.

Lemma select_returns_this this arguments st a st' :
  select this arguments st = Some (a, st') -> a = this.
Proof.
  unfold select. intros E. run_inv E. apply ret_Some in E as [-> _].
  reflexivity.
Qed.

Lemma distinct_returns_this this st a st' :
  distinct this st = Some (a, st') -> a = this.
Proof.
  unfold distinct. intros E. run_inv E. apply ret_Some in E as [-> _].
  reflexivity.
Qed.

(** What [_newPivotQuery] hands back when the local key is a name: a new
    builder, as the constructor made it. *)
Lemma newPivotQuery_fresh this lk st v st' :
  BelongsToMany.localKey this = VStr lk ->
  BelongsToMany._newPivotQuery this st = Some (v, st') ->
  let n := length (heap st) in
  v = VRef (S (S (S (S n)))) /\
  grows st st' /\
  heap st' !! S (S (S (S n)))
  = Some (OQuery (fresh_query n (BelongsToMany.pivot this))) /\
  heap st' !! n = Some (OObj []) /\
  heap st' !! S (S n) = Some (OArr []) /\
  heap st' !! S (S (S n)) = Some (OArr []).
Proof.
  intros Hlk E n. unfold BelongsToMany._newPivotQuery in E. rewrite Hlk in E.
  apply bind_Some in E as (q & s1 & Eq & E).
  apply bind_Some in E as (id & s2 & Eid & E).
  pose proof (growing_getId _ _ _ _ Eid) as G2.
  pose proof (where_field_grows _ _ _ _ _ _ E) as G3.
  pose proof (where_returns_this _ _ _ _ _ E) as ->.
  unfold newQuery in Eq.
  apply bind_Some in Eq as (m & s0 & Em & Eq).
  pose proof (growing_this_model _ _ _ _ Em) as G0.
  assert (s0 = st) as ->.
  { destruct (BelongsToMany.pivot this); try discriminate.
    simpl in Em. run_inv Em. apply load_Some in E0 as [_ ->].
    destruct a; try discriminate. apply ret_Some in Em as [_ ->].
    reflexivity. }
  rewrite Query_new_run in Eq. cbv zeta in Eq. injection Eq as <- <-.
  assert (G : grows
                (mkState (heap st ++ [OObj []; OObj []; OArr []; OArr [];
                                      OQuery (fresh_query n (BelongsToMany.pivot this))])
                         (calls st)) st')
    by (eapply grows_trans; eassumption).
  destruct G as (_ & Gf & Gc). simpl in Gf, Gc.
  rewrite length_app in Gf. simpl in Gf.
  split; [reflexivity|]. split.
  { split; [|split].
    - destruct G2 as (L2 & _), G3 as (L3 & _). simpl in L2.
      rewrite length_app in L2. simpl in L2. lia.
    - intros x Hx. rewrite Gf by lia. apply lookup_app_l, Hx.
    - exact Gc. }
  fold n in Gf.
  repeat split; (rewrite Gf by lia); rewrite lookup_app_r by (fold n; lia).
  - replace (S (S (S (S n))) - length (heap st)) with 4 by (fold n; lia).
    reflexivity.
  - replace (n - length (heap st)) with 0 by (fold n; lia). reflexivity.
  - replace (S (S n) - length (heap st)) with 2 by (fold n; lia). reflexivity.
  - replace (S (S (S n)) - length (heap st)) with 3 by (fold n; lia).
    reflexivity.
Qed.

(** A builder whose pieces are all empty assembles to the empty object. *)
Lemma assemble_all_empty l r st :
  heap st !! l = Some (OQuery r) ->
  (forall k, k ∈ assemble_props ->
             live (heap st) (Query_get r ("_" +:+ k)) /\
             _isEmpty (heap st) (Query_get r ("_" +:+ k)) = true) ->
  exists st',
    assemble (VRef l) st = Some (VRef (length (heap st)), st') /\
    heap st' !! length (heap st) = Some (OObj []) /\
    calls st' = calls st.
Proof.
  intros Hl Hall.
  destruct (assemble_omits_empty l r st Hl) as (st' & ps & E & Hd & Hk & He).
  destruct (assemble_run l r st Hl) as (st2 & ps2 & E2 & Hc & _).
  rewrite E in E2. injection E2 as <-.
  exists st'. split; [exact E|]. split; [|exact Hc].
  destruct ps as [|[k v] ps]; [exact Hd|]. exfalso.
  assert (Hget : get_prop ((k, v) :: ps) k = Some v)
    by (simpl; rewrite String.eqb_refl; reflexivity).
  assert (Hin : k ∈ assemble_props) by (apply Hk; congruence).
  destruct (Hall k Hin) as [Hlive Hempty].
  rewrite (He k Hlive Hempty) in Hget. discriminate.
Qed.

Lemma assemble_fresh_query l n drv st :
  heap st !! l = Some (OQuery (fresh_query n drv)) ->
  heap st !! n = Some (OObj []) ->
  heap st !! S (S n) = Some (OArr []) ->
  heap st !! S (S (S n)) = Some (OArr []) ->
  exists st',
    assemble (VRef l) st = Some (VRef (length (heap st)), st') /\
    heap st' !! length (heap st) = Some (OObj []) /\
    calls st' = calls st.
Proof.
  intros Hl Hw Hs Ho. apply (assemble_all_empty l _ st Hl).
  intros k Hk. unfold assemble_props in Hk.
  repeat (apply elem_of_cons in Hk as [->|Hk]); [..|inversion Hk];
    match goal with
    | |- context [Query_get ?r ?k] =>
        let v := eval vm_compute in (Query_get r k) in
        change (Query_get r k) with v
    end;
    try (split; [exact I | reflexivity]);
    unfold live, _isEmpty, array_elems, own_props.
  - rewrite Hs. split; [eapply lookup_lt_Some, Hs | reflexivity].
  - rewrite Hw. split; [eapply lookup_lt_Some, Hw | reflexivity].
  - rewrite Ho. split; [eapply lookup_lt_Some, Ho | reflexivity].
Qed.

Ltac grow E G :=
  match type of E with
  | ?m ?s = Some (?a, ?s') =>
      assert (G : grows s s')
        by (refine ((_ : growing m) s a s' E); growing_tac)
  end.

Lemma getKeyName_Some l m k st st' :
  heap st !! l = Some (OModel m) ->
  getKeyName (VRef l) st = Some (k, st') -> k = m_pk m /\ st' = st.
Proof.
  intros Hl E. unfold getKeyName in E.
  rewrite (bind_run _ _ _ _ _ (this_model_run _ _ _ Hl)) in E.
  destruct (_isFunction (m_pk m)); [discriminate|].
  apply ret_Some in E as [-> ->]. split; reflexivity.
Qed.

(** C2. On the code, for every relation whose key names are strings and
    every argument list, a [detach] that returns has made exactly one
    [destroy] call, on the pivot entity, and the descriptor handed over is
    the empty object: it has no [where], so neither the parent's key nor
    the given keys restrict the deletion. *)
Theorem detach_descriptor_has_no_where this lk ok arguments st st' :
  BelongsToMany.localKey this = VStr lk ->
  BelongsToMany.otherKey this = VStr ok ->
  BelongsToMany.detach this arguments st = Some (tt, st') ->
  exists d,
    calls st'
    = calls st ++ [Call (BelongsToMany.pivot this) "destroy" [VRef d]] /\
    heap st' !! d = Some (OObj []).
Proof.
  intros Hlk Hok E. unfold BelongsToMany.detach in E. rewrite Hok in E.
  apply bind_Some in E as (query & s1 & E1 & E).
  destruct (newPivotQuery_fresh _ _ _ _ _ Hlk E1)
    as (-> & G1 & Hq & Hw & Hs & Ho).
  apply bind_Some in E as (ids1 & s2 & E2 & E). grow E2 G2.
  apply bind_Some in E as (h3 & s3 & [-> ->]%get_heap_Some & E).
  apply bind_Some in E as (ids2 & s4 & E4 & E). grow E4 G4.
  apply bind_Some in E as (h5 & s5 & [-> ->]%get_heap_Some & E).
  apply bind_Some in E as (ids3 & s6 & E6 & E). grow E6 G6.
  apply bind_Some in E as (h7 & s7 & [-> ->]%get_heap_Some & E).
  apply bind_Some in E as (es & s8 & [_ ->]%of_option_Some & E).
  apply bind_Some in E as (q' & s9 & E9 & E).
  assert (G9 : grows s6 s9).
  { destruct (0 <? length es)%nat.
    - eapply where_field_grows, E9.
    - apply ret_Some in E9 as [_ ->]. apply grows_refl. }
  assert (G : grows s1 s9) by (repeat (eapply grows_trans; [eassumption|]);
                               apply grows_refl).
  destruct G as (_ & Gf & Gc). destruct G1 as (_ & _ & Gc1).
  unfold destroy in E.
  assert (Hq9 : heap s9 !! S (S (S (S (length (heap st)))))
                = Some (OQuery (fresh_query (length (heap st))
                                            (BelongsToMany.pivot this))))
    by (rewrite Gf by (eapply lookup_lt_Some, Hq); exact Hq).
  rewrite (bind_run _ _ _ _ _ (this_query_run _ _ _ Hq9)) in E.
  destruct (assemble_fresh_query _ _ _ s9 Hq9)
    as (s10 & Ea & Hd & Hc).
  { rewrite Gf by (eapply lookup_lt_Some, Hw). exact Hw. }
  { rewrite Gf by (eapply lookup_lt_Some, Hs). exact Hs. }
  { rewrite Gf by (eapply lookup_lt_Some, Ho). exact Ho. }
  rewrite (bind_run _ _ _ _ _ Ea) in E. injection E as <-.
  exists (length (heap s9)). simpl. split; [|exact Hd].
  rewrite Hc, Gc, Gc1. reflexivity.
Qed.

Lemma detach_descriptor_has_no_where_witness :
  exists d,
    calls (state_after (BelongsToMany.detach Example.relation [VRef 3])
                       Example.start)
    = calls Example.start ++ [Call (VRef 1) "destroy" [VRef d]] /\
    heap (state_after (BelongsToMany.detach Example.relation [VRef 3])
                      Example.start) !! d = Some (OObj []).
Proof.
  apply (detach_descriptor_has_no_where Example.relation "user_id" "role_id"
           [VRef 3] Example.start).
  - reflexivity.
  - reflexivity.
  - vm_compute. reflexivity.
Defined.

(** C6. On the code, for every relation whose local key is a name and whose
    related key name is a string, an [_applyEagerConstraints] that returns
    has changed no object that was there before the call: the relation's
    builder and its condition tree are as they were, so the related key is
    constrained by nothing. *)
Theorem eager_constraints_leave_query_unconstrained
        this lk rl rm pk models st st' :
  BelongsToMany.localKey this = VStr lk ->
  BelongsToMany.related this = VRef rl ->
  heap st !! rl = Some (OModel rm) ->
  m_pk rm = VStr pk ->
  BelongsToMany._applyEagerConstraints this models st = Some (tt, st') ->
  (forall x, x < length (heap st) -> heap st' !! x = heap st !! x) /\
  (forall ql ps,
     BelongsToMany.query this = VRef ql ->
     where_tree (heap st) ql = Some ps ->
     where_tree (heap st') ql = Some ps).
Proof.
  intros Hlk Hrel Hrl Hpk E.
  assert (Hframe : forall x, x < length (heap st) ->
                             heap st' !! x = heap st !! x).
  { unfold BelongsToMany._applyEagerConstraints in E. rewrite Hlk, Hrel in E.
    apply bind_Some in E as (subQuery & s1 & E1 & E).
    destruct (newPivotQuery_fresh _ _ _ _ _ Hlk E1)
      as (-> & G1 & Hq & Hw & _).
      apply bind_Some in E as (local & s2 & E2 & E). grow E2 G2.
    apply bind_Some in E as (other & s3 & E3 & E).
    assert (Hrl2 : heap s2 !! rl = Some (OModel rm)).
    { destruct G1 as (L1 & F1 & _), G2 as (_ & F2 & _).
      pose proof (lookup_lt_Some _ _ _ Hrl).
      rewrite F2, F1 by lia. exact Hrl. }
    destruct (getKeyName_Some _ _ _ _ _ Hrl2 E3) as [-> ->]. rewrite Hpk in E.
    apply bind_Some in E as (keys & s4 & E4 & E). grow E4 G4.
    apply bind_Some in E as (w1 & s5 & E5 & E).
    pose proof (where_field_grows _ lk [VStr "$in"; keys] _ _ _ E5) as G5.
    assert (G : grows st s5)
      by (repeat (eapply grows_trans; [eassumption|]); apply grows_refl).
    assert (G15 : grows s1 s5)
      by (repeat (eapply grows_trans; [eassumption|]); apply grows_refl).
    assert (Hb5 : builder_at (S (S (S (S (length (heap st))))))
                             (length (heap st)) (heap s5)).
    { destruct G15 as (_ & F & _). eexists _, _.
      rewrite !F by (eapply lookup_lt_Some; eassumption).
      split; [exact Hq|]. split; [reflexivity | exact Hw]. }
    apply bind_Some in E as (sel & s6 & E6 & E).
    pose proof (select_returns_this _ _ _ _ _ E6) as ->.
    destruct (keeps_builder_constrain _ _ (CSelect _) _ _ _ Hb5 E6)
      as [T6 Hb6].
    apply bind_Some in E as (d & s7 & E7 & E).
    pose proof (distinct_returns_this _ _ _ _ E7) as ->.
    destruct (keeps_builder_constrain _ _ CDistinct _ _ _ Hb6 E7)
      as [T7 Hb7].
    apply bind_Some in E as (w2 & s8 & E8 & E).
    pose proof (where_field_grows _ pk [VStr "$in"; _] _ _ _ E8) as G8.
    apply ret_Some in E as [_ ->].
    destruct G as (L5 & F5 & _), T6 as (L6 & F6), T7 as (L7 & F7),
             G8 as (_ & F8 & _).
    intros x Hx.
    rewrite F8, F7, F6, F5 by lia. reflexivity. }
  split; [exact Hframe|].
  intros ql ps _. apply where_tree_agree, Hframe.
Qed.

Lemma eager_constraints_leave_query_unconstrained_witness :
  where_tree
    (heap (state_after
             (BelongsToMany._applyEagerConstraints Example.relation (VRef 5))
             Example.start)) 10 = Some [].
Proof.
  apply (proj2 (eager_constraints_leave_query_unconstrained
                  Example.relation "user_id" 2 Example.related_model "id"
                  (VRef 5) Example.start _
                  eq_refl eq_refl eq_refl eq_refl
                  ltac:(vm_compute; reflexivity)) 10 []).
  - reflexivity.
  - reflexivity.
Defined.

(** [detach([4, 5])] and [detach()] in the example: one [destroy] call each,
    with an empty descriptor; without an argument the identifiers are taken
    to be [[undefined]]. *)
Example detach_example :
  let after_ids :=
    state_after (BelongsToMany.detach Example.relation [VRef 3]) Example.start in
  let after_none :=
    state_after (BelongsToMany.detach Example.relation []) Example.start in
  result_of (BelongsToMany.detach Example.relation [VRef 3]) Example.start
  = Some tt /\
  calls after_ids = [Call (VRef 1) "destroy" [VRef 21]] /\
  heap after_ids !! 21 = Some (OObj []) /\
  where_tree (heap after_ids) 15 = Some [] /\
  result_of (BelongsToMany.detach Example.relation []) Example.start
  = Some tt /\
  calls after_none = [Call (VRef 1) "destroy" [VRef 22]] /\
  heap after_none !! 22 = Some (OObj []) /\
  heap after_none !! 19 = Some (OArr [VUndefined]).
Proof. vm_compute. repeat split; reflexivity. Qed.

(** [_applyEagerConstraints] over the two parents of the example: the
    condition tree of the relation's builder stays empty, and so does the
    descriptor it assembles. *)
Example eager_constraints_example :
  let after :=
    state_after
      (BelongsToMany._applyEagerConstraints Example.relation (VRef 5))
      Example.start in
  result_of (BelongsToMany._applyEagerConstraints Example.relation (VRef 5))
            Example.start = Some tt /\
  where_tree (heap after) 10 = Some [] /\
  exists d,
    result_of (assemble (VRef 10)) after = Some (VRef d) /\
    heap (state_after (assemble (VRef 10)) after) !! d = Some (OObj []).
Proof.
  vm_compute. split; [reflexivity|]. split; [reflexivity|].
  eexists. split; reflexivity.
Qed.

(** ** The dictionary of related entities *)

Lemma members_add groups k e k0 :
  members (ManyToMany.add_to_group groups k e) k0
  = if String.eqb k k0 then members groups k0 ++ [e] else members groups k0.
Proof.
  induction groups as [|[k' es] groups IH]; simpl.
  - destruct (String.eqb k k0); reflexivity.
  - destruct (String.eqb k' k) eqn:E1; simpl.
    + apply String.eqb_eq in E1. subst k'.
      destruct (String.eqb k k0); reflexivity.
    + destruct (String.eqb k' k0) eqn:E2; [|exact IH].
      apply String.eqb_eq in E2. subst k'.
      rewrite String.eqb_sym, E1. reflexivity.
Qed.

Lemma groupBy_members f : forall models groups dict,
  ManyToMany.groupBy_from groups f models = Some dict ->
  forall k,
    members dict k
    = members groups k ++ filter (fun e => f e = Some k) models.
Proof.
  induction models as [|e models IH]; intros groups dict H k; simpl in *.
  - injection H as <-. rewrite app_nil_r. reflexivity.
  - destruct (f e) as [k1|] eqn:Ef; [|discriminate]. simpl in H.
    rewrite (IH _ _ H k), members_add.
    rewrite filter_cons.
    destruct (String.eqb k1 k) eqn:E.
    + apply String.eqb_eq in E. subst k1.
      rewrite decide_True by exact Ef.
      rewrite <- app_assoc. reflexivity.
    + rewrite decide_False; [reflexivity|].
      rewrite Ef. intros Hk. injection Hk as ->.
      rewrite String.eqb_refl in E. discriminate.
Qed.

Lemma add_to_group_Forall (P : ManyToMany.entity -> Prop) groups k e :
  Forall (fun g => Forall P g.2) groups -> P e ->
  Forall (fun g => Forall P g.2) (ManyToMany.add_to_group groups k e).
Proof.
  intros Hg He. induction Hg as [|[k' es] groups Hes Hg IH]; simpl.
  - repeat constructor. exact He.
  - destruct (String.eqb k' k).
    + constructor; [|exact Hg]. simpl in *.
      apply Forall_app. split; [exact Hes | repeat constructor; exact He].
    + constructor; [exact Hes | exact IH].
Qed.

Lemma groupBy_from_Forall (P : ManyToMany.entity -> Prop) f :
  forall models groups dict,
    ManyToMany.groupBy_from groups f models = Some dict ->
    Forall (fun g => Forall P g.2) groups ->
    (forall e k, e ∈ models -> f e = Some k -> P e) ->
    Forall (fun g => Forall P g.2) dict.
Proof.
  induction models as [|e models IH]; intros groups dict H Hg HP; simpl in H.
  - injection H as <-. exact Hg.
  - destruct (f e) as [k|] eqn:Ef; [|discriminate]. simpl in H.
    apply (IH _ _ H).
    + apply add_to_group_Forall; [exact Hg|].
      apply (HP e k); [left | exact Ef].
    + intros e' k' He'. apply HP. right. exact He'.
Qed.

(** C7. On the code, [buildDictionary] lists under each key exactly the
    given entities whose pivot attribute has that key, in their order; and
    every entity it lists is one of the given entities as it was given,
    still carrying its pivot record: nothing is removed, because
    [cleanPivotAttributes] hands its argument back. *)
Theorem buildDictionary_groups_and_keeps_pivot models key dict :
  ManyToMany.buildDictionary models key = Some dict ->
  (forall k,
     members dict k
     = filter (fun e => pivot_key key e = Some k) models) /\
  (forall k es e,
     (k, es) ∈ dict -> e ∈ es ->
     e ∈ models /\ exists data, ManyToMany.pivot_record e = Some data) /\
  ManyToMany.buildDictionary [entity1; entity2; entity3] (VStr "k")
  = Some [("1", [entity1; entity2]); ("2", [entity3])].
Proof.
  unfold ManyToMany.buildDictionary, ManyToMany.groupBy. intros H.
  split; [|split; [|reflexivity]].
  - intros k. rewrite (groupBy_members _ _ _ _ H k). reflexivity.
  - intros k es e Hin He.
    assert (HF : Forall
                   (fun g : string * list ManyToMany.entity =>
                      Forall (fun e => e ∈ models /\
                                       exists data,
                                         ManyToMany.pivot_record e = Some data)
                             g.2) dict).
    { eapply groupBy_from_Forall; [exact H | constructor|].
      intros e' k' He' Hk'. split; [exact He'|].
      unfold ManyToMany.pivot_get in Hk'.
      destruct (ManyToMany.pivot_record e') as [data|]; [eauto|discriminate]. }
    rewrite list.Forall_forall in HF. specialize (HF _ Hin). simpl in HF.
    rewrite list.Forall_forall in HF. apply HF, He.
Qed.

Lemma buildDictionary_groups_and_keeps_pivot_witness :
  members [("1", [entity1; entity2]); ("2", [entity3])] "1"
  = filter (fun e => pivot_key (VStr "k") e = Some "1")
           [entity1; entity2; entity3] /\
  entity2 ∈ [entity1; entity2; entity3] /\
  exists data, ManyToMany.pivot_record entity2 = Some data.
Proof.
  destruct (buildDictionary_groups_and_keeps_pivot
              [entity1; entity2; entity3] (VStr "k")
              [("1", [entity1; entity2]); ("2", [entity3])] eq_refl)
    as (Hmembers & Hkept & _).
  split; [apply Hmembers|].
  apply (Hkept "1" [entity1; entity2] entity2).
  - left.
  - right. left.
Defined.

(** ** Fetching with an empty result *)

Lemma array_elems_agree h h' v :
  (forall x, v = VRef x -> h' !! x = h !! x) ->
  array_elems h' v = array_elems h v.
Proof.
  intros H. destruct v as [| | | | | |x]; try reflexivity.
  simpl. rewrite (H x eq_refl). reflexivity.
Qed.

Lemma fetch_empty setData l r resp st :
  heap st !! l = Some (OQuery r) ->
  live (heap st) resp ->
  _isEmpty (heap st) resp = true ->
  exists st' d,
    fetch setData (Resolved resp) (VRef l) st
    = Some (Rejected ModelNotFoundError, st') /\
    calls st' = calls st ++ [Call (driver r) "fetch" [d]].
Proof.
  intros Hl Hlive Hempty. unfold fetch.
  rewrite (bind_run _ _ _ _ _ (this_query_run _ _ _ Hl)).
  destruct (assemble_run l r st Hl) as (st1 & ps & E & Hc & _ & Hf & _).
  rewrite (bind_run _ _ _ _ _ E), !(bind_run _ _ _ _ _ eq_refl).
  simpl heap. rewrite (isEmpty_agree (heap st)), Hempty.
  - eexists _, _. split; [reflexivity|]. simpl. rewrite Hc. reflexivity.
  - intros x ->. apply Hf, Hlive.
Qed.

Lemma fetchAll_empty newInstance l r resp st :
  heap st !! l = Some (OQuery r) ->
  array_elems (heap st) resp = Some [] ->
  exists st' msg d,
    fetchAll newInstance (Resolved resp) (VRef l) st
    = Some (Rejected (TypeError msg), st') /\
    calls st' = calls st ++ [Call (driver r) "fetchAll" [d]].
Proof.
  intros Hl Hresp.
  assert (Hlive : live (heap st) resp).
  { destruct resp as [| | | | | |x]; try exact I. simpl in *.
    destruct (heap st !! x) eqn:Ex; [|discriminate].
    eapply lookup_lt_Some, Ex. }
  unfold fetchAll.
  rewrite (bind_run _ _ _ _ _ (this_query_run _ _ _ Hl)).
  destruct (assemble_run l r st Hl) as (st1 & ps & E & Hc & _ & Hf & _).
  rewrite (bind_run _ _ _ _ _ E), !(bind_run _ _ _ _ _ eq_refl).
  unfold hydrate_all.
  rewrite !bind_assoc, (bind_run _ _ _ _ _ eq_refl). simpl heap.
  rewrite (array_elems_agree (heap st)), Hresp
    by (intros x ->; apply Hf, Hlive).
  rewrite !bind_assoc, (bind_run _ _ _ _ _ eq_refl).
  cbn [map_outcomes].
  rewrite !bind_assoc, !(bind_run _ _ _ _ _ eq_refl).
  unfold loadRelated. rewrite !bind_assoc.
  erewrite bind_run
    by (apply this_query_run; simpl; apply lookup_grown;
        rewrite Hf by (eapply lookup_lt_Some, Hl); exact Hl).
  unfold _keys.
  rewrite !bind_assoc, !(bind_run _ _ _ _ _ eq_refl).
  eexists _, _, _. split; [reflexivity|]. simpl. rewrite Hc. reflexivity.
Qed.

(** C4. On the code, when the driver's [fetch] resolves to an empty or
    absent result, [fetch()] is rejected with [ModelNotFound]. When the
    driver's [fetchAll] resolves to an empty sequence, [fetchAll()] is
    rejected too, with a [TypeError]: [loadRelated] hands the key array to
    the promise's [map] where the mapper belongs. *)
Theorem fetch_and_fetchAll_on_empty setData newInstance l r resp st :
  heap st !! l = Some (OQuery r) ->
  (live (heap st) resp -> _isEmpty (heap st) resp = true ->
   exists st' d,
     fetch setData (Resolved resp) (VRef l) st
     = Some (Rejected ModelNotFoundError, st') /\
     calls st' = calls st ++ [Call (driver r) "fetch" [d]]) /\
  (array_elems (heap st) resp = Some [] ->
   exists st' msg d,
     fetchAll newInstance (Resolved resp) (VRef l) st
     = Some (Rejected (TypeError msg), st') /\
     calls st' = calls st ++ [Call (driver r) "fetchAll" [d]]).
Proof.
  intros Hl. split.
  - apply fetch_empty, Hl.
  - apply fetchAll_empty, Hl.
Qed.

Lemma fetch_and_fetchAll_on_empty_witness :
  let stub := fun _ _ : value => ret (Resolved VUndefined) in
  (exists st' d,
      fetch stub (Resolved (VRef 6)) (VRef 5) driven_builder
      = Some (Rejected ModelNotFoundError, st') /\
      calls st' = calls driven_builder ++ [Call (VRef 0) "fetch" [d]]) /\
  (exists st' msg d,
      fetchAll stub (Resolved (VRef 6)) (VRef 5) driven_builder
      = Some (Rejected (TypeError msg), st') /\
      calls st' = calls driven_builder ++ [Call (VRef 0) "fetchAll" [d]]).
Proof.
  intros stub.
  destruct (fetch_and_fetchAll_on_empty stub stub 5 _ (VRef 6) driven_builder
              eq_refl) as [Hfetch HfetchAll].
  split.
  - apply Hfetch; [simpl; lia | reflexivity].
  - apply HfetchAll. reflexivity.
Defined.

(** A builder whose driver resolves [fetchAll] to an empty sequence:
    [fetchAll()] is rejected. *)
Example fetchAll_empty_rejected :
  result_of (fetchAll (fun _ _ => ret (Resolved VUndefined))
                      (Resolved (VRef 6)) (VRef 5)) driven_builder
  = Some (Rejected (TypeError "expecting a function")).
Proof. reflexivity. Qed.

(** ** Writing a map onto the condition tree *)

Lemma get_set_prop ps k v k0 :
  get_prop (set_prop ps k v) k0
  = if String.eqb k k0 then Some v else get_prop ps k0.
Proof.
  induction ps as [|[k' v'] ps IH]; simpl; [reflexivity|].
  destruct (String.eqb k' k) eqn:E.
  - apply String.eqb_eq in E. subst k'. simpl.
    destruct (String.eqb k k0); reflexivity.
  - simpl. destruct (String.eqb k' k0) eqn:E0; [|exact IH].
    apply String.eqb_eq in E0. subst k0.
    rewrite String.eqb_sym, E. reflexivity.
Qed.

Lemma get_prop_None ps k : k ∉ ps.*1 -> get_prop ps k = None.
Proof.
  induction ps as [|[k' v'] ps IH]; simpl; [reflexivity|].
  intros H. destruct (String.eqb k' k) eqn:E.
  - apply String.eqb_eq in E. subst k'. exfalso. apply H. left.
  - apply IH. intros Hin. apply H. right. exact Hin.
Qed.

Lemma get_merge_props source : forall target k,
  NoDup source.*1 ->
  get_prop (merge_props target source) k
  = match get_prop source k with
    | Some v => Some v
    | None => get_prop target k
    end.
Proof.
  induction source as [|[k1 v1] source IH]; intros target k Hnd;
    [reflexivity|].
  apply list.NoDup_cons in Hnd as [Hk1 Hnd].
  change (merge_props target ((k1, v1) :: source))
    with (merge_props (set_prop target k1 v1) source).
  rewrite IH by exact Hnd. rewrite get_set_prop. simpl.
  destruct (String.eqb k1 k) eqn:E; [|reflexivity].
  apply String.eqb_eq in E. subst k1.
  rewrite get_prop_None by exact Hk1. reflexivity.
Qed.

Lemma each_assign_merge o : forall kvs ps st,
  heap st !! o = Some (OObj ps) ->
  each kvs (fun kv => assign (VRef o) kv.1 kv.2) st
  = Some (tt, mkState (<[o:=OObj (merge_props ps kvs)]> (heap st)) (calls st)).
Proof.
  induction kvs as [|[k v] kvs IH]; intros ps st H.
  - simpl. rewrite list_insert_id by exact H. destruct st; reflexivity.
  - cbn [each].
    erewrite bind_run by (exact (assign_run _ _ k v _ H)).
    rewrite (IH (set_prop ps k v)).
    + simpl. rewrite list_insert_insert_eq. reflexivity.
    + simpl. apply list_lookup_insert_eq. eapply lookup_lt_Some, H.
Qed.

Lemma extend_run o ps source st :
  heap st !! o = Some (OObj ps) ->
  _extend (VRef o) source st
  = Some (VRef o,
          mkState (<[o:=OObj (merge_props ps (all_props (heap st) source))]>
                     (heap st)) (calls st)).
Proof.
  intros H. unfold _extend.
  rewrite (bind_run _ _ _ _ _ eq_refl).
  rewrite (bind_run _ _ _ _ _ (each_assign_merge o _ ps st H)).
  reflexivity.
Qed.

Lemma where_map_run l r w wps k kps st :
  heap st !! l = Some (OQuery r) ->
  _where r = VRef w ->
  heap st !! w = Some (OObj wps) ->
  heap st !! k = Some (OObj kps) ->
  where_ (VRef l) [VRef k] st
  = Some (VRef l,
          mkState (<[w:=OObj (merge_props wps kps)]> (heap st ++ [OObj []]))
                  (calls st)).
Proof.
  intros Hl Hw Hwps Hk. unfold where_. simpl length. cbv beta iota.
  unfold arg; simpl nth.
  rewrite (bind_run _ _ _ _ _ eq_refl).
  unfold where_case1. simpl _isObject. cbv iota.
  rewrite (bind_run _ _ _ _ _ eq_refl).
  erewrite bind_run; [|apply this_query_run; simpl; apply lookup_grown, Hl].
  rewrite Hw.
  erewrite bind_run
    by (apply (extend_run w wps); simpl; apply lookup_grown, Hwps).
  simpl. erewrite lookup_grown by exact Hk. reflexivity.
Qed.

Lemma where_tree_written l r w wps ps (h : list object) :
  h !! l = Some (OQuery r) ->
  _where r = VRef w ->
  h !! w = Some (OObj wps) ->
  where_tree (<[w:=OObj ps]> h) l = Some ps.
Proof.
  intros Hl Hw Hwps. unfold where_tree.
  assert (Hne : l <> w) by (intros ->; congruence).
  rewrite list_lookup_insert_ne by congruence. rewrite Hl, Hw.
  rewrite list_lookup_insert_eq by (eapply lookup_lt_Some, Hwps).
  reflexivity.
Qed.

(** X1. [where(map)] writes the entries of the map onto the condition
    tree: afterwards a key of the map has the value the map gives it,
    whatever the tree held for it, every other key has the value it had,
    and no object but the tree has changed. *)
Theorem where_map_merges l r w wps k kps st :
  heap st !! l = Some (OQuery r) ->
  _where r = VRef w ->
  heap st !! w = Some (OObj wps) ->
  heap st !! k = Some (OObj kps) ->
  NoDup kps.*1 ->
  exists st' tree,
    where_ (VRef l) [VRef k] st = Some (VRef l, st') /\
    where_tree (heap st') l = Some tree /\
    (forall key,
       get_prop tree key = match get_prop kps key with
                           | Some v => Some v
                           | None => get_prop wps key
                           end) /\
    (forall x, x < length (heap st) -> x <> w ->
               heap st' !! x = heap st !! x).
Proof.
  intros Hl Hw Hwps Hk Hnd.
  eexists _, (merge_props wps kps).
  split; [exact (where_map_run l r w wps k kps st Hl Hw Hwps Hk)|].
  simpl. split; [|split].
  - eapply where_tree_written; [| exact Hw |]; apply lookup_grown; eassumption.
  - intros key. apply get_merge_props, Hnd.
  - intros x Hx Hxw. rewrite list_lookup_insert_ne by congruence.
    apply lookup_app_l, Hx.
Qed.

Lemma where_map_merges_witness :
  exists st' tree,
    where_ (VRef 4) [VRef 7] Conditions.written = Some (VRef 4, st') /\
    where_tree (heap st') 4 = Some tree /\
    (forall key,
       get_prop tree key = match get_prop [("a", VNum (Int 3))] key with
                           | Some v => Some v
                           | None =>
                               get_prop [("a", VNum (Int 1));
                                         ("b", VNum (Int 2))] key
                           end) /\
    (forall x, x < length (heap Conditions.written) -> x <> 0 ->
               heap st' !! x = heap Conditions.written !! x).
Proof.
  apply (where_map_merges 4 _ 0 _ 7 _ Conditions.written
           eq_refl eq_refl eq_refl eq_refl).
  simpl. apply NoDup_singleton.
Defined.

(** [where({a: 1, b: 2})] and then [where({a: 3})]: the tree is
    [{a: 3, b: 2}]. *)
Example where_map_overwrites :
  where_tree (heap (state_after (where_ (VRef 4) [VRef 7]) Conditions.written))
             4
  = Some [("a", VNum (Int 3)); ("b", VNum (Int 2))].
Proof. reflexivity. Qed.

(** X2. [orWhere(c1, .., cn)] puts under ["$or"] a new sequence holding
    exactly the given clauses, in the order given: what the tree held under
    ["$or"] before is replaced, not extended, and every other key keeps its
    value. *)
Theorem orWhere_replaces_or l r w wps clauses st :
  heap st !! l = Some (OQuery r) ->
  _where r = VRef w ->
  heap st !! w = Some (OObj wps) ->
  exists st' tree c,
    orWhere (VRef l) clauses st = Some (VRef l, st') /\
    where_tree (heap st') l = Some tree /\
    get_prop tree "$or" = Some (VRef c) /\
    length (heap st) <= c /\
    heap st' !! c = Some (OArr clauses) /\
    (forall key, key <> "$or" -> get_prop tree key = get_prop wps key) /\
    (forall x, x < length (heap st) -> x <> w ->
               heap st' !! x = heap st !! x).
Proof.
  intros Hl Hw Hwps. pose proof (lookup_lt_Some _ _ _ Hwps) as Hlt.
  unfold orWhere, _toArray.
  rewrite (bind_run _ _ _ _ _ eq_refl), (bind_run _ _ _ _ _ eq_refl).
  simpl heap. simpl calls.
  erewrite (where_map_run l r w wps _ [("$or", VRef (length (heap st)))]);
    [| simpl; rewrite <- app_assoc; apply lookup_grown, Hl
     | exact Hw
     | simpl; rewrite <- app_assoc; apply lookup_grown, Hwps
     | simpl; rewrite length_app; simpl;
       replace (length (heap st) + 1) with (length (heap st ++ [OArr clauses]))
         by (rewrite length_app; reflexivity);
       apply lookup_fresh ].
  eexists _, _, (length (heap st)). split; [reflexivity|]. simpl.
  rewrite <- !app_assoc. simpl.
  split; [|split; [|split; [|split; [|split]]]].
  - eapply where_tree_written; [| exact Hw |]; apply lookup_grown; eassumption.
  - unfold merge_props. simpl. rewrite get_set_prop. reflexivity.
  - lia.
  - rewrite list_lookup_insert_ne by lia.
    rewrite lookup_app_r, Nat.sub_diag by lia. reflexivity.
  - intros key Hkey. unfold merge_props. simpl. rewrite get_set_prop.
    destruct (String.eqb "$or" key) eqn:E; [|reflexivity].
    apply String.eqb_eq in E. congruence.
  - intros x Hx Hxw. rewrite list_lookup_insert_ne by congruence.
    apply lookup_app_l, Hx.
Qed.

Lemma orWhere_replaces_or_witness :
  exists st' tree c,
    orWhere (VRef 4) [VRef 5; VRef 7] Conditions.written
    = Some (VRef 4, st') /\
    where_tree (heap st') 4 = Some tree /\
    get_prop tree "$or" = Some (VRef c) /\
    length (heap Conditions.written) <= c /\
    heap st' !! c = Some (OArr [VRef 5; VRef 7]) /\
    (forall key, key <> "$or" ->
                 get_prop tree key
                 = get_prop [("a", VNum (Int 1)); ("b", VNum (Int 2))] key) /\
    (forall x, x < length (heap Conditions.written) -> x <> 0 ->
               heap st' !! x = heap Conditions.written !! x).
Proof.
  exact (orWhere_replaces_or 4 _ 0 _ [VRef 5; VRef 7] Conditions.written
           eq_refl eq_refl eq_refl).
Defined.

(** ** Calls of [select] and of [order] compose *)

Lemma accumulated_twice cur a b :
  accumulated (accumulated cur a) b = accumulated cur (a ++ b).
Proof.
  rewrite (accumulated_adds (accumulated cur a)) by apply accumulated_NoDup.
  unfold accumulated at 3, uniq_elems.
  rewrite app_assoc, fold_left_app.
  apply eq_sym, uniq_from_newly_added.
Qed.

Lemma newly_added_present zs : forall acc : list value,
  (forall x, x ∈ zs -> x ∈ acc) -> newly_added acc zs = [].
Proof.
  induction zs as [|z zs IH]; intros acc Hacc; [reflexivity|].
  simpl. rewrite bool_decide_eq_true_2 by (apply Hacc; left).
  apply IH. intros y Hy. apply Hacc. right. exact Hy.
Qed.

Lemma accumulated_again cur a :
  accumulated (accumulated cur a) a = accumulated cur a.
Proof.
  rewrite (accumulated_adds (accumulated cur a)) by apply accumulated_NoDup.
  rewrite newly_added_present; [apply app_nil_r|].
  intros x Hx. apply accumulated_elem. right. exact Hx.
Qed.

(** X3. Two calls of [select] leave the fields that one call with all the
    arguments leaves, and so do two calls of [order]; in particular a call
    repeated with the same arguments changes nothing in the fields. *)
Theorem select_order_compose l cur ocur xs ys st :
  select_fields (heap st) l = Some cur ->
  order_fields (heap st) l = Some ocur ->
  exists s1 s2 o1 o2,
    (run select (VRef l) (map VStr xs) in select (VRef l) (map VStr ys)) st
    = Some (VRef l, s1) /\
    select (VRef l) (map VStr (xs ++ ys)) st = Some (VRef l, s2) /\
    select_fields (heap s1) l = select_fields (heap s2) l /\
    select_fields (heap s2) l = Some (accumulated cur (map VStr (xs ++ ys))) /\
    (run order (VRef l) (map VStr xs) in order (VRef l) (map VStr ys)) st
    = Some (VRef l, o1) /\
    order (VRef l) (map VStr (xs ++ ys)) st = Some (VRef l, o2) /\
    order_fields (heap o1) l = order_fields (heap o2) l /\
    order_fields (heap o2) l = Some (accumulated ocur (map VStr (xs ++ ys))) /\
    accumulated (accumulated cur (map VStr xs)) (map VStr xs)
    = accumulated cur (map VStr xs).
Proof.
  intros Hs Ho.
  destruct (select_variadic l cur xs st Hs) as (s & E & Hs').
  destruct (select_variadic l _ ys s Hs') as (s1 & E1 & Hs1).
  destruct (select_variadic l cur (xs ++ ys) st Hs) as (s2 & E2 & Hs2).
  destruct (order_variadic l ocur xs st Ho) as (o & F & Ho').
  destruct (order_variadic l _ ys o Ho') as (o1 & F1 & Ho1).
  destruct (order_variadic l ocur (xs ++ ys) st Ho) as (o2 & F2 & Ho2).
  exists s1, s2, o1, o2.
  rewrite (bind_run _ _ _ _ _ E), (bind_run _ _ _ _ _ F).
  rewrite accumulated_twice, <- map_app in Hs1, Ho1.
  repeat split; try assumption; try congruence.
  apply accumulated_again.
Qed.

Lemma select_order_compose_witness :
  exists s1 s2 o1 o2,
    (run select (VRef 4) (map VStr ["a"; "b"]) in
     select (VRef 4) (map VStr ["b"; "c"])) fresh_builder
    = Some (VRef 4, s1) /\
    select (VRef 4) (map VStr (["a"; "b"] ++ ["b"; "c"])) fresh_builder
    = Some (VRef 4, s2) /\
    select_fields (heap s1) 4 = select_fields (heap s2) 4 /\
    select_fields (heap s2) 4
    = Some (accumulated [] (map VStr (["a"; "b"] ++ ["b"; "c"]))) /\
    (run order (VRef 4) (map VStr ["a"; "b"]) in
     order (VRef 4) (map VStr ["b"; "c"])) fresh_builder
    = Some (VRef 4, o1) /\
    order (VRef 4) (map VStr (["a"; "b"] ++ ["b"; "c"])) fresh_builder
    = Some (VRef 4, o2) /\
    order_fields (heap o1) 4 = order_fields (heap o2) 4 /\
    order_fields (heap o2) 4
    = Some (accumulated [] (map VStr (["a"; "b"] ++ ["b"; "c"]))) /\
    accumulated (accumulated [] (map VStr ["a"; "b"])) (map VStr ["a"; "b"])
    = accumulated [] (map VStr ["a"; "b"]).
Proof.
  exact (select_order_compose 4 [] [] ["a"; "b"] ["b"; "c"] fresh_builder
           eq_refl eq_refl).
Defined.

(** ** Builders share nothing *)

(** X4. A builder made by the constructor shares no container with a
    builder that exists already. Whatever constraint calls are made on the
    older one, the new one stays as the constructor left it, with an empty
    condition tree and no field; whatever calls are made on the new one, no
    object that existed before it was made changes. *)
Theorem new_builder_is_independent l w d cs cs' st q st1 st2 st2' :
  builder_at l w (heap st) ->
  Query_new [d] st = Some (q, st1) ->
  constrain_all (VRef l) cs st1 = Some (tt, st2) ->
  constrain_all q cs' st1 = Some (tt, st2') ->
  (exists l', q = VRef l' /\
     heap st2 !! l' = Some (OQuery (fresh_query (length (heap st)) d)) /\
     where_tree (heap st2) l' = Some [] /\
     select_fields (heap st2) l' = Some [] /\
     order_fields (heap st2) l' = Some []) /\
  (forall x, x < length (heap st) -> heap st2' !! x = heap st !! x).
Proof.
  intros Hb Hq Hcs Hcs'.
  pose proof Hb as (r & wps & Hl & Hw & Hwo).
  pose proof (lookup_lt_Some _ _ _ Hl) as Hllt.
  pose proof (lookup_lt_Some _ _ _ Hwo) as Hwlt.
  rewrite Query_new_run in Hq. cbv zeta in Hq. injection Hq as <- <-.
  set (n := length (heap st)) in *.
  set (st1 := mkState _ _) in *.
  assert (Hlen1 : length (heap st1) = n + 5).
  { subst st1. simpl. rewrite length_app. reflexivity. }
  assert (Hnew : forall i o,
             [OObj []; OObj []; OArr []; OArr [];
              OQuery (fresh_query n d)] !! i = Some o ->
             heap st1 !! (n + i) = Some o).
  { intros i o Hi. subst st1. simpl. rewrite lookup_app_r by lia.
    replace (n + i - length (heap st)) with i by (subst n; lia). exact Hi. }
  split.
  - assert (Hb1 : builder_at l w (heap st1)).
    { exists r, wps. subst st1. simpl.
      split; [apply lookup_grown, Hl|].
      split; [exact Hw | apply lookup_grown, Hwo]. }
    destruct (keeps_builder_constrain_all l w cs st1 tt st2 Hb1 Hcs)
      as [[_ Hf] _].
    assert (Hkeep : forall i o,
               [OObj []; OObj []; OArr []; OArr [];
                OQuery (fresh_query n d)] !! i = Some o ->
               heap st2 !! (n + i) = Some o).
    { intros i o Hi. pose proof (lookup_lt_Some _ _ _ Hi) as Hilt.
      simpl in Hilt. rewrite Hf by lia. apply Hnew, Hi. }
    exists (n + 4). split; [f_equal; lia|].
    pose proof (Hkeep 4 _ eq_refl) as H4.
    pose proof (Hkeep 0 _ eq_refl) as H0.
    pose proof (Hkeep 2 _ eq_refl) as H2.
    pose proof (Hkeep 3 _ eq_refl) as H3.
    replace (n + 0) with n in H0 by lia.
    unfold where_tree, select_fields, order_fields. rewrite H4. simpl.
    rewrite H0.
    replace (S (S n)) with (n + 2) by lia. rewrite H2.
    replace (S (n + 2)) with (n + 3) by lia. rewrite H3.
    repeat split; reflexivity.
  - assert (Hb1 : builder_at (S (S (S (S n)))) n (heap st1)).
    { exists (fresh_query n d), [].
      replace (S (S (S (S n)))) with (n + 4) by lia.
      split; [apply Hnew; reflexivity|]. split; [reflexivity|].
      replace n with (n + 0) at 1 by lia. apply Hnew. reflexivity. }
    destruct (keeps_builder_constrain_all _ _ cs' st1 tt st2' Hb1 Hcs')
      as [[_ Hf] _].
    intros x Hx. rewrite Hf by lia.
    subst st1. simpl. apply lookup_app_l. exact Hx.
Qed.

Lemma new_builder_is_independent_witness :
  (exists l', VRef 12 = VRef l' /\
     heap Pair.first_constrained !! l'
     = Some (OQuery (fresh_query (length (heap Conditions.written))
                                 (VStr "d"))) /\
     where_tree (heap Pair.first_constrained) l' = Some [] /\
     select_fields (heap Pair.first_constrained) l' = Some [] /\
     order_fields (heap Pair.first_constrained) l' = Some []) /\
  (forall x, x < length (heap Conditions.written) ->
             heap Pair.second_constrained !! x = heap Conditions.written !! x).
Proof.
  apply (new_builder_is_independent 4 0 (VStr "d") Pair.calls_made
           Pair.calls_made Conditions.written (VRef 12) Pair.made
           Pair.first_constrained Pair.second_constrained).
  - eexists _, _. repeat split; reflexivity.
  - reflexivity.
  - reflexivity.
  - reflexivity.
Defined.

(** The constraint calls of the example did change the builder they were
    made on. *)
Example pair_first_constrained :
  where_tree (heap Pair.first_constrained) 4
  = Some [("a", VNum (Int 3)); ("b", VNum (Int 2))] /\
  select_fields (heap Pair.first_constrained) 4 = Some [VStr "x"] /\
  select_fields (heap Pair.second_constrained) 12 = Some [VStr "x"] /\
  where_tree (heap Pair.second_constrained) 12 = Some [("a", VNum (Int 3))].
Proof. repeat split; reflexivity. Qed.

(** ** What a descriptor holds *)

Lemma all_props_alloc_empty h v :
  all_props (h ++ [OObj []]) v = all_props h v.
Proof.
  destruct v as [| | | | | |x]; try reflexivity. simpl.
  destruct (decide (x < length h)) as [Hx|Hx].
  - rewrite lookup_app_l by exact Hx. reflexivity.
  - rewrite lookup_app_r by lia.
    replace (h !! x) with (@None object)
      by (symmetry; apply lookup_ge_None; lia).
    destruct (x - length h) as [|n]; reflexivity.
Qed.

Lemma all_props_agree h h' v :
  (forall x, v = VRef x -> h' !! x = h !! x) ->
  all_props h' v = all_props h v.
Proof.
  intros H. destruct v as [| | | | | |x]; try reflexivity.
  simpl. rewrite (H x eq_refl). reflexivity.
Qed.









(** ** Declaring the relations to load *)

Lemma get_merge_names (v : value) names : forall ps k,
  get_prop (merge_props ps (map (fun name => (name, v)) names)) k
  = if bool_decide (k ∈ names) then Some v else get_prop ps k.
Proof.
  induction names as [|name names IH]; intros ps k; [reflexivity|].
  change (merge_props ps (map (fun name => (name, v)) (name :: names)))
    with (merge_props (set_prop ps name v)
                      (map (fun name => (name, v)) names)).
  rewrite IH, get_set_prop.
  destruct (bool_decide (k ∈ names)) eqn:E.
  - apply bool_decide_eq_true_1 in E.
    rewrite bool_decide_eq_true_2 by (right; exact E). reflexivity.
  - apply bool_decide_eq_false_1 in E.
    destruct (String.eqb name k) eqn:Ek.
    + apply String.eqb_eq in Ek. subst k.
      rewrite bool_decide_eq_true_2 by left. reflexivity.
    + apply String.eqb_neq in Ek.
      rewrite bool_decide_eq_false_2; [reflexivity|].
      intros [->|H]%elem_of_cons; [congruence | contradiction].
Qed.

Lemma each_with_names o : forall names ps st,
  heap st !! o = Some (OObj ps) ->
  each (map VStr names)
       (fun value =>
          match value with
          | VStr name => assign (VRef o) name (VFunc "noop")
          | _ => run _extend (VRef o) value in ret tt
          end) st
  = Some (tt,
          mkState
            (<[o:=OObj (merge_props ps (map (fun name => (name, VFunc "noop"))
                                            names))]> (heap st))
            (calls st)).
Proof.
  induction names as [|name names IH]; intros ps st H.
  - simpl. rewrite list_insert_id by exact H. destruct st; reflexivity.
  - cbn [each map].
    erewrite bind_run by (exact (assign_run _ _ name _ _ H)).
    rewrite (IH (set_prop ps name (VFunc "noop"))).
    + simpl. rewrite list_insert_insert_eq. reflexivity.
    + simpl. apply list_lookup_insert_eq. eapply lookup_lt_Some, H.
Qed.

(** X6. [with(name1, .., namen)] replaces the declaration the builder
    held: [_rels] becomes a new object whose keys are exactly the given
    names, each with the customization that does nothing. Nothing of the
    earlier declaration is carried over, and no other object changes. *)
Theorem with_replaces_declaration l r names st :
  heap st !! l = Some (OQuery r) ->
  exists st' rels,
    with_ (VRef l) (map VStr names) st = Some (VRef l, st') /\
    heap st' !! l = Some (OQuery (set_rels (VRef (length (heap st))) r)) /\
    heap st' !! length (heap st) = Some (OObj rels) /\
    (forall k, get_prop rels k
               = if bool_decide (k ∈ names) then Some (VFunc "noop")
                 else None) /\
    (forall x, x < length (heap st) -> x <> l ->
               heap st' !! x = heap st !! x).
Proof.
  intros Hl. pose proof (lookup_lt_Some _ _ _ Hl) as Hlt.
  unfold with_.
  rewrite (bind_run _ _ _ _ _ eq_refl), (bind_run _ _ _ _ _ eq_refl).
  rewrite first_of_strings_not_array. cbn [negb]. unfold _toArray.
  rewrite (bind_run _ _ _ _ _ eq_refl), (bind_run _ _ _ _ _ eq_refl).
  simpl heap. rewrite array_elems_fresh.
  rewrite (bind_run _ _ _ _ _ eq_refl).
  erewrite bind_run
    by (apply (each_with_names _ _ []); simpl;
        apply lookup_grown, lookup_fresh).
  erewrite bind_run
    by (apply update_query_run; simpl;
        rewrite list_lookup_insert_ne by lia;
        rewrite <- app_assoc; apply lookup_grown, Hl).
  eexists _, _. split; [reflexivity|]. simpl.
  split; [|split; [|split]].
  - apply list_lookup_insert_eq.
    rewrite length_insert, !length_app. lia.
  - rewrite list_lookup_insert_ne by lia.
    apply list_lookup_insert_eq. rewrite !length_app. simpl. lia.
  - intros k. apply get_merge_names.
  - intros x Hx Hxl. rewrite !list_lookup_insert_ne by lia.
    rewrite <- app_assoc. apply lookup_app_l, Hx.
Qed.

Lemma with_replaces_declaration_witness :
  exists st' rels,
    with_ (VRef 4) (map VStr ["tags"; "author"]) fresh_builder
    = Some (VRef 4, st') /\
    heap st' !! 4
    = Some (OQuery (set_rels (VRef (length (heap fresh_builder)))
                             (fresh_query 0 VUndefined))) /\
    heap st' !! length (heap fresh_builder) = Some (OObj rels) /\
    (forall k, get_prop rels k
               = if bool_decide (k ∈ ["tags"; "author"])
                 then Some (VFunc "noop") else None) /\
    (forall x, x < length (heap fresh_builder) -> x <> 4 ->
               heap st' !! x = heap fresh_builder !! x).
Proof.
  exact (with_replaces_declaration 4 _ ["tags"; "author"] fresh_builder
           eq_refl).
Defined.

(** [with('tags')] and then [with(['author'])]: only [author] is
    declared. *)
Example with_twice :
  let st := state_after
              (run with_ (VRef 4) [VStr "tags"] in
               let* names := alloc (OArr [VStr "author"]) in
               with_ (VRef 4) [names]) fresh_builder in
  exists r, heap st !! 4 = Some (OQuery r) /\
            own_props (heap st) (_rels r) = [("author", VFunc "noop")].
Proof. eexists. split; reflexivity. Qed.

(** ** The options of a subclass *)

Lemma each_invariant {A} (P : list A -> state -> Prop) (f : A -> M unit) xs :
  (forall done x rest st,
      xs = done ++ x :: rest -> P done st ->
      exists st', f x st = Some (tt, st') /\ P (done ++ [x]) st') ->
  forall st, P [] st ->
  exists st', each xs f st = Some (tt, st') /\ P xs st'.
Proof.
  intros Hstep.
  assert (H : forall todo done st,
             xs = done ++ todo -> P done st ->
             exists st', each todo f st = Some (tt, st') /\ P xs st').
  { induction todo as [|x todo IH]; intros done st Hxs HP.
    - exists st. rewrite app_nil_r in Hxs. subst done. auto.
    - destruct (Hstep done x todo st Hxs HP) as (s1 & E1 & HP1).
      destruct (IH (done ++ [x]) s1) as (st' & E & HP').
      { rewrite <- app_assoc. exact Hxs. }
      { exact HP1. }
      exists st'. cbn [each]. rewrite (bind_run _ _ _ _ _ E1). auto. }
  intros st HP. apply (H xs [] st); [reflexivity | exact HP].
Qed.

Lemma get_prop_app ps ps' k :
  get_prop (ps ++ ps') k
  = match get_prop ps k with
    | Some v => Some v
    | None => get_prop ps' k
    end.
Proof.
  induction ps as [|[k' v'] ps IH]; simpl; [reflexivity|].
  destruct (String.eqb k' k); [reflexivity | exact IH].
Qed.

Lemma NoDup_keys_fresh (done : props) k v rest :
  NoDup (done ++ (k, v) :: rest).*1 -> get_prop done k = None.
Proof.
  rewrite fmap_app. intros Hnd. apply list.NoDup_app in Hnd as (_ & Hd & _).
  apply get_prop_None. intros Hin. apply (Hd k Hin). left.
Qed.

Lemma each_by_key (obj : loc) ps iteratee st :
  heap st !! obj = Some (OObj ps) ->
  walked_by_key ps ->
  _each (VRef obj) iteratee st
  = each ps (fun kv => iteratee kv.2 kv.1) st.
Proof.
  intros H Hlen. unfold _each.
  rewrite (bind_run _ _ _ _ _ eq_refl).
  unfold member, own_props, all_props. rewrite H.
  destruct (get_prop ps "length") as [[| | |n| | |]|] eqn:E;
    try reflexivity.
  exfalso. exact (Hlen n E).
Qed.

Lemma attrs_merged_step n (h h' : list object) done name0 options rest
      declared inherited acc acc' :
  declared = done ++ (name0, options) :: rest ->
  NoDup declared.*1 ->
  attrs_merged n h done inherited acc ->
  (forall t, n < t -> t < length h -> h' !! t = h !! t) ->
  (forall name, name <> name0 -> get_prop acc' name = get_prop acc name) ->
  match options with
  | VFunc f =>
      exists t, get_prop acc' name0 = Some (VRef t) /\ n < t /\
                h' !! t = Some (OObj [("type", VFunc f)])
  | _ => get_prop acc' name0 = get_prop acc name0
  end ->
  attrs_merged n h' (done ++ [(name0, options)]) inherited acc'.
Proof.
  intros -> Hnd Hm Hh Hacc Hnew name. specialize (Hm name).
  rewrite get_prop_app.
  destruct (decide (name = name0)) as [->|Hne].
  - rewrite (NoDup_keys_fresh _ _ _ _ Hnd) in Hm |- *.
    simpl. rewrite String.eqb_refl.
    destruct options; try (rewrite Hnew; exact Hm). exact Hnew.
  - replace (get_prop [(name0, options)] name) with (@None value)
      by (simpl; apply String.eqb_neq in Hne;
          rewrite String.eqb_sym, Hne; reflexivity).
    rewrite (Hacc name Hne).
    destruct (get_prop done name) as [v|]; [|exact Hm].
    destruct v; try exact Hm.
    destruct Hm as (t & Ht & Hnt & Hlook). exists t.
    split; [exact Ht|]. split; [exact Hnt|].
    rewrite Hh; [exact Hlook | exact Hnt |].
    eapply lookup_lt_Some, Hlook.
Qed.

Lemma mergeAttributes_run a aps oldVal st :
  heap st !! a = Some (OObj aps) ->
  NoDup aps.*1 ->
  walked_by_key aps ->
  exists st' attrs,
    mergeAttributes (VRef a) oldVal st
    = Some (VRef (length (heap st)), st') /\
    length (heap st) < length (heap st') /\
    calls st' = calls st /\
    (forall x, x < length (heap st) -> heap st' !! x = heap st !! x) /\
    heap st' !! length (heap st) = Some (OObj attrs) /\
    attrs_merged (length (heap st)) (heap st') aps
                 (all_props (heap st) oldVal) attrs.
Proof.
  intros Ha Hnd Hlen. pose proof (lookup_lt_Some _ _ _ Ha) as Halt.
  unfold mergeAttributes.
  rewrite (bind_run _ _ _ _ _ eq_refl).
  erewrite bind_run by (apply (extend_run _ []); simpl; apply lookup_fresh).
  simpl heap. simpl calls. rewrite all_props_alloc_empty.
  set (n := length (heap st)).
  set (base := merge_props [] (all_props (heap st) oldVal)).
  set (s2 := mkState (<[n:=OObj base]> (heap st ++ [OObj []])) (calls st)).
  assert (Hlen2 : length (heap s2) = n + 1).
  { subst s2. simpl. rewrite length_insert, length_app. reflexivity. }
  assert (Ha2 : heap s2 !! a = Some (OObj aps)).
  { subst s2. simpl. rewrite list_lookup_insert_ne by (subst n; lia).
    apply lookup_grown, Ha. }
  assert (Hn2 : heap s2 !! n = Some (OObj base)).
  { subst s2. simpl. apply list_lookup_insert_eq.
    rewrite length_app. simpl. subst n. lia. }
  assert (Hf2 : forall x, x < n -> heap s2 !! x = heap st !! x).
  { intros x Hx. subst s2. simpl.
    rewrite list_lookup_insert_ne by (subst n; lia).
    apply lookup_app_l, Hx. }
  assert (Hc2 : calls s2 = calls st) by reflexivity.
  clearbody s2.
  destruct (each_invariant
              (fun done s =>
                 length (heap s2) <= length (heap s) /\
                 calls s = calls st /\
                 (forall x, x < length (heap s2) -> x <> n ->
                            heap s !! x = heap s2 !! x) /\
                 exists acc,
                   heap s !! n = Some (OObj acc) /\
                   attrs_merged n (heap s) done
                                (all_props (heap st) oldVal) acc)
              (fun kv : string * value =>
                 if _isFunction kv.2
                 then
                   let* t := alloc (OObj [("type", kv.2)]) in
                   assign (VRef n) kv.1 t
                 else ret tt)
              aps) with (st := s2) as (st' & E & HP).
  - intros done [name0 options] rest s Hxs (Hl & Hc & Hf & acc & Hacc & Hm).
    cbn [fst snd].
    destruct (_isFunction options) eqn:Hfun.
    + destruct options as [| | | | |f|]; try discriminate.
      rewrite (bind_run _ _ _ _ _ eq_refl).
      erewrite assign_run by (simpl; apply lookup_grown, Hacc).
      eexists. split; [reflexivity|]. simpl.
      split; [rewrite length_insert, length_app; lia|].
      split; [exact Hc|]. split.
      { intros x Hx Hxn. rewrite list_lookup_insert_ne by congruence.
        rewrite lookup_app_l by lia. apply Hf; assumption. }
      eexists. split.
      { apply list_lookup_insert_eq. rewrite length_app.
        apply lookup_lt_Some in Hacc. lia. }
      eapply attrs_merged_step; [exact Hxs | exact Hnd | exact Hm | | |].
      * intros t Hnt Ht. rewrite list_lookup_insert_ne by lia.
        apply lookup_app_l, Ht.
      * intros name Hne. rewrite get_set_prop.
        destruct (String.eqb name0 name) eqn:Ek; [|reflexivity].
        apply String.eqb_eq in Ek. congruence.
      * exists (length (heap s)).
        split; [rewrite get_set_prop, String.eqb_refl; reflexivity|].
        split; [lia|].
        rewrite list_lookup_insert_ne by lia. apply lookup_fresh.
    + exists s. split; [reflexivity|].
      split; [exact Hl|]. split; [exact Hc|]. split; [exact Hf|].
      exists acc. split; [exact Hacc|].
      eapply attrs_merged_step;
        [exact Hxs | exact Hnd | exact Hm | reflexivity | reflexivity |].
      destruct options; try reflexivity; discriminate.
  - split; [lia|]. split; [exact Hc2|]. split; [reflexivity|].
    exists base. split; [exact Hn2|]. intros name. reflexivity.
  - destruct HP as (Hl & Hc & Hf & attrs & Hattrs & Hm).
    exists st', attrs.
    erewrite bind_run
      by (rewrite (each_by_key a aps _ s2 Ha2 Hlen); exact E).
    split; [reflexivity|]. split; [lia|]. split; [exact Hc|].
    split; [|split; [exact Hattrs | exact Hm]].
    intros x Hx. rewrite Hf by lia. apply Hf2, Hx.
Qed.

(** X7. [mergeAttributes(newVal, oldVal)] returns a new object and leaves
    the two it is given as they are. An attribute that [newVal] declares by
    a type constructor is stored as [{type: constructor}]. Every other
    name is as in a copy of [oldVal]: the attributes of the parent class
    are inherited, and an attribute that [newVal] declares by anything but
    a function, such as a definition object, is not taken over. *)
Theorem mergeAttributes_normalizes a aps oldVal st :
  heap st !! a = Some (OObj aps) ->
  NoDup aps.*1 ->
  walked_by_key aps ->
  exists st' attrs,
    mergeAttributes (VRef a) oldVal st
    = Some (VRef (length (heap st)), st') /\
    heap st' !! length (heap st) = Some (OObj attrs) /\
    (forall x, x < length (heap st) -> heap st' !! x = heap st !! x) /\
    (forall name,
       match get_prop aps name with
       | Some (VFunc f) =>
           exists t, get_prop attrs name = Some (VRef t) /\
                     heap st' !! t = Some (OObj [("type", VFunc f)])
       | _ =>
           get_prop attrs name
           = get_prop (merge_props [] (all_props (heap st) oldVal)) name
       end).
Proof.
  intros Ha Hnd Hlen.
  destruct (mergeAttributes_run a aps oldVal st Ha Hnd Hlen)
    as (st' & attrs & E & _ & _ & Hf & Hattrs & Hm).
  exists st', attrs. repeat (split; [assumption|]).
  intros name. specialize (Hm name).
  destruct (get_prop aps name) as [v|]; [|exact Hm].
  destruct v; try exact Hm.
  destruct Hm as (t & Ht & _ & Hlook). exists t. auto.
Qed.

Lemma mergeAttributes_normalizes_witness :
  exists st' attrs,
    mergeAttributes (VRef 6) (VRef 1) Options.classes
    = Some (VRef (length (heap Options.classes)), st') /\
    heap st' !! length (heap Options.classes) = Some (OObj attrs) /\
    (forall x, x < length (heap Options.classes) ->
               heap st' !! x = heap Options.classes !! x) /\
    (forall name,
       match get_prop Options.declared_attributes name with
       | Some (VFunc f) =>
           exists t, get_prop attrs name = Some (VRef t) /\
                     heap st' !! t = Some (OObj [("type", VFunc f)])
       | _ =>
           get_prop attrs name
           = get_prop
               (merge_props [] (all_props (heap Options.classes) (VRef 1)))
               name
       end).
Proof.
  apply (mergeAttributes_normalizes 6 _ (VRef 1) Options.classes eq_refl).
  - apply (bool_decide_unpack _). vm_compute. exact I.
  - intros n. discriminate.
Defined.

(** The attributes of the example: [name] is inherited, [age] is
    normalized, and [score], declared with a definition object, is
    missing. *)
Example mergeAttributes_example :
  let st := state_after (mergeAttributes (VRef 6) (VRef 1)) Options.classes in
  heap st !! 9 = Some (OObj [("name", VRef 0); ("age", VRef 10)]) /\
  heap st !! 10 = Some (OObj [("type", VFunc "Number")]).
Proof. split; reflexivity. Qed.

Lemma attrs_merged_later n (h1 h2 : list object) declared inherited attrs :
  attrs_merged n h1 declared inherited attrs ->
  (forall t, n < t -> t < length h1 -> h2 !! t = h1 !! t) ->
  attrs_merged n h2 declared inherited attrs.
Proof.
  intros Hm Hh name. specialize (Hm name).
  destruct (get_prop declared name) as [v|]; [|exact Hm].
  destruct v; try exact Hm.
  destruct Hm as (t & Ht & Hnt & Hlook). exists t.
  split; [exact Ht|]. split; [exact Hnt|].
  rewrite Hh; [exact Hlook | exact Hnt | eapply lookup_lt_Some, Hlook].
Qed.

Lemma option_merged_later (h h1 h2 : list object) parent key val merged :
  option_merged h h1 parent key val merged ->
  (forall x, length h < x -> x < length h1 -> h2 !! x = h1 !! x) ->
  option_merged h h2 parent key val merged.
Proof.
  unfold option_merged. intros H Hh.
  destruct (String.eqb key "attributes"); [|exact H].
  destruct H as (a & declared & t & attrs & Hv & Ha & Hm & Ht & Hlook & Hattrs).
  exists a, declared, t, attrs.
  split; [exact Hv|]. split; [exact Ha|]. split; [exact Hm|].
  split; [exact Ht|]. split.
  - rewrite Hh; [exact Hlook | exact Ht | eapply lookup_lt_Some, Hlook].
  - eapply attrs_merged_later; [exact Hattrs|].
    intros t' Ht' Hlt. apply Hh; [lia | exact Hlt].
Qed.

Lemma get_copy_props ps k :
  NoDup ps.*1 -> get_prop (merge_props [] ps) k = get_prop ps k.
Proof.
  intros Hnd. rewrite get_merge_props by exact Hnd.
  destruct (get_prop ps k); reflexivity.
Qed.

(** X8. [mergeOptions(parent, child)] returns a new object and leaves the
    options of the parent class and those given for the subclass as they
    are. A key the subclass does not give has the value the parent class
    has for it. A key it gives has the given value, with two exceptions:
    [methods] and [statics] are stored as [undefined], and [attributes] is
    the object [mergeAttributes] makes of the given attributes and those of
    the parent class. *)
Theorem mergeOptions_inherits_and_overrides p pps c cps st :
  heap st !! p = Some (OObj pps) ->
  heap st !! c = Some (OObj cps) ->
  NoDup pps.*1 ->
  NoDup cps.*1 ->
  walked_by_key cps ->
  live (heap st) (default VUndefined (get_prop pps "attributes")) ->
  (forall v, get_prop cps "attributes" = Some v ->
             exists a aps, v = VRef a /\ heap st !! a = Some (OObj aps) /\
                           NoDup aps.*1 /\ walked_by_key aps) ->
  exists st' options,
    mergeOptions (VRef p) (VRef c) st
    = Some (VRef (length (heap st)), st') /\
    heap st' !! length (heap st) = Some (OObj options) /\
    (forall x, x < length (heap st) -> heap st' !! x = heap st !! x) /\
    (forall key,
       match get_prop cps key with
       | None => get_prop options key = get_prop pps key
       | Some val =>
           option_merged (heap st) (heap st') pps key val
                         (get_prop options key)
       end).
Proof.
  intros Hp Hc Hndp Hndc Hwalk Hlive Hattr.
  pose proof (lookup_lt_Some _ _ _ Hp) as Hplt.
  pose proof (lookup_lt_Some _ _ _ Hc) as Hclt.
  unfold mergeOptions.
  rewrite (bind_run _ _ _ _ _ eq_refl).
  erewrite bind_run by (apply (extend_run _ []); simpl; apply lookup_fresh).
  simpl heap. simpl calls. rewrite all_props_alloc_empty.
  replace (all_props (heap st) (VRef p)) with pps
    by (simpl; rewrite Hp; reflexivity).
  set (n := length (heap st)).
  set (s1 := mkState (<[n:=OObj (merge_props [] pps)]> (heap st ++ [OObj []]))
                     (calls st)).
  assert (Hlen1 : length (heap s1) = n + 1).
  { subst s1. simpl. rewrite length_insert, length_app. reflexivity. }
  assert (Hn1 : heap s1 !! n = Some (OObj (merge_props [] pps))).
  { subst s1. simpl. apply list_lookup_insert_eq.
    rewrite length_app. simpl. subst n. lia. }
  assert (Hf1 : forall x, x < n -> heap s1 !! x = heap st !! x).
  { intros x Hx. subst s1. simpl.
    rewrite list_lookup_insert_ne by (subst n; lia).
    apply lookup_app_l, Hx. }
  assert (Hc1 : calls s1 = calls st) by reflexivity.
  clearbody s1.
  destruct (each_invariant
              (fun done s =>
                 length (heap s1) <= length (heap s) /\
                 calls s = calls st /\
                 (forall x, x < n -> heap s !! x = heap st !! x) /\
                 exists acc,
                   heap s !! n = Some (OObj acc) /\
                   forall key,
                     match get_prop done key with
                     | None => get_prop acc key = get_prop pps key
                     | Some val =>
                         option_merged (heap st) (heap s) pps key val
                                       (get_prop acc key)
                     end)
              (fun kv : string * value =>
                 let* h := get_heap in
                 let* v := mergeField kv.1 kv.2 (member h (VRef n) kv.1) in
                 assign (VRef n) kv.1 v)
              cps) with (st := s1) as (st' & E & HP).
  - intros done [key0 val] rest s Hxs (Hl & Hcs & Hf & acc & Hacc & Hm).
    cbn [fst snd].
    pose proof Hndc as Hfresh. rewrite Hxs in Hfresh.
    apply NoDup_keys_fresh in Hfresh.
    assert (Hold : member (heap s) (VRef n) key0
                   = default VUndefined (get_prop pps key0)).
    { unfold member. simpl. rewrite Hacc.
      pose proof (Hm key0) as Hk. rewrite Hfresh in Hk. rewrite Hk.
      reflexivity. }
    assert (Hkeep : forall acc' (h' : list object),
               (forall key, key <> key0 ->
                            get_prop acc' key = get_prop acc key) ->
               (forall x, n < x -> x < length (heap s) ->
                          h' !! x = heap s !! x) ->
               option_merged (heap st) h' pps key0 val (get_prop acc' key0) ->
               forall key,
                 match get_prop (done ++ [(key0, val)]) key with
                 | None => get_prop acc' key = get_prop pps key
                 | Some val0 =>
                     option_merged (heap st) h' pps key val0
                                   (get_prop acc' key)
                 end).
    { intros acc' h' Hacc' Hh' Hnew key. rewrite get_prop_app.
      destruct (decide (key = key0)) as [->|Hne].
      - rewrite Hfresh. simpl. rewrite String.eqb_refl. exact Hnew.
      - replace (get_prop [(key0, val)] key) with (@None value)
          by (simpl; apply String.eqb_neq in Hne;
              rewrite String.eqb_sym, Hne; reflexivity).
        rewrite (Hacc' key Hne). specialize (Hm key).
        destruct (get_prop done key); [|exact Hm].
        eapply option_merged_later; [exact Hm|].
        intros x Hx Hxlt. apply Hh'; [exact Hx | exact Hxlt]. }
    assert (Hset : forall v key, key <> key0 ->
                     get_prop (set_prop acc key0 v) key = get_prop acc key).
    { intros v key Hne. rewrite get_set_prop.
      destruct (String.eqb key0 key) eqn:Ek; [|reflexivity].
      apply String.eqb_eq in Ek. congruence. }
    rewrite (bind_run _ _ _ _ _ eq_refl). rewrite Hold.
    unfold mergeField. destruct (String.eqb key0 "attributes") eqn:Eattr.
    + apply String.eqb_eq in Eattr. subst key0.
      destruct (Hattr val) as (a & aps & -> & Ha & Hnda & Hwa).
      { rewrite Hxs, get_prop_app, Hfresh. reflexivity. }
      pose proof (lookup_lt_Some _ _ _ Ha) as Halt.
      assert (Ha' : heap s !! a = Some (OObj aps))
        by (rewrite Hf by exact Halt; exact Ha).
      destruct (mergeAttributes_run a aps
                  (default VUndefined (get_prop pps "attributes")) s
                  Ha' Hnda Hwa)
        as (s' & attrs & E & Hlt' & Hc' & Hf' & Hattrs' & Hm').
      rewrite (bind_run _ _ _ _ _ E).
      assert (Hnlt : n < length (heap s)) by lia.
      erewrite assign_run by (rewrite Hf' by exact Hnlt; exact Hacc).
      eexists. split; [reflexivity|]. simpl.
      split; [rewrite length_insert; lia|].
      split; [congruence|]. split.
      { intros x Hx. rewrite list_lookup_insert_ne by lia.
        rewrite Hf' by lia. apply Hf, Hx. }
      eexists. split.
      { apply list_lookup_insert_eq. lia. }
      apply Hkeep.
      * apply Hset.
      * intros x Hx Hxlt. rewrite list_lookup_insert_ne by lia.
        apply Hf', Hxlt.
      * unfold option_merged. simpl String.eqb. cbv iota.
        exists a, aps, (length (heap s)), attrs.
        split; [reflexivity|]. split; [exact Ha|].
        split; [rewrite get_set_prop; reflexivity|].
        split; [fold n; lia|]. split.
        { rewrite list_lookup_insert_ne by lia. exact Hattrs'. }
        eapply attrs_merged_later.
        { replace (all_props (heap st)
                     (default VUndefined (get_prop pps "attributes")))
            with (all_props (heap s)
                    (default VUndefined (get_prop pps "attributes")));
            [exact Hm'|].
          apply all_props_agree. intros x Hx. rewrite Hx in Hlive.
          apply Hf. exact Hlive. }
        intros t Ht Htlt. apply list_lookup_insert_ne. lia.
    + set (v0 := if String.eqb key0 "methods" || String.eqb key0 "statics"
                 then VUndefined else val).
      exists (mkState (<[n:=OObj (set_prop acc key0 v0)]> (heap s)) (calls s)).
      split.
      { match goal with
        | |- bind ?m _ _ = _ =>
            replace m with (ret (A:=value) v0)
              by (subst v0;
                  destruct (String.eqb key0 "methods"
                            || String.eqb key0 "statics"); reflexivity)
        end.
        rewrite (bind_run _ _ _ _ _ eq_refl). apply assign_run, Hacc. }
      simpl.
      split; [rewrite length_insert; lia|].
      split; [exact Hcs|]. split.
      { intros x Hx. rewrite list_lookup_insert_ne by lia. apply Hf, Hx. }
      eexists. split.
      { apply list_lookup_insert_eq. lia. }
      apply Hkeep.
      * apply Hset.
      * intros x Hx Hxlt. apply list_lookup_insert_ne. lia.
      * unfold option_merged. rewrite Eattr, get_set_prop, String.eqb_refl.
        subst v0.
        destruct (String.eqb key0 "methods" || String.eqb key0 "statics");
          reflexivity.
  - split; [lia|]. split; [exact Hc1|]. split; [exact Hf1|].
    eexists. split; [exact Hn1|].
    intros key. simpl. apply get_copy_props, Hndp.
  - destruct HP as (Hl & Hcs & Hf & options & Hopt & Hm).
    exists st', options.
    assert (Hc1' : heap s1 !! c = Some (OObj cps))
      by (rewrite Hf1 by exact Hclt; exact Hc).
    change (truthy (VRef c)) with true. change (truthy (VRef p)) with true.
    cbn [negb].
    erewrite bind_run
      by (rewrite (each_by_key c cps _ s1 Hc1' Hwalk); exact E).
    split; [reflexivity|]. split; [exact Hopt|]. split; [exact Hf|].
    exact Hm.
Qed.

Lemma mergeOptions_inherits_and_overrides_witness :
  exists st' options,
    mergeOptions (VRef 4) (VRef 8) Options.classes
    = Some (VRef (length (heap Options.classes)), st') /\
    heap st' !! length (heap Options.classes) = Some (OObj options) /\
    (forall x, x < length (heap Options.classes) ->
               heap st' !! x = heap Options.classes !! x) /\
    (forall key,
       match get_prop Options.child_options key with
       | None => get_prop options key = get_prop Options.parent_options key
       | Some val =>
           option_merged (heap Options.classes) (heap st')
                         Options.parent_options key val
                         (get_prop options key)
       end).
Proof.
  apply (mergeOptions_inherits_and_overrides 4 Options.parent_options
           8 Options.child_options Options.classes eq_refl eq_refl).
  - apply (bool_decide_unpack _). vm_compute. exact I.
  - apply (bool_decide_unpack _). vm_compute. exact I.
  - intros n. discriminate.
  - simpl. lia.
  - intros v [= <-]. exists 6, Options.declared_attributes.
    split; [reflexivity|]. split; [reflexivity|]. split.
    + apply (bool_decide_unpack _). vm_compute. exact I.
    + intros n. discriminate.
Defined.

(** The options of the example subclass: the primary key and the statics
    of the parent class, the given source, [undefined] for the methods, and
    the merged attributes. *)
Example mergeOptions_example :
  let st := state_after (mergeOptions (VRef 4) (VRef 8)) Options.classes in
  heap st !! 9
  = Some (OObj [("pk", VStr "id"); ("methods", VUndefined);
                ("statics", VRef 3); ("attributes", VRef 10);
                ("source", VStr "users")]) /\
  heap st !! 10 = Some (OObj [("name", VRef 0); ("age", VRef 11)]) /\
  heap st !! 11 = Some (OObj [("type", VFunc "Number")]).
Proof. repeat split; reflexivity. Qed.

(** ** The write calls of a model *)

Lemma member_grown h ext m mo name :
  h !! m = Some (OModel mo) ->
  member (h ++ ext) (VRef m) name
  = default VUndefined (get_prop (m_enumerable mo) name).
Proof.
  intros H. unfold member. simpl. rewrite (lookup_grown _ ext _ _ H).
  reflexivity.
Qed.

Lemma lookup_fifth (h : list object) a b c d q :
  (h ++ [a; b; c; d; q]) !! S (S (S (S (length h)))) = Some q.
Proof.
  rewrite lookup_app_r by lia.
  replace (S (S (S (S (length h)))) - length h) with 4 by lia. reflexivity.
Qed.

(** One round of a write call of a model: the builder it makes has the
    model as driver, so the call comes back to the model, in a heap that has
    grown and with nothing added to the log. *)
Ltac write_round m mo st Hm Hf IH :=
  let Hmlt := fresh "Hmlt" in
  let Hq := fresh "Hq" in
  let s1 := fresh "s1" in
  let s2 := fresh "s2" in
  let ps := fresh "ps" in
  let E := fresh "E" in
  let Hc := fresh "Hc" in
  let Hlen := fresh "Hlen" in
  let Hfr := fresh "Hfr" in
  let Hlen1 := fresh "Hlen1" in
  let Hf1 := fresh "Hf1" in
  let Hc1 := fresh "Hc1" in
  let st' := fresh "st'" in
  let E' := fresh "E'" in
  let Hc' := fresh "Hc'" in
  let Hfr' := fresh "Hfr'" in
  let x := fresh "x" in
  let Hx := fresh "Hx" in
  pose proof (lookup_lt_Some _ _ _ Hm) as Hmlt;
  rewrite bind_assoc;
  rewrite (bind_run _ _ _ _ _ (this_model_run _ _ _ Hm));
  rewrite (bind_run _ _ _ _ _ (Query_new_run _ _)); cbv zeta;
  change (arg 0 [VRef m; m_driver mo]) with (VRef m);
  match goal with
  | |- context [mkState (heap st ++ [_; _; _; _; OQuery ?r]) _] =>
      pose proof (lookup_fifth (heap st) (OObj []) (OObj []) (OArr [])
                               (OArr []) (OQuery r)) as Hq;
      set (s1 := mkState (heap st ++ [OObj []; OObj []; OArr []; OArr [];
                                      OQuery r]) (calls st)) in *
  end;
  rewrite (bind_run _ _ _ _ _ (this_query_run _ _ s1 Hq));
  rewrite (bind_run _ _ _ _ _ eq_refl);
  simpl driver;
  match goal with
  | |- context [member (heap s1) (VRef m) ?name] =>
      replace (member (heap s1) (VRef m) name) with (Model_prototype name)
        by (subst s1; simpl heap; rewrite (member_grown _ _ m mo _ Hm), Hf;
            reflexivity)
  end;
  destruct (assemble_run _ _ s1 Hq) as (s2 & ps & E & Hc & Hlen & Hfr & _);
  rewrite (bind_run _ _ _ _ _ E);
  unfold Write.call_method; rewrite bool_decide_eq_true_2 by reflexivity;
  assert (Hlen1 : length (heap s1) = length (heap st) + 5)
    by (subst s1; simpl; rewrite length_app; reflexivity);
  assert (Hf1 : forall x, x < length (heap st) ->
                          heap s1 !! x = heap st !! x)
    by (intros x Hx; subst s1; simpl; apply lookup_app_l, Hx);
  assert (Hc1 : calls s1 = calls st) by reflexivity;
  cbv zeta in Hlen, Hfr; clearbody s1;
  match goal with
  | |- exists st', ?f ?a s2 = _ /\ _ =>
      destruct (IH a s2) as (st' & E' & Hc' & Hfr');
      [rewrite Hfr by lia; rewrite Hf1 by exact Hmlt; exact Hm|]
  end;
  exists st'; split; [exact E'|]; split; [congruence|];
  intros x Hx; rewrite Hfr' by lia; rewrite Hfr by lia;
  apply Hf1, Hx.

Lemma Model_insert_deeper m mo depth :
  get_prop (m_enumerable mo) "insert" = Some (Model_prototype "insert") ->
  forall arguments st,
    heap st !! m = Some (OModel mo) ->
    exists st',
      Write.Model_insert depth (VRef m) arguments st = Some (Deeper, st') /\
      calls st' = calls st /\
      (forall x, x < length (heap st) -> heap st' !! x = heap st !! x).
Proof.
  intros Hf. induction depth as [|depth IH]; intros arguments st Hm.
  - exists st. repeat split; reflexivity.
  - cbn [Write.Model_insert]. unfold newQuery, Write.Query_insert.
    write_round m mo st Hm Hf IH.
Qed.

Lemma Model_update_deeper m mo depth :
  get_prop (m_enumerable mo) "update" = Some (Model_prototype "update") ->
  forall arguments st,
    heap st !! m = Some (OModel mo) ->
    exists st',
      Write.Model_update depth (VRef m) arguments st = Some (Deeper, st') /\
      calls st' = calls st /\
      (forall x, x < length (heap st) -> heap st' !! x = heap st !! x).
Proof.
  intros Hf. induction depth as [|depth IH]; intros arguments st Hm.
  - exists st. repeat split; reflexivity.
  - cbn [Write.Model_update]. unfold newQuery, Write.Query_update.
    write_round m mo st Hm Hf IH.
Qed.

Lemma Model_destroy_deeper m mo depth :
  get_prop (m_enumerable mo) "destroy" = Some (Model_prototype "destroy") ->
  forall arguments st,
    heap st !! m = Some (OModel mo) ->
    exists st',
      Write.Model_destroy depth (VRef m) arguments st = Some (Deeper, st') /\
      calls st' = calls st /\
      (forall x, x < length (heap st) -> heap st' !! x = heap st !! x).
Proof.
  intros Hf. induction depth as [|depth IH]; intros arguments st Hm.
  - exists st. repeat split; reflexivity.
  - cbn [Write.Model_destroy]. unfold newQuery, Write.Query_destroy.
    write_round m mo st Hm Hf IH.
Qed.

(** X9. The write calls of a model never reach a storage driver. For a
    model whose [insert], [update] and [destroy] are those of
    [Model.prototype], each of them makes a builder with [newQuery()],
    whose driver is the model itself, and calls the method of the same name
    on it; that method calls the driver's, which is the model's again.
    Whatever nesting depth is allowed, the run uses it up, and nothing is
    ever added to the log of driver calls. *)
Theorem model_writes_never_reach_a_driver m mo depth cb st :
  heap st !! m = Some (OModel mo) ->
  Forall (fun name =>
            get_prop (m_enumerable mo) name = Some (Model_prototype name))
         write_calls ->
  exists s1 s2 s3,
    Write.Model_insert depth (VRef m) [cb] st = Some (Deeper, s1) /\
    calls s1 = calls st /\
    Write.Model_update depth (VRef m) [cb] st = Some (Deeper, s2) /\
    calls s2 = calls st /\
    Write.Model_destroy depth (VRef m) [cb] st = Some (Deeper, s3) /\
    calls s3 = calls st.
Proof.
  intros Hm Hf. rewrite list.Forall_forall in Hf.
  assert (Hin : forall name, In name write_calls ->
                  get_prop (m_enumerable mo) name
                  = Some (Model_prototype name)).
  { intros name H. apply Hf, list_elem_of_In, H. }
  destruct (Model_insert_deeper m mo depth
              (Hin "insert" ltac:(simpl; tauto)) [cb] st Hm)
    as (s1 & E1 & H1 & _).
  destruct (Model_update_deeper m mo depth
              (Hin "update" ltac:(simpl; tauto)) [cb] st Hm)
    as (s2 & E2 & H2 & _).
  destruct (Model_destroy_deeper m mo depth
              (Hin "destroy" ltac:(simpl; tauto)) [cb] st Hm)
    as (s3 & E3 & H3 & _).
  exists s1, s2, s3. auto 10.
Qed.

Lemma model_writes_never_reach_a_driver_witness :
  exists s1 s2 s3,
    Write.Model_insert 25 (VRef 0) [VFunc "cb"] Stored.models
    = Some (Deeper, s1) /\
    calls s1 = calls Stored.models /\
    Write.Model_update 25 (VRef 0) [VFunc "cb"] Stored.models
    = Some (Deeper, s2) /\
    calls s2 = calls Stored.models /\
    Write.Model_destroy 25 (VRef 0) [VFunc "cb"] Stored.models
    = Some (Deeper, s3) /\
    calls s3 = calls Stored.models.
Proof.
  apply (model_writes_never_reach_a_driver 0 Stored.instance 25 (VFunc "cb")
           Stored.models eq_refl).
  repeat constructor.
Defined.



(** ** The constraints of a relation that is loaded on its own *)

(** X11. For every relation whose local key is a name and whose related
    key name is a string, an [_applyConstraints] that returns has changed no
    object that was there before the call: the builder of the relation and
    its condition tree are as they were, as after
    [_applyEagerConstraints]. *)
Theorem constraints_leave_query_unconstrained this lk rl rm pk st st' :
  BelongsToMany.localKey this = VStr lk ->
  BelongsToMany.related this = VRef rl ->
  heap st !! rl = Some (OModel rm) ->
  m_pk rm = VStr pk ->
  BelongsToMany._applyConstraints this st = Some (tt, st') ->
  (forall x, x < length (heap st) -> heap st' !! x = heap st !! x) /\
  (forall ql ps,
     BelongsToMany.query this = VRef ql ->
     where_tree (heap st) ql = Some ps ->
     where_tree (heap st') ql = Some ps).
Proof.
  intros Hlk Hrel Hrl Hpk E.
  assert (Hframe : forall x, x < length (heap st) ->
                             heap st' !! x = heap st !! x).
  { unfold BelongsToMany._applyConstraints in E. rewrite Hrel in E.
    apply bind_Some in E as (other & s0 & E0 & E).
    destruct (getKeyName_Some _ _ _ _ _ Hrl E0) as [-> ->]. rewrite Hpk in E.
    apply bind_Some in E as (subQuery & s1 & E1 & E).
    destruct (newPivotQuery_fresh _ _ _ _ _ Hlk E1)
      as (-> & G1 & Hq & Hw & _).
    assert (Hb1 : builder_at (S (S (S (S (length (heap st))))))
                             (length (heap st)) (heap s1)).
    { eexists _, _. split; [exact Hq|]. split; [reflexivity | exact Hw]. }
    apply bind_Some in E as (sel & s2 & E2 & E).
    pose proof (select_returns_this _ _ _ _ _ E2) as ->.
    destruct (keeps_builder_constrain _ _ (CSelect _) _ _ _ Hb1 E2)
      as [T2 Hb2].
    apply bind_Some in E as (d & s3 & E3 & E).
    pose proof (distinct_returns_this _ _ _ _ E3) as ->.
    destruct (keeps_builder_constrain _ _ CDistinct _ _ _ Hb2 E3)
      as [T3 Hb3].
    apply bind_Some in E as (w & s4 & E4 & E).
    pose proof (where_field_grows _ pk [VStr "$in"; _] _ _ _ E4) as G4.
    apply ret_Some in E as [_ ->].
    destruct G1 as (L1 & F1 & _), T2 as (L2 & F2), T3 as (L3 & F3),
             G4 as (_ & F4 & _).
    intros x Hx.
    rewrite F4, F3, F2, F1 by lia. reflexivity. }
  split; [exact Hframe|].
  intros ql ps _. apply where_tree_agree, Hframe.
Qed.

Lemma constraints_leave_query_unconstrained_witness :
  (forall x, x < length (heap Example.start) ->
             heap (state_after
                     (BelongsToMany._applyConstraints Example.relation)
                     Example.start) !! x
             = heap Example.start !! x) /\
  (forall ql ps,
     BelongsToMany.query Example.relation = VRef ql ->
     where_tree (heap Example.start) ql = Some ps ->
     where_tree (heap (state_after
                         (BelongsToMany._applyConstraints Example.relation)
                         Example.start)) ql = Some ps).
Proof.
  apply (constraints_leave_query_unconstrained Example.relation "user_id"
           2 Example.related_model "id" Example.start).
  - reflexivity.
  - reflexivity.
  - reflexivity.
  - reflexivity.
  - vm_compute. reflexivity.
Defined.

(** The builder of the example relation after [_applyConstraints]: its
    condition tree is empty and it assembles to the empty object. *)
Example constraints_example :
  let after :=
    state_after (BelongsToMany._applyConstraints Example.relation)
                Example.start in
  result_of (BelongsToMany._applyConstraints Example.relation) Example.start
  = Some tt /\
  where_tree (heap after) 10 = Some [] /\
  exists d,
    result_of (assemble (VRef 10)) after = Some (VRef d) /\
    heap (state_after (assemble (VRef 10)) after) !! d = Some (OObj []).
Proof.
  vm_compute. split; [reflexivity|]. split; [reflexivity|].
  eexists. split; reflexivity.
Qed.

(** ** Fetching never succeeds *)

Lemma loadRelated_rejects this models st out st' :
  loadRelated this models st = Some (out, st') ->
  exists msg, out = Rejected (TypeError msg).
Proof.
  unfold loadRelated, _keys. intros E.
  apply bind_Some in E as (r & s1 & _ & E).
  apply bind_Some in E as (ks & s2 & Eks & E).
  apply bind_Some in Eks as (h & s3 & _ & Eks).
  apply alloc_Some in Eks as [-> _].
  unfold Promise_map in E. simpl in E.
  apply ret_Some in E as [-> _]. eauto.
Qed.

(** X12. [fetch()] and [fetchAll()] are never fulfilled. Whatever the
    driver's call resolves to or is rejected with, and whatever the entity
    type does with the records, a run that gets as far as the related
    entities ends with the rejection of [loadRelated], which hands the
    sequence of relation names to the promise's [map] where the mapper
    belongs; every run that ends before does so with a rejection. *)
Theorem fetch_and_fetchAll_never_fulfilled
        setData newInstance response this st out st' :
  fetch setData response this st = Some (out, st') \/
  fetchAll newInstance response this st = Some (out, st') ->
  exists e, out = Rejected e.
Proof.
  intros [E|E].
  - unfold fetch in E.
    apply bind_Some in E as (r & s1 & _ & E).
    apply bind_Some in E as (d & s2 & _ & E).
    apply bind_Some in E as (u & s3 & _ & E).
    destruct response as [resp|e]; [|apply ret_Some in E as [-> _]; eauto].
    apply bind_Some in E as (h & s4 & _ & E).
    destruct (_isEmpty h resp); [apply ret_Some in E as [-> _]; eauto|].
    apply bind_Some in E as (hydrated & s5 & _ & E).
    destruct hydrated as [m|e]; [|apply ret_Some in E as [-> _]; eauto].
    apply bind_Some in E as (ms & s6 & _ & E).
    apply bind_Some in E as (loaded & s7 & El & E).
    destruct (loadRelated_rejects _ _ _ _ _ El) as [msg ->].
    apply ret_Some in E as [-> _]. eauto.
  - unfold fetchAll in E.
    apply bind_Some in E as (r & s1 & _ & E).
    apply bind_Some in E as (d & s2 & _ & E).
    apply bind_Some in E as (u & s3 & _ & E).
    destruct response as [resp|e]; [|apply ret_Some in E as [-> _]; eauto].
    apply bind_Some in E as (models & s4 & _ & E).
    destruct models as [ms|e]; [|apply ret_Some in E as [-> _]; eauto].
    apply bind_Some in E as (loaded & s5 & El & E).
    destruct (loadRelated_rejects _ _ _ _ _ El) as [msg ->].
    apply ret_Some in E as [-> _]. eauto.
Qed.

Lemma fetch_and_fetchAll_never_fulfilled_witness :
  (exists e,
     Rejected (TypeError "expecting a function") = Rejected e) /\
  result_of (fetch Fetched.setData (Resolved (VRef 8)) (VRef 5)) Fetched.found
  = Some (Rejected (TypeError "expecting a function")) /\
  result_of (fetchAll Fetched.newInstance (Resolved (VRef 9)) (VRef 5))
            Fetched.found
  = Some (Rejected (TypeError "expecting a function")).
Proof.
  split; [|split; reflexivity].
  apply (fetch_and_fetchAll_never_fulfilled
           Fetched.setData Fetched.newInstance (Resolved (VRef 8)) (VRef 5)
           Fetched.found (Rejected (TypeError "expecting a function"))
           (state_after
              (fetch Fetched.setData (Resolved (VRef 8)) (VRef 5))
              Fetched.found)).
  left. vm_compute. reflexivity.
Defined.

(** ** The fields of a builder only grow *)

Lemma keeps_fields_growing l w {A} (m : M A) :
  growing m -> keeps_fields l w m.
Proof.
  intros Hm st a st' r Hb Hl E.
  destruct (keeps_builder_growing l w m Hm st a st' Hb E) as [T Hb'].
  split; [exact T|]. split; [exact Hb'|]. exists r.
  destruct (Hm st a st' E) as (_ & Hf & _).
  rewrite Hf by (eapply lookup_lt_Some, Hl). auto.
Qed.

Lemma keeps_fields_bind l w {A B} (m : M A) (k : A -> M B) :
  keeps_fields l w m -> (forall a, keeps_fields l w (k a)) ->
  keeps_fields l w (bind m k).
Proof.
  intros Hm Hk st b st' r Hb Hl (a & s1 & E1 & E2)%bind_Some.
  destruct (Hm _ _ _ _ Hb Hl E1) as (T1 & Hb1 & r1 & Hl1 & Hs1 & Ho1).
  destruct (Hk a _ _ _ _ Hb1 Hl1 E2) as (T2 & Hb2 & r2 & Hl2 & Hs2 & Ho2).
  split; [eapply touches_trans; eassumption|]. split; [exact Hb2|].
  exists r2. split; [exact Hl2|]. split; congruence.
Qed.

Lemma keeps_fields_update l w f :
  (forall r, _where (f r) = _where r) ->
  (forall r, _select (f r) = _select r) ->
  (forall r, _order (f r) = _order r) ->
  keeps_fields l w (update_query (VRef l) f).
Proof.
  intros Hw Hs Ho st a st' r Hb Hl E.
  destruct (keeps_builder_update l w f Hw st a st' Hb E) as [T Hb'].
  split; [exact T|]. split; [exact Hb'|]. exists (f r).
  rewrite (update_query_run _ _ _ _ Hl) in E. injection E as _ <-. simpl.
  split; [apply list_lookup_insert_eq; eapply lookup_lt_Some, Hl|]. auto.
Qed.

Lemma keeps_fields_where l w arguments :
  keeps_fields l w (where_ (VRef l) arguments).
Proof.
  intros st a st' r Hb Hl E.
  destruct (keeps_builder_where l w arguments st a st' Hb E) as [T Hb'].
  split; [exact T|]. split; [exact Hb'|]. exists r.
  split; [|auto].
  pose proof (builder_at_distinct _ _ _ Hb) as Hne.
  unfold where_ in E.
  apply bind_Some in E as (cond0 & s0 & E0 & E).
  apply bind_Some in E as (cond & s1 & E1 & E).
  destruct (growing_where_cond arguments st cond s1) as (_ & F1 & _).
  { rewrite (bind_run _ _ _ _ _ E0). exact E1. }
  assert (Hl1 : heap s1 !! l = Some (OQuery r))
    by (rewrite F1 by (eapply lookup_lt_Some, Hl); exact Hl).
  rewrite (bind_run _ _ _ _ _ (this_query_run _ _ _ Hl1)) in E.
  apply bind_Some in E as (t & s2 & E2 & E).
  apply ret_Some in E as [_ ->].
  destruct Hb as (r0 & ps & Hl0 & Hw & Hwo).
  assert (r0 = r) as -> by congruence.
  rewrite Hw in E2.
  assert (Hw1 : heap s1 !! w = Some (OObj ps))
    by (rewrite F1 by (eapply lookup_lt_Some, Hwo); exact Hwo).
  rewrite (extend_run w ps cond s1 Hw1) in E2. injection E2 as _ <-.
  simpl. rewrite list_lookup_insert_ne by congruence. exact Hl1.
Qed.

Lemma keeps_fields_constrain l w c :
  match c with CSelect _ | COrder _ => False | _ => True end ->
  keeps_fields l w (constrain (VRef l) c).
Proof.
  destruct c; intros Hc; try contradiction; simpl;
    unfold whereIn, orWhere, from, take, skip, distinct;
    repeat first
      [ solve [apply keeps_fields_where]
      | solve [apply keeps_fields_growing; growing_tac]
      | solve [apply keeps_fields_update; intros ?; reflexivity]
      | apply keeps_fields_bind; [|intros ?] ].
Qed.

Lemma fields_unchanged l w st st' r r' :
  builder_at l w (heap st) ->
  heap st !! l = Some (OQuery r) ->
  heap st' !! l = Some (OQuery r') ->
  touches l w st st' ->
  forall field es,
    field r' = field r ->
    array_elems (heap st) (field r) = Some es ->
    array_elems (heap st') (field r') = Some es.
Proof.
  intros (r0 & ps & Hl0 & Hw & Hwo) Hl Hl' [_ F] field es Hfield Hes.
  rewrite Hfield. destruct (field r) as [| | | | | |x]; try discriminate.
  simpl in *. destruct (heap st !! x) as [o|] eqn:Ex; [|discriminate].
  destruct o; try discriminate.
  rewrite F; [rewrite Ex; exact Hes | eapply lookup_lt_Some, Ex | |];
    intros ->; congruence.
Qed.

Lemma array_elems_grows st st' v es :
  grows st st' ->
  array_elems (heap st) v = Some es -> array_elems (heap st') v = Some es.
Proof.
  intros (_ & F & _) H. destruct v as [| | | | | |x]; try discriminate.
  simpl in *. destruct (heap st !! x) as [o|] eqn:Ex; [|discriminate].
  rewrite F by (eapply lookup_lt_Some, Ex). rewrite Ex. exact H.
Qed.

(** The sequence [select] and [order] take their fields from. *)
Lemma given_fields arguments st args s1 :
  (if _isArray (heap st) (arg 0 arguments) then ret (arg 0 arguments)
   else _toArray arguments) st = Some (args, s1) ->
  grows st s1 /\ exists given, array_elems (heap s1) args = Some given.
Proof.
  unfold _isArray.
  destruct (array_elems (heap st) (arg 0 arguments)) as [given|] eqn:Harr.
  - intros [-> ->]%ret_Some. split; [apply grows_refl|]. eauto.
  - intros E. split; [eapply growing_toArray, E|].
    apply alloc_Some in E as [-> ->]. exists arguments.
    apply array_elems_fresh.
Qed.

Lemma accumulate_inv l w (field : Query -> value)
      (setf : value -> Query -> Query) arguments st v st' r cur :
  (forall u q, field (setf u q) = u) ->
  builder_at l w (heap st) ->
  heap st !! l = Some (OQuery r) ->
  array_elems (heap st) (field r) = Some cur ->
  (let* h := get_heap in
   let* args := (if _isArray h (arg 0 arguments) then ret (arg 0 arguments)
                 else _toArray arguments) in
   let* r := this_query (VRef l) in
   let* all := concat (field r) args in
   let* u := _uniq all in
   run update_query (VRef l) (setf u) in
   ret (VRef l)) st = Some (v, st') ->
  exists given u,
    heap st' !! l = Some (OQuery (setf u r)) /\
    array_elems (heap st') u = Some (accumulated cur given).
Proof.
  intros Hfield Hb Hl Hcur E.
  apply bind_Some in E as (h & s0 & [-> ->]%get_heap_Some & E).
  apply bind_Some in E as (args & s1 & E1 & E).
  destruct (given_fields _ _ _ _ E1) as (G & given & Hgiven).
  assert (Hl1 : heap s1 !! l = Some (OQuery r)).
  { destruct G as (_ & F & _).
    rewrite F by (eapply lookup_lt_Some, Hl). exact Hl. }
  rewrite (bind_run _ _ _ _ _ (this_query_run _ _ _ Hl1)) in E.
  rewrite (accumulate_tail l r _ _ setf cur given s1 Hl1
             (array_elems_grows _ _ _ _ G Hcur) Hgiven) in E.
  injection E as _ <-.
  exists given, (VRef (S (length (heap s1)))). simpl.
  pose proof (lookup_lt_Some _ _ _ Hl1) as Hlt.
  split.
  - apply list_lookup_insert_eq. rewrite length_app. lia.
  - erewrite accumulated_lookup by exact Hlt. reflexivity.
Qed.

Lemma constrain_fields l w c st v st' es os :
  builder_at l w (heap st) ->
  select_fields (heap st) l = Some es ->
  order_fields (heap st) l = Some os ->
  NoDup es -> NoDup os ->
  constrain (VRef l) c st = Some (v, st') ->
  builder_at l w (heap st') /\
  exists es' os',
    select_fields (heap st') l = Some (es ++ es') /\
    order_fields (heap st') l = Some (os ++ os') /\
    NoDup (es ++ es') /\ NoDup (os ++ os').
Proof.
  intros Hb (r & Hl & Hes)%select_fields_Some (r0 & Hl0 & Hos)%order_fields_Some
         Hnd Hnd' E.
  assert (r0 = r) as -> by congruence.
  destruct (keeps_builder_constrain l w c st v st' Hb E) as [T Hb'].
  split; [exact Hb'|].
  assert (Hsame : forall r',
             heap st' !! l = Some (OQuery r') ->
             (_select r' = _select r ->
              select_fields (heap st') l = Some es) /\
             (_order r' = _order r ->
              order_fields (heap st') l = Some os)).
  { intros r' Hl'. unfold select_fields, order_fields. rewrite Hl'. split.
    - intros H.
      exact (fields_unchanged l w st st' r r' Hb Hl Hl' T _select es H Hes).
    - intros H.
      exact (fields_unchanged l w st st' r r' Hb Hl Hl' T _order os H Hos). }
  destruct c;
    try (match type of E with
         | constrain _ ?c _ = _ =>
             destruct (keeps_fields_constrain l w c I st v st' r Hb Hl E)
               as (_ & _ & r' & Hl' & Hs' & Ho')
         end;
         destruct (Hsame r' Hl') as [Hs Ho];
         exists [], []; rewrite !app_nil_r; auto).
  - (* select *)
    destruct (accumulate_inv l w _select set_select arguments st v st' r es
                ltac:(reflexivity) Hb Hl Hes E)
      as (given & u & Hl' & Hu).
    destruct (Hsame _ Hl') as [_ Ho].
    exists (newly_added es given), [].
    rewrite app_nil_r, <- accumulated_adds by exact Hnd.
    split; [unfold select_fields; rewrite Hl'; exact Hu|].
    split; [apply Ho; reflexivity|].
    split; [apply accumulated_NoDup | exact Hnd'].
  - (* order *)
    destruct (accumulate_inv l w _order set_order arguments st v st' r os
                ltac:(reflexivity) Hb Hl Hos E)
      as (given & u & Hl' & Hu).
    destruct (Hsame _ Hl') as [Hs _].
    exists [], (newly_added os given).
    rewrite app_nil_r, <- accumulated_adds by exact Hnd'.
    split; [apply Hs; reflexivity|].
    split; [unfold order_fields; rewrite Hl'; exact Hu|].
    split; [exact Hnd | apply accumulated_NoDup].
Qed.

(** X13. Whatever constraint calls are made on a builder, the fields it
    has for [select] and for [order] stay in front, in their order, and no
    field is ever listed twice: the calls only append to the two lists. *)
Theorem fields_only_grow l w cs : forall es os st st',
  builder_at l w (heap st) ->
  select_fields (heap st) l = Some es ->
  order_fields (heap st) l = Some os ->
  NoDup es -> NoDup os ->
  constrain_all (VRef l) cs st = Some (tt, st') ->
  exists es' os',
    select_fields (heap st') l = Some (es ++ es') /\
    order_fields (heap st') l = Some (os ++ os') /\
    NoDup (es ++ es') /\ NoDup (os ++ os').
Proof.
  induction cs as [|c cs IH]; intros es os st st' Hb Hes Hos Hnd Hnd' E.
  - apply ret_Some in E as [_ ->]. exists [], []. rewrite !app_nil_r. auto.
  - cbn [constrain_all] in E. apply bind_Some in E as (v & s1 & E1 & E).
    destruct (constrain_fields l w c st v s1 es os Hb Hes Hos Hnd Hnd' E1)
      as (Hb1 & es1 & os1 & Hes1 & Hos1 & Hnd1 & Hnd1').
    destruct (IH _ _ s1 st' Hb1 Hes1 Hos1 Hnd1 Hnd1' E)
      as (es2 & os2 & Hes2 & Hos2 & Hnd2 & Hnd2').
    exists (es1 ++ es2), (os1 ++ os2). rewrite !app_assoc. auto.
Qed.

Lemma fields_only_grow_witness :
  exists es' os',
    select_fields (heap Snapshot.constrained) 4 = Some ([VStr "a"] ++ es') /\
    order_fields (heap Snapshot.constrained) 4 = Some ([] ++ os') /\
    NoDup ([VStr "a"] ++ es') /\ NoDup ([] ++ os').
Proof.
  apply (fields_only_grow 4 0 Snapshot.calls_after [VStr "a"] []
           Snapshot.assembled Snapshot.constrained).
  - eexists _, _. repeat split; reflexivity.
  - reflexivity.
  - reflexivity.
  - apply NoDup_singleton.
  - apply NoDup_nil_2.
  - reflexivity.
Defined.

(** ** Installing a plugin *)

(** X14. [use(plugin, a1, .., an)] installs a plugin once. For a plugin
    object that is not yet marked and has an [install] function, the call
    returns the class after exactly one call of that function, applied to
    a new sequence holding the class followed by the given arguments, and
    marks the plugin as installed, changing nothing else of it; any later
    [use] of the same plugin returns the class and changes nothing: no
    further call is made. *)
Theorem use_installs_once p ps f this rest st :
  heap st !! p = Some (OObj ps) ->
  get_prop ps "installed" <> Some (VBool true) ->
  get_prop ps "install" = Some (VFunc f) ->
  exists st1,
    use this (VRef p :: rest) st = Some (this, st1) /\
    calls st1
    = calls st ++ [Call (VFunc f) "apply" [VNull; VRef (length (heap st))]] /\
    heap st1 !! length (heap st) = Some (OArr (this :: rest)) /\
    heap st1 !! p = Some (OObj (set_prop ps "installed" (VBool true))) /\
    (forall x, x < length (heap st) -> x <> p ->
               heap st1 !! x = heap st !! x) /\
    (forall rest', use this (VRef p :: rest') st1 = Some (this, st1)).
Proof.
  intros Hp Hflag Hinstall. pose proof (lookup_lt_Some _ _ _ Hp) as Hlt.
  assert (Hm : forall name, member (heap st) (VRef p) name
                            = default VUndefined (get_prop ps name)).
  { intros name. unfold member. simpl. rewrite Hp. reflexivity. }
  assert (Hins : <[length (heap st):=OArr (this :: rest)]>
                   (heap st ++ [OArr rest])
                 = heap st ++ [OArr (this :: rest)]).
  { replace (length (heap st)) with (length (heap st) + 0) by lia.
    rewrite insert_app_r. reflexivity. }
  eexists. split.
  { unfold use, arg.
    change (nth 0 (VRef p :: rest) VUndefined) with (VRef p).
    cbv beta iota zeta.
    rewrite (bind_run _ _ _ _ _ eq_refl).
    rewrite Hm. rewrite bool_decide_eq_false_2.
    2:{ intros H. destruct (get_prop ps "installed") as [v|] eqn:E;
          simpl in H; [subst v; congruence | discriminate]. }
    unfold _rest, unshift. rewrite (bind_run _ _ _ _ _ eq_refl).
    simpl tl. rewrite bind_assoc.
    erewrite bind_run
      by (unfold load; simpl; rewrite lookup_fresh; reflexivity).
    erewrite bind_run
      by (unfold store; simpl; rewrite lookup_fresh; reflexivity).
    rewrite (bind_run _ _ _ _ _ eq_refl). simpl heap. simpl calls.
    rewrite Hins.
    assert (Hm' : forall name,
               member (heap st ++ [OArr (this :: rest)]) (VRef p) name
               = default VUndefined (get_prop ps name)).
    { intros name. unfold member. simpl.
      rewrite (lookup_grown _ _ _ _ Hp). reflexivity. }
    rewrite !Hm', Hinstall. simpl.
    rewrite (bind_run _ _ _ _ _ eq_refl).
    erewrite bind_run by (apply assign_run; simpl; apply lookup_grown, Hp).
    reflexivity. }
  simpl.
  split; [reflexivity|]. split.
  { rewrite list_lookup_insert_ne by lia. apply lookup_fresh. }
  split.
  { apply list_lookup_insert_eq. rewrite length_app. lia. }
  split.
  { intros x Hx Hxp. rewrite list_lookup_insert_ne by congruence.
    apply lookup_app_l, Hx. }
  intros rest'. unfold use, arg.
  change (nth 0 (VRef p :: rest') VUndefined) with (VRef p).
  cbv beta iota zeta.
  rewrite (bind_run _ _ _ _ _ eq_refl). unfold member. simpl.
  rewrite list_lookup_insert_eq by (rewrite length_app; lia).
  rewrite get_set_prop. simpl. reflexivity.
Qed.

Lemma use_installs_once_witness :
  exists st1,
    use (VFunc "Model") [VRef 0; VStr "option"] Plugin.registry
    = Some (VFunc "Model", st1) /\
    calls st1
    = calls Plugin.registry
      ++ [Call (VFunc "install") "apply"
               [VNull; VRef (length (heap Plugin.registry))]] /\
    heap st1 !! length (heap Plugin.registry)
    = Some (OArr [VFunc "Model"; VStr "option"]) /\
    heap st1 !! 0
    = Some (OObj (set_prop [("install", VFunc "install");
                            ("name", VStr "timestamps")]
                           "installed" (VBool true))) /\
    (forall x, x < length (heap Plugin.registry) -> x <> 0 ->
               heap st1 !! x = heap Plugin.registry !! x) /\
    (forall rest',
        use (VFunc "Model") (VRef 0 :: rest') st1
        = Some (VFunc "Model", st1)).
Proof.
  apply (use_installs_once 0 _ "install" (VFunc "Model") [VStr "option"]
           Plugin.registry eq_refl).
  - discriminate.
  - reflexivity.
Defined.
